(** * Item resolution and classification pipeline of the session viewer

    A shallow embedding of
    - [scripts/precompute_all_session_items.js] (catalog loader and bulk
      session cache builder),
    - the [precompute-items] POST route (on-demand session cache builder),
    - the session page component (runtime item cache, [fetchItem],
      [getItemCategory], [categorizeItemByName]),
    together with the properties the specification states about them.

    Conventions.  JavaScript objects that are only read by key and counted
    are finite maps ([gmap string _]); objects that are serialised keep
    their own-property order and are association lists; a [Set] is the list
    of its elements in insertion order.  The objects the builders use as
    maps from names to records are plain objects: a read sees what the
    object inherits from its prototype, and an assignment under
    [__proto__] replaces the prototype instead of creating a property;
    both are modelled ([Value], [inherited]).  Item names are ASCII
    strings; keys that are array indices, which an object lists before its
    other keys, are not modelled.  Values typed with an interface in the
    source have that type here, values typed [any] are values of [JSON]; a
    JSON number counts only through being zero or not, so it is carried as
    an integer. *)

From Stdlib Require Import String Ascii.
From stdpp Require Import gmap strings list fin_maps.

Local Open Scope string_scope.
Local Open Scope list_scope.
Local Set Warnings "-register-all".

(** ** JavaScript values and operators used by the code *)

Module Js.

Inductive JSON : Type :=
| JNull
| JBool (b : bool)
| JNum (n : Z)
| JStr (s : string)
| JArr (xs : list JSON)
| JObj (fields : gmap string JSON).

(** A property read yields [None] for [undefined]. *)
Definition Any := option JSON.

(** [Boolean(v)], the test of [if (v)] and of [a && b]. *)
Definition truthy (v : Any) : bool :=
  match v with
  | None | Some JNull => false
  | Some (JBool b) => b
  | Some (JNum n) => negb (Z.eqb n 0)
  | Some (JStr s) => negb (String.eqb s "")
  | Some (JArr _) | Some (JObj _) => true
  end.

(** [v?.k]: [undefined] on [undefined] and [null]; own-property lookup on
    an object; primitives and arrays have no such property. *)
Definition opt_get (v : Any) (k : string) : Any :=
  match v with
  | Some (JObj fields) => fields !! k
  | _ => None
  end.

(** [v == null]: [v] is [null] or [undefined]. *)
Definition nullish (v : Any) : bool :=
  match v with
  | None | Some JNull => true
  | _ => false
  end.

(** Whether [ToString(v)] throws.  An object is converted by its
    [toString] method; parsed JSON has no functions, so an object with an
    own [toString] property hides the method of [Object.prototype] with a
    value that cannot be called, and neither it nor [valueOf] yields a
    primitive.  An array joins the conversions of its elements, skipping
    [null]. *)
Fixpoint toString_throws (v : JSON) : bool :=
  match v with
  | JObj fields => bool_decide (is_Some (fields !! "toString"))
  | JArr xs => existsb toString_throws xs
  | _ => false
  end.

(** [v === 'lit'] *)
Definition strict_eq_str (v : Any) (lit : string) : bool :=
  match v with
  | Some (JStr s) => String.eqb s lit
  | _ => false
  end.

(** [String.prototype.toLowerCase] on the ASCII letters. *)
Definition lower_ascii (c : ascii) : ascii :=
  let n := nat_of_ascii c in
  if (65 <=? n)%nat && (n <=? 90)%nat then ascii_of_nat (n + 32) else c.

Fixpoint toLowerCase (s : string) : string :=
  match s with
  | EmptyString => EmptyString
  | String c t => String (lower_ascii c) (toLowerCase t)
  end.

(** [s.includes(sub)] *)
Fixpoint includes (s sub : string) : bool :=
  String.prefix sub s ||
  match s with
  | EmptyString => false
  | String _ t => includes t sub
  end.

(** [s.endsWith(suffix)] *)
Definition endsWith (s suffix : string) : bool :=
  let n := String.length s in
  let k := String.length suffix in
  (k <=? n)%nat && String.eqb (String.substring (n - k) k s) suffix.

(** [Set.prototype.add] on a set kept in insertion order. *)
Definition set_add (x : string) (s : list string) : list string :=
  if decide (x ∈ s) then s else s ++ [x].

(** A plain object with string keys, own properties in insertion order. *)
Definition Obj (V : Type) := list (string * V).

Fixpoint obj_get {V} (o : Obj V) (k : string) : option V :=
  match o with
  | [] => None
  | (k', v) :: o' => if decide (k' = k) then Some v else obj_get o' k
  end.

(** [o[k] = v]: an existing key keeps its position. *)
Fixpoint obj_set {V} (o : Obj V) (k : string) (v : V) : Obj V :=
  match o with
  | [] => [(k, v)]
  | (k', v') :: o' =>
      if decide (k' = k) then (k', v) :: o' else (k', v') :: obj_set o' k v
  end.

(** [Object.keys(o)] *)
Definition keys {V} (o : Obj V) : list string := o.*1.

End Js.

Import Js.

(** ** Data model *)

(** [interface Item] *)
Record Item := {
  id : string;
  name : string;
  attributeBlocks : gmap string JSON;
  parts : list JSON
}.

(** ** Plain objects that map names to records *)

(** The properties of [Object.prototype] that are functions; [__proto__],
    its one accessor, is treated where objects are read and assigned. *)
Definition Object_prototype_functions : list string :=
  ["constructor"; "__defineGetter__"; "__defineSetter__"; "hasOwnProperty";
   "__lookupGetter__"; "__lookupSetter__"; "isPrototypeOf";
   "propertyIsEnumerable"; "toString"; "valueOf"; "toLocaleString"].

(** What a property read gives on a plain object whose own properties are
    records: a record; a field of the record that became its prototype; a
    function of [Object.prototype]; [Object.prototype] itself; or
    [undefined]. *)
Inductive Value :=
| VRecord (r : Item)
| VString (s : string)
| VBlocks (blocks : gmap string JSON)
| VParts (parts : list JSON)
| VFunction (n : string)
| VObjectPrototype
| VUndefined.

(** [Boolean(v)]: objects, arrays and functions are truthy, a string is
    unless it is empty. *)
Definition truthy_value (v : Value) : bool :=
  match v with
  | VUndefined => false
  | VString s => negb (String.eqb s "")
  | _ => true
  end.

(** [Object.prototype[k]] for a name other than [__proto__]. *)
Definition Object_prototype (k : string) : Value :=
  if decide (k ∈ Object_prototype_functions) then VFunction k
  else VUndefined.

(** What a plain object without own property [k] reads under [k].  Its
    prototype is [Object.prototype] ([proto] is [None]) until an assignment
    [o["__proto__"] = record] makes that record the prototype; the record
    is an object literal with the four fields of an [Item], whose own
    prototype is [Object.prototype].  Under [__proto__] the getter of
    [Object.prototype] returns the prototype of the object. *)
Definition inherited (proto : option Item) (k : string) : Value :=
  match proto with
  | Some record =>
      if String.eqb k "id" then VString (id record)
      else if String.eqb k "name" then VString (name record)
      else if String.eqb k "attributeBlocks"
      then VBlocks (attributeBlocks record)
      else if String.eqb k "parts" then VParts (parts record)
      else if String.eqb k "__proto__" then VRecord record
      else Object_prototype k
  | None =>
      if String.eqb k "__proto__" then VObjectPrototype
      else Object_prototype k
  end.

(** The own properties of a plain object after [o[k] = v].  No prototype
    in this program has a setter or a read-only property apart from
    [__proto__] on [Object.prototype], so the assignment creates or
    updates an own property, except under [__proto__]: there the setter
    runs and the object gets no own property. *)
Definition own_after_assign (own : Obj Value) (k : string) (v : Value)
    : Obj Value :=
  if String.eqb k "__proto__" then own else obj_set own k v.

(** A plain object to which only records are assigned: its own properties,
    and the record an assignment under [__proto__] made its prototype. *)
Record PlainObject := {
  own : Obj Value;
  proto : option Item
}.

(** [{}] *)
Definition empty_object : PlainObject := {| own := []; proto := None |}.

(** [o[k]] *)
Definition get (o : PlainObject) (k : string) : Value :=
  match obj_get (own o) k with
  | Some v => v
  | None => inherited (proto o) k
  end.

(** [o[k] = record] *)
Definition assign_record (o : PlainObject) (k : string) (record : Item)
    : PlainObject :=
  {| own := own_after_assign (own o) k (VRecord record);
     proto := if String.eqb k "__proto__" then Some record else proto o |}.

(** The catalog of the script is such an object that is only read by
    name; it is kept as a finite map, in which the key [__proto__], which
    is never an own property, holds the record that was made the
    prototype.  [catalog_get allItemData k] is [allItemData[k]]. *)
Definition catalog_get (allItemData : gmap string Item) (k : string)
    : Value :=
  match allItemData !! k with
  | Some record => VRecord record
  | None => inherited (allItemData !! "__proto__") k
  end.

(** Whether [JSON.stringify] writes a property with this value: one whose
    value is a function or [undefined] is left out. *)
Definition serialised (v : Value) : bool :=
  match v with
  | VFunction _ | VUndefined => false
  | _ => true
  end.

(** The properties of an object that are records, as [JSON.parse] gives
    the serialised object back when its other properties are functions,
    which [JSON.stringify] leaves out. *)
Definition records (o : Obj Value) : Obj Item :=
  omap (λ kv, match kv.2 with
              | VRecord r => Some (kv.1, r)
              | _ => None
              end) o.

(** The display categories, with the string each one is in the source. *)
Inductive Category :=
| Weapon | Armor | Spell | Treasure | LargeTreasure | GreatTreasure
| Native | Other.

Definition category_label (c : Category) : string :=
  match c with
  | Weapon => "weapon"
  | Armor => "armor"
  | Spell => "spell"
  | Treasure => "treasure"
  | LargeTreasure => "large_treasure"
  | GreatTreasure => "great_treasure"
  | Native => "native"
  | Other => "other"
  end.

(** ** Classification (session page component) *)

(** [categorizeItemByName] *)
Definition categorizeItemByName (itemName : string) : Category :=
  let name := toLowerCase itemName in
  if includes name "bow" || includes name "sword" || includes name "axe" ||
     includes name "spear" || includes name "mace" || includes name "staff" ||
     includes name "crossbow" || includes name "halberd" ||
     includes name "broadsword" || includes name "great sword" ||
     includes name "great axe" || includes name "morning star" ||
     includes name "thrusting sword" || includes name "short sword"
  then Weapon
  else if includes name "armor" || includes name "shield" ||
          includes name "helmet" || includes name "breastplate" ||
          includes name "greaves" || includes name "gauntlets"
  then Armor
  else if includes name "peace with nature" || includes name "type vii" ||
          includes name "type vi" || includes name "type v" ||
          includes name "type iv" || includes name "type iii" ||
          includes name "type ii" || includes name "type i"
  then Spell
  else if includes name "great" &&
          (includes name "treasure" || includes name "sword" ||
           includes name "axe" || includes name "armor")
  then GreatTreasure
  else if includes name "treasure" || includes name "gold" ||
          includes name "jewel" || includes name "gem" ||
          includes name "coin"
  then Treasure
  else if includes name "native" || includes name "guard" ||
          includes name "mercenary" || includes name "lancer" ||
          includes name "dwarf" || includes name "elf"
  then Native
  else Other.

(** [getItemCategory], for an inventory entry whose [name] is [itemName];
    [itemCache] is the component's cache as the enclosing render sees it. *)
Definition getItemCategory
    (itemCache : gmap string Item) (itemName : string) : Category :=
  match itemCache !! itemName with
  | Some cached =>
      let blocks := attributeBlocks cached in
      if truthy (blocks !! "intact") && truthy (blocks !! "damaged")
      then Armor
      else if truthy (blocks !! "unalerted") && truthy (blocks !! "alerted")
      then Weapon
      else if truthy (opt_get (blocks !! "this") "spell")
      then Spell
      else if truthy (opt_get (blocks !! "this") "base_price")
      then
        if strict_eq_str (opt_get (blocks !! "this") "treasure") "large"
        then LargeTreasure
        else Treasure
      else categorizeItemByName itemName
  | None => categorizeItemByName itemName
  end.

(** The structural tests, as [renderEquipmentTooltip] names them. *)
Definition isArmor (blocks : gmap string JSON) : bool :=
  truthy (blocks !! "intact") && truthy (blocks !! "damaged").

Definition isWeapon (blocks : gmap string JSON) : bool :=
  truthy (blocks !! "unalerted") && truthy (blocks !! "alerted").

Definition isSpell (blocks : gmap string JSON) : bool :=
  truthy (opt_get (blocks !! "this") "spell").

Definition has_base_price (blocks : gmap string JSON) : bool :=
  truthy (opt_get (blocks !! "this") "base_price").

(** A record contains a block when its [attributeBlocks] maps the block's
    name to a structured payload. *)
Definition has_block (blocks : gmap string JSON) (k : string) : Prop :=
  ∃ fields, blocks !! k = Some (JObj fields).

(** [isLargeTreasure] *)
Definition isLargeTreasure
    (itemCache : gmap string Item) (itemName : string) : bool :=
  match itemCache !! itemName with
  | Some cached =>
      strict_eq_str (opt_get (attributeBlocks cached !! "this") "treasure")
        "large"
  | None => false
  end.

(** ** Exceptions *)

(** What a statement that can throw completes with. *)
Inductive Exn := SyntaxError | TypeError | IOError.

Inductive Completion (A : Type) : Type :=
| Normal (a : A)
| Throw (e : Exn).
Arguments Normal {A} a.
Arguments Throw {A} e.

#[global] Instance Completion_bind : MBind Completion :=
  λ A B k c,
    match c with
    | Normal a => k a
    | Throw e => Throw e
    end.

(** A [for ... of] loop whose body can throw. *)
Fixpoint for_of {A S} (body : S → A → Completion S) (s : S) (xs : list A)
    : Completion S :=
  match xs with
  | [] => Normal s
  | x :: xs' => s' ← body s x; for_of body s' xs'
  end.

(** ** Character inventories *)

Module Inv.

(** An element of a bucket; [name] is [None] when the entry has none. *)
Record entry := { name : option string }.

(** A bucket is [undefined] or an array whose elements may be [null]. *)
Definition bucket := option (list (option entry)).

Record items_t := {
  weapons : bucket;
  armor : bucket;
  treasures : bucket;
  great_treasures : bucket;
  spells : bucket;
  natives : bucket;
  other : bucket;
  unknown : bucket
}.

Record charData := { items : option items_t }.

(** The parsed [character_inventories.json]: characters in the order of
    [Object.values]; a character's value may be [null]. *)
Definition t := list (string * option charData).

End Inv.

(** [itemArrays.flat()]: an array is spliced in, [undefined] stays as one
    element. *)
Definition flat (itemArrays : list Inv.bucket) : list (option Inv.entry) :=
  itemArrays ≫= (λ b, match b with Some xs => xs | None => [None] end).

(** [.filter(Boolean)] *)
Definition filter_Boolean (xs : list (option Inv.entry)) : list Inv.entry :=
  omap (λ x, x) xs.

(** [if (item?.name) allItems.add(item.name)] *)
Definition add_item (allItems : list string) (item : Inv.entry)
    : list string :=
  match Inv.name item with
  | Some n => if String.eqb n "" then allItems else set_add n allItems
  | None => allItems
  end.

(** The body of [Object.values(inventories).forEach]. *)
Definition add_character (allItems : list string)
    (charData : option Inv.charData) : list string :=
  match charData with
  | Some {| Inv.items := Some its |} =>
      let itemArrays :=
        [Inv.weapons its; Inv.armor its; Inv.treasures its;
         Inv.great_treasures its; Inv.spells its; Inv.natives its;
         Inv.other its; Inv.unknown its] in
      foldl add_item allItems (filter_Boolean (flat itemArrays))
  | _ => allItems
  end.

(** The set [allItems] of the distinct item names of all characters. *)
Definition allItems (inventories : Inv.t) : list string :=
  foldl add_character [] (inventories.*2).

(** The eight buckets of a character, and what it is for the inventories
    to refer to a name: some character has, in some bucket, an entry with
    that name, and the name is not the empty string. *)
Definition buckets (its : Inv.items_t) : list Inv.bucket :=
  [Inv.weapons its; Inv.armor its; Inv.treasures its;
   Inv.great_treasures its; Inv.spells its; Inv.natives its;
   Inv.other its; Inv.unknown its].

Definition referenced (inventories : Inv.t) (n : string) : Prop :=
  n ≠ "" ∧
  ∃ character its xs,
    (character, Some {| Inv.items := Some its |}) ∈ inventories ∧
    Some xs ∈ buckets its ∧
    Some {| Inv.name := Some n |} ∈ xs.

(** ** The game data stores and the sessions directory *)

(** What [JSON.parse] gives for a record file, when it is an object. *)
Record RawRecord := {
  r_id : string;
  r_name : string;
  r_attributeBlocks : option (gmap string JSON);
  r_parts : option (list JSON)
}.

(** The record the builders keep for a parsed file:
    [{ id, name, attributeBlocks: x.attributeBlocks || {}, parts: x.parts || [] }] *)
Definition record_of (x : RawRecord) : Item :=
  {| id := r_id x;
     name := r_name x;
     attributeBlocks := default ∅ (r_attributeBlocks x);
     parts := default [] (r_parts x) |}.

(** What [JSON.parse] does on the content of a record file: it throws; it
    gives [null]; or it gives a value that is read as a record. *)
Inductive Parsed :=
| parse_throws
| parsed_null
| parsed (x : RawRecord).

(** An entry of a store directory: a plain file, or a subdirectory with its
    entries, each with its name and with its content if
    [fs.readFileSync] can read it ([None]: the entry is a directory or an
    unreadable file). *)
Inductive Entry :=
| RegularFile
| Directory (files : list (string * option string)).

(** A store, [None] when the directory does not exist. *)
Definition Store := option (list (string * Entry)).

Record Disk := {
  items_store : Store;                            (* coregamedata/items *)
  spells_store : Store;                           (* coregamedata/spells *)
  sessions : option (gmap string (gmap string string))
                                                  (* public/parsed_sessions *)
}.

(** How the disk answers [fs.writeFileSync(path, data)]: the call opens the
    path for writing, which creates or truncates the file, and then writes
    the data.  It can fail before the file is touched, or after the file was
    truncated and [written] bytes reached it. *)
Inductive WriteBehaviour :=
| Succeeds
| FailsBeforeOpen
| FailsAfterTruncate (written : nat).

Definition writeFileSync (w : WriteBehaviour)
    (dir : gmap string string) (file data : string)
    : Completion unit * gmap string string :=
  match w with
  | Succeeds => (Normal (), <[file := data]> dir)
  | FailsBeforeOpen => (Throw IOError, dir)
  | FailsAfterTruncate written =>
      (Throw IOError, <[file := String.substring 0 written data]> dir)
  end.

(** ** The session cache builders *)

(** The result object of [processSession]. *)
Inductive SessionResult :=
| no_inventories (sessionId : string)
| success (sessionId : string) (itemsFound totalItems missingItems : nat)
| error (sessionId : string) (e : Exn).

(** The response of the [precompute-items] route. *)
Inductive Response :=
| status_404 (error : string)
| status_500 (error : string)
| status_200 (itemsFound totalItems : nat) (missingItems : list string).

Definition inventories_file := "character_inventories.json".
Definition precomputed_file := "precomputed_items.json".

(** The content of a file of a session directory, if it exists. *)
Definition session_file (disk : Disk) (sessionId file : string)
    : option string :=
  dirs ← sessions disk; dir ← dirs !! sessionId; dir !! file.

(** The disk after the files of one session directory changed. *)
Definition with_session_dir (disk : Disk) (sessionId : string)
    (dir : gmap string string) : Disk :=
  {| items_store := items_store disk;
     spells_store := spells_store disk;
     sessions := <[sessionId := dir]> <$> sessions disk |}.

(** The subdirectories of a directory, each as the list of its files. *)
Definition subdirectories (entries : list (string * Entry))
    : list (list (string * option string)) :=
  omap (λ e, match e.2 with
             | Directory files => Some files
             | RegularFile => None
             end) entries.

(** What a [fs.writeFileSync] that behaves as [w] makes of a file that was
    [before], when asked to write [data]. *)
Definition written_in_place (w : WriteBehaviour)
    (before after : option string) (data : string) : Prop :=
  match w with
  | Succeeds => after = Some data
  | FailsBeforeOpen => after = before
  | FailsAfterTruncate written =>
      after = Some (String.substring 0 written data)
  end.

(** Nothing but the artifact of the session differs between two disks. *)
Definition same_elsewhere (disk disk' : Disk) (sessionId : string) : Prop :=
  items_store disk' = items_store disk ∧
  spells_store disk' = spells_store disk ∧
  ∀ sessionId' file,
    sessionId' ≠ sessionId ∨ file ≠ precomputed_file →
    session_file disk' sessionId' file = session_file disk sessionId' file.

Section Builders.

(** [JSON.parse] at the two types it is used at (for the inventories
    [None]: it throws), and [JSON.stringify(_, null, 2)] on the own
    properties of the object that gets persisted. *)
Variable JSON_parse_record : string → Parsed.
Variable JSON_parse_inventories : string → option Inv.t.
Variable JSON_stringify : Obj Value → string.

(** [JSON.parse(fs.readFileSync(path, 'utf8'))] followed by the first read
    of a property of the result, which each of the three loops over record
    files does next ([item.name], [itemData.name], [spellData.name]). *)
Definition read_record (content : option string) : Completion RawRecord :=
  match content with
  | None => Throw IOError
  | Some data =>
      match JSON_parse_record data with
      | parse_throws => Throw SyntaxError
      | parsed_null => Throw TypeError
      | parsed item => Normal item
      end
  end.

(** The record files of a store, and what it is for a store to hold a
    record: one of its [.json] files can be read and parses to it. *)
Definition record_files (store : Store) : list (string * option string) :=
  match store with
  | None => []
  | Some entries => concat (subdirectories entries)
  end.

Definition holds_record (files : list (string * option string))
    (x : RawRecord) : Prop :=
  ∃ file, file ∈ files ∧ endsWith file.1 ".json" = true ∧
          read_record file.2 = Normal x.

Definition in_store (store : Store) (x : RawRecord) : Prop :=
  holds_record (record_files store) x.

(** *** [scripts/precompute_all_session_items.js] *)

(** The body of [for (const file of files)] in [loadAllItemData]; the
    items loop and the spells loop have the same body.  The assignment
    [itemData[item.name] = {...}] is an insertion in the finite map that
    stands for [itemData], also under [__proto__] (see [catalog_get]). *)
Definition load_file (itemData : gmap string Item)
    (file : string * option string) : Completion (gmap string Item) :=
  if negb (endsWith file.1 ".json") then Normal itemData
  else
    item ← read_record file.2;
    Normal (<[r_name item := record_of item]> itemData).

(** One of the two [if (fs.existsSync(DIR)) { ... }] blocks. *)
Definition load_store (itemData : gmap string Item) (store : Store)
    : Completion (gmap string Item) :=
  match store with
  | None => Normal itemData
  | Some entries =>
      for_of (for_of load_file) itemData (subdirectories entries)
  end.

Definition loadAllItemData (disk : Disk) : Completion (gmap string Item) :=
  itemData ← load_store ∅ (items_store disk);
  load_store itemData (spells_store disk).

(** The body of [for (const itemName of allItems)]; the state is
    [(sessionItems, missingItems)].  [sessionItems] is kept as its own
    properties: the prototype an assignment under [__proto__] may give it
    is read by nothing that follows ([Object.keys] and [JSON.stringify]
    visit own properties, and no record has a [toJSON]). *)
Definition match_item (allItemData : gmap string Item)
    (acc : Obj Value * list string) (itemName : string)
    : Obj Value * list string :=
  if truthy_value (catalog_get allItemData itemName)
  then (own_after_assign acc.1 itemName (catalog_get allItemData itemName),
        acc.2)
  else (acc.1, acc.2 ++ [itemName]).

Definition find_matching_items (allItemData : gmap string Item)
    (names : list string) : Obj Value * list string :=
  foldl (match_item allItemData) ([], []) names.

Definition processSession (w : WriteBehaviour) (sessionId : string)
    (allItemData : gmap string Item) (disk : Disk)
    : SessionResult * Disk :=
  match session_file disk sessionId inventories_file with
  | None => (no_inventories sessionId, disk)
  | Some inventoriesData =>
      match JSON_parse_inventories inventoriesData with
      | None => (error sessionId SyntaxError, disk)
      | Some inventories =>
          let names := allItems inventories in
          let '(sessionItems, missingItems) :=
            find_matching_items allItemData names in
          let dir := default ∅ (sessions disk ≫= (.!! sessionId)) in
          let '(written, dir') :=
            writeFileSync w dir precomputed_file
              (JSON_stringify sessionItems) in
          let disk' := with_session_dir disk sessionId dir' in
          match written with
          | Throw e => (error sessionId e, disk')
          | Normal _ =>
              (success sessionId (length (keys sessionItems))
                 (length names) (length missingItems), disk')
          end
      end
  end.

(** *** The [precompute-items] route *)

(** [searchForItems(searchDir, itemNames)], a closure over the route's
    [itemData].  In the loop body [const itemData = JSON.parse(...)]
    declares a second [itemData]; the [let]s below bind the same way, so
    the assignment [itemData[itemData.name] = {...}] adds a property to
    the parsed object (kept here beside its parsed fields) and the
    route's object, the loop state [found], is handed on as it was. *)
Definition searchForItems_file (itemNames : list string)
    (found : PlainObject) (file : string * option string)
    : Completion PlainObject :=
  if negb (endsWith file.1 ".json") then Normal found
  else
    parsed ← read_record file.2;
    let itemData : RawRecord * Obj Item := (parsed, []) in
    let itemData :=
      if decide (r_name itemData.1 ∈ itemNames)
      then (itemData.1,
            obj_set itemData.2 (r_name itemData.1)
              (record_of itemData.1))
      else itemData in
    Normal found.

Definition searchForItems (itemData : PlainObject) (searchDir : Store)
    (itemNames : list string) : Completion PlainObject :=
  match searchDir with
  | None => Normal itemData
  | Some entries =>
      for_of (for_of (searchForItems_file itemNames)) itemData
        (subdirectories entries)
  end.

(** The body of [for (const file of files)] of the spells search. *)
Definition search_spell_file (allItems : list string)
    (itemData : PlainObject) (file : string * option string)
    : Completion PlainObject :=
  if negb (endsWith file.1 ".json") then Normal itemData
  else
    spellData ← read_record file.2;
    if decide (r_name spellData ∈ allItems)
    then Normal (assign_record itemData (r_name spellData)
                   (record_of spellData))
    else Normal itemData.

Definition search_spells (itemData : PlainObject) (spellsDir : Store)
    (allItems : list string) : Completion PlainObject :=
  match spellsDir with
  | None => Normal itemData
  | Some entries =>
      for_of (for_of (search_spell_file allItems)) itemData
        (subdirectories entries)
  end.

(** [Array.from(allItems).filter(name => !itemData[name])] *)
Definition missing_from (itemData : PlainObject) (names : list string)
    : list string :=
  filter (λ name, truthy_value (get itemData name) = false) names.

(** The two searches of the route, which fill [itemData]. *)
Definition route_search (disk : Disk) (names : list string)
    : Completion PlainObject :=
  itemData ← searchForItems empty_object (items_store disk) names;
  search_spells itemData (spells_store disk) names.

Definition POST (w : WriteBehaviour) (id : string) (disk : Disk)
    : Response * Disk :=
  match sessions disk with
  | None => (status_404 "Sessions directory not found", disk)
  | Some dirs =>
      match session_file disk id inventories_file with
      | None => (status_404 "Character inventories not found", disk)
      | Some inventoriesData =>
          let failed := status_500 "Failed to pre-compute items" in
          match JSON_parse_inventories inventoriesData with
          | None => (failed, disk)
          | Some inventories =>
              let names := allItems inventories in
              match route_search disk names with
              | Throw _ => (failed, disk)
              | Normal itemData =>
                  let dir := default ∅ (dirs !! id) in
                  let '(written, dir') :=
                    writeFileSync w dir precomputed_file
                      (JSON_stringify (own itemData)) in
                  let disk' := with_session_dir disk id dir' in
                  match written with
                  | Throw _ => (failed, disk')
                  | Normal _ =>
                      (status_200 (length (keys (own itemData)))
                         (length names)
                         (missing_from itemData names), disk')
                  end
              end
          end
      end
  end.

End Builders.

(** ** The runtime item cache (session page component) *)

(** The argument of a React state setter: a new state, or an updater of
    the state the component holds when the update is applied. *)
Inductive SetStateAction (S : Type) : Type :=
| NewState (s : S)
| Updater (f : S → S).
Arguments NewState {S} s.
Arguments Updater {S} f.

(** What the component holds: the [itemCache] state, and the names for
    which an [/api/items/<name>] request was issued, in order. *)
Record Page := {
  itemCache_state : gmap string Item;
  requests : list string
}.

Definition setItemCache (a : SetStateAction (gmap string Item)) (σ : Page)
    : Page :=
  {| itemCache_state :=
       match a with
       | NewState s => s
       | Updater f => f (itemCache_state σ)
       end;
     requests := requests σ |}.

Definition issue_request (itemName : string) (σ : Page) : Page :=
  {| itemCache_state := itemCache_state σ;
     requests := requests σ ++ [itemName] |}.

(** How the single-item lookup service answers a request: [fetch] rejects;
    the response is not [ok]; reading the body throws ([response.json()]
    rejects, or [data] is [null] and [data.item] throws); or the body
    parses and [data.item] is the record, which [fetchItem] returns as an
    [Item]. *)
Inductive Lookup :=
| fetch_rejects
| not_ok
| json_rejects
| found (item : Item).

(** The answers of the lookup service on which [fetchItem] resolves
    nothing. *)
Definition is_failure (l : Lookup) : Prop :=
  match l with
  | found _ => False
  | _ => True
  end.

(** [fetchItem]; [itemCache] is the cache as the render that created this
    closure saw it, [σ] what the component holds when it is called. *)
Definition fetchItem (service : string → Lookup)
    (itemCache : gmap string Item) (itemName : string) (σ : Page)
    : Completion (option Item) * Page :=
  match itemCache !! itemName with
  | Some cached => (Normal (Some cached), σ)
  | None =>
      let σ := issue_request itemName σ in
      let '(tried, σ) :=
        match service itemName with
        | fetch_rejects => (Throw TypeError, σ)
        | not_ok => (Normal None, σ)
        | json_rejects => (Throw SyntaxError, σ)
        | found item =>
            (Normal (Some item),
             setItemCache (Updater (λ prev, <[itemName := item]> prev)) σ)
        end in
      match tried with
      | Throw _ => (Normal None, σ)
      | Normal r => (Normal r, σ)
      end
  end.

(** The answer to the page's request for the precomputed items:
    [fetch(...).catch(() => null)]. *)
Inductive PrecomputedResponse :=
| no_response
| response (ok : bool) (itemsData : option (gmap string Item)).

(** "Process pre-computed items (if available)" in [fetchAllSessionData];
    [itemsData] is [None] when [json()] rejects, which the enclosing
    [catch] logs. *)
Definition process_precomputed (r : PrecomputedResponse) (σ : Page) : Page :=
  match r with
  | response true (Some itemsData) => setItemCache (NewState itemsData) σ
  | _ => σ
  end.

(** The seeding of the runtime cache with a session cache. *)
Definition seed (cache : gmap string Item) (σ : Page) : Page :=
  process_precomputed (response true (Some cache)) σ.

(** ** Concrete data used in the examples *)

Module Examples.

Definition short_sword : RawRecord :=
  {| r_id := "w1"; r_name := "Short Sword";
     r_attributeBlocks :=
       Some {[ "unalerted" := JObj ∅; "alerted" := JObj ∅ ]};
     r_parts := None |}.

Definition battle_armor : RawRecord :=
  {| r_id := "a1"; r_name := "Battle Armor";
     r_attributeBlocks :=
       Some {[ "intact" := JObj ∅; "damaged" := JObj ∅ ]};
     r_parts := None |}.

Definition fiery_blast : RawRecord :=
  {| r_id := "s1"; r_name := "Fiery Blast";
     r_attributeBlocks :=
       Some {[ "this" := JObj {[ "spell" := JStr "V" ]} ]};
     r_parts := None |}.

(** A record with the blocks of an armor and of a weapon at once. *)
Definition chimera : Item :=
  {| id := "x1"; name := "Chimera";
     attributeBlocks :=
       {[ "intact" := JObj ∅; "damaged" := JObj ∅;
          "unalerted" := JObj ∅; "alerted" := JObj ∅ ]};
     parts := [] |}.

(** Record files hold the name of the record they stand for. *)
Definition parse_record (content : string) : Parsed :=
  if String.eqb content "Short Sword" then parsed short_sword
  else if String.eqb content "Battle Armor" then parsed battle_armor
  else if String.eqb content "Fiery Blast" then parsed fiery_blast
  else if String.eqb content "null" then parsed_null
  else parse_throws.

Definition entry (n : string) : option Inv.entry :=
  Some {| Inv.name := Some n |}.

Definition amazon : Inv.charData :=
  {| Inv.items := Some
       {| Inv.weapons := Some [entry "Short Sword"];
          Inv.armor := Some [entry "Battle Armor"; None];
          Inv.treasures := Some [entry "Unknown Relic"];
          Inv.great_treasures := None;
          Inv.spells := Some [entry "Fiery Blast"; entry "Short Sword"];
          Inv.natives := Some [];
          Inv.other := Some [Some {| Inv.name := None |}];
          Inv.unknown := Some [entry ""] |} |}.

Definition inventories : Inv.t :=
  [("Amazon", Some amazon); ("Ghost", None);
   ("Bare", Some {| Inv.items := None |})].

Definition parse_inventories (content : string) : option Inv.t :=
  if String.eqb content "inventories" then Some inventories else None.

(** The serialisation lists the keys of the object, each on its line; a
    property whose value is a function or [undefined] is left out. *)
Definition stringify (o : Obj Value) : string :=
  String.concat (String (ascii_of_nat 10) "")
    (keys (filter (λ kv, serialised kv.2 = true) o)).

Definition disk : Disk :=
  {| items_store := Some
       [("weapon", Directory [("short_sword.json", Some "Short Sword");
                              ("README.md", Some "notes")]);
        ("armor", Directory [("battle_armor.json", Some "Battle Armor")]);
        ("index.txt", RegularFile)];
     spells_store := Some
       [("V", Directory [("fiery_blast.json", Some "Fiery Blast")])];
     sessions := Some
       {[ "game1" := {[ inventories_file := "inventories";
                        precomputed_file := "previous artifact" ]} ]} |}.

(** The catalog [loadAllItemData] builds from the stores of [disk]. *)
Definition catalog : gmap string Item :=
  {[ "Short Sword" := record_of short_sword;
     "Battle Armor" := record_of battle_armor;
     "Fiery Blast" := record_of fiery_blast ]}.

End Examples.

(** ** More of the session page component *)

(** [String.prototype.replace(pattern, '')] with a string pattern: the
    first occurrence of the pattern is dropped. *)
Fixpoint replace_first (s pattern : string) : string :=
  if String.prefix pattern s
  then String.substring (String.length pattern)
         (String.length s - String.length pattern) s
  else
    match s with
    | EmptyString => EmptyString
    | String c t => String c (replace_first t pattern)
    end.

(** [BLOCKED_ACTION_MAP], its keys in the order [for ... in] visits them. *)
Definition BLOCKED_ACTION_MAP : Obj string :=
  [("M-", "Move"); ("H", "Hide"); ("S", "Search"); ("T", "Trade");
   ("R", "Rest"); ("A", "Alert"); ("F", "Follow"); ("EX", "Enchant");
   ("E", "Enchant"); ("P", "Peer"); ("RE", "Remove Enchant");
   ("C", "Cache")].

(** The loop of [getBlockedActionType] over the entries that are left. *)
Fixpoint first_prefix (code : string) (entries : Obj string) : string :=
  match entries with
  | [] => "Action"
  | (prefix, action) :: entries' =>
      if String.prefix prefix code then action
      else first_prefix code entries'
  end.

(** [getBlockedActionType] *)
Definition getBlockedActionType (result : string) : string :=
  let code := replace_first result "Cannot perform action " in
  first_prefix code BLOCKED_ACTION_MAP.

(** [cat === 'label'] *)
Definition cat_is (cat : Category) (label : string) : bool :=
  String.eqb (category_label cat) label.

(** [item.name.toLowerCase().includes(word)] *)
Definition name_includes (itemName word : string) : bool :=
  includes (toLowerCase itemName) word.

(** The filter of [renderCharacterBox] that keeps the first entry of each
    name; the state is [seenNames]. *)
Fixpoint dedupe_by_name (seenNames : list string) (raw : list Inv.entry)
    : list string :=
  match raw with
  | [] => []
  | item :: raw' =>
      match Inv.name item with
      | None => dedupe_by_name seenNames raw'
      | Some n =>
          if String.eqb n "" then dedupe_by_name seenNames raw'
          else if decide (n ∈ seenNames) then dedupe_by_name seenNames raw'
          else n :: dedupe_by_name (set_add n seenNames) raw'
      end
  end.

(** [allItems] of [renderCharacterBox], by the names of the entries;
    [inventory] is [characterInventories?.[characterName]?.items]. *)
Definition box_items (inventory : option Inv.items_t) : list string :=
  let allInventoryArrays :=
    match inventory with
    | Some its => buckets its
    | None => [None; None; None; None; None; None; None; None]
    end in
  dedupe_by_name [] (filter_Boolean (flat allInventoryArrays)).

(** The lines of a character box. *)
Definition equipmentItems (itemCache : gmap string Item)
    (allItems : list string) : list string :=
  filter (λ n,
    let cat := getItemCategory itemCache n in
    cat_is cat "weapon" || cat_is cat "armor" || cat_is cat "mount" ||
    (cat_is cat "other" && negb (name_includes n "treasure") &&
     negb (name_includes n "spell")) = true) allItems.

Definition treasureItems (itemCache : gmap string Item)
    (allItems : list string) : list string :=
  filter (λ n,
    let cat := getItemCategory itemCache n in
    cat_is cat "treasure" && negb (name_includes n "great") &&
    negb (isLargeTreasure itemCache n) = true) allItems.

Definition largeTreasureItems (itemCache : gmap string Item)
    (allItems : list string) : list string :=
  filter (λ n, isLargeTreasure itemCache n = true) allItems.

Definition greatTreasureItems (itemCache : gmap string Item)
    (allItems : list string) : list string :=
  filter (λ n,
    cat_is (getItemCategory itemCache n) "great_treasure" ||
    (cat_is (getItemCategory itemCache n) "treasure" &&
     name_includes n "great") = true) allItems.

Definition spellItems (itemCache : gmap string Item)
    (allItems : list string) : list string :=
  filter (λ n, cat_is (getItemCategory itemCache n) "spell" = true) allItems.

(** [gtCount], [spellCount] and [learnedSpells]; [startingSpells] is
    [stats.startingSpells || 0]. *)
Definition gtCount (itemCache : gmap string Item) (allItems : list string)
    : nat :=
  length (filter (λ n,
    cat_is (getItemCategory itemCache n) "great_treasure" = true) allItems).

Definition spellCount (itemCache : gmap string Item)
    (allItems : list string) : nat :=
  length (filter (λ n,
    cat_is (getItemCategory itemCache n) "spell" = true) allItems).

Definition learnedSpells (itemCache : gmap string Item)
    (allItems : list string) (startingSpells : Z) : Z :=
  (Z.of_nat (spellCount itemCache allItems) - startingSpells)%Z.

(** [v.k], which throws a [TypeError] when [v] is [null] or
    [undefined]. *)
Definition get_property (v : Any) (k : string) : Completion Any :=
  if nullish v then Throw TypeError else Normal (opt_get v k).

(** [getChitColor(colorName)], as far as it can throw: [colorMap[colorName]]
    converts [colorName] to a property key; the color it returns is not
    modelled. *)
Definition getChitColor (colorName : Any) : Completion unit :=
  match colorName with
  | Some v => if toString_throws v then Throw TypeError else Normal ()
  | None => Normal ()
  end.

(** [renderArmorChit(item, side)], [renderWeaponChit(item, side)] and
    [renderTreasureChit(item)]: the property reads they make, in their
    order; the element they return is not modelled. *)
Definition renderArmorChit (item : Item) (side : string) : Completion unit :=
  let sideData := attributeBlocks item !! side in
  let thisData := attributeBlocks item !! "this" in
  chit_color ← get_property sideData "chit_color";
  _ ← getChitColor chit_color;
  _ ← get_property thisData "vulnerability";
  _ ← get_property thisData "weight";
  _ ← get_property sideData "base_price";
  Normal ().

Definition renderWeaponChit (item : Item) (side : string)
    : Completion unit :=
  let sideData := attributeBlocks item !! side in
  let thisData := attributeBlocks item !! "this" in
  chit_color ← get_property sideData "chit_color";
  _ ← getChitColor chit_color;
  _ ← get_property thisData "weight";
  _ ← get_property thisData "length";
  _ ← get_property sideData "attack_speed";
  _ ← get_property sideData "strength";
  _ ← get_property sideData "sharpness";
  Normal ().

Definition renderTreasureChit (item : Item) : Completion unit :=
  let thisData := attributeBlocks item !! "this" in
  chit_color ← get_property thisData "chit_color";
  _ ← getChitColor (if truthy chit_color then chit_color
                    else Some (JStr "white"));
  _ ← get_property thisData "base_price";
  Normal ().

(** The sections [renderEquipmentTooltip] shows for a cached item. *)
Record TooltipSections := {
  shows_spell : bool;
  shows_armor : bool;
  shows_weapon : bool;
  shows_treasure : bool
}.

(** [renderEquipmentTooltip]: [Normal None] when it returns [null],
    [Normal (Some _)] when it returns the tooltip, with the sections the
    tooltip has. *)
Definition renderEquipmentTooltip (itemCache : gmap string Item)
    (itemName : string) : Completion (option TooltipSections) :=
  match itemCache !! itemName with
  | None => Normal None
  | Some item =>
      let isArmor := isArmor (attributeBlocks item) in
      let isWeapon := isWeapon (attributeBlocks item) in
      let isSpell := isSpell (attributeBlocks item) in
      let isTreasure := negb isArmor && negb isWeapon && negb isSpell in
      let thisData := attributeBlocks item !! "this" in
      _ ← (if isSpell
           then _ ← get_property thisData "spell";
                _ ← get_property thisData "duration";
                _ ← get_property thisData "magic_color";
                _ ← get_property thisData "target";
                _ ← get_property thisData "text";
                Normal ()
           else Normal ());
      _ ← (if isArmor
           then _ ← renderArmorChit item "intact";
                renderArmorChit item "damaged"
           else Normal ());
      _ ← (if isWeapon
           then _ ← renderWeaponChit item "unalerted";
                renderWeaponChit item "alerted"
           else Normal ());
      _ ← (if isTreasure then renderTreasureChit item else Normal ());
      Normal (Some {| shows_spell := isSpell; shows_armor := isArmor;
                      shows_weapon := isWeapon;
                      shows_treasure := isTreasure |})
  end.

(** The batches of the prefetch:
    [for (let i = 0; i < itemArray.length; i += batchSize)] with
    [itemArray.slice(i, i + batchSize)]; [fuel] bounds the iterations. *)
Definition batchSize : nat := 5.

Definition slice {A} (arr : list A) (i j : nat) : list A :=
  take (j - i) (drop i arr).

Fixpoint batches_from (fuel i : nat) (itemArray : list string)
    : list (list string) :=
  match fuel with
  | 0 => []
  | S fuel' =>
      if (i <? length itemArray)%nat
      then slice itemArray i (i + batchSize)
           :: batches_from fuel' (i + batchSize) itemArray
      else []
  end.

(** The loop ends within [length itemArray] iterations. *)
Definition batches (itemArray : list string) : list (list string) :=
  batches_from (length itemArray) 0 itemArray.




(** The parts of [SessionData] that the functions below read. *)
Record Turn := { character : string; actions : list (string * string) }.

Record CombatRound := { deaths : list string }.

Record Combat := { rounds : list CombatRound }.

Record DayData := { characterTurns : list Turn; battles : list Combat }.

(** The text of [s] before the first occurrence of [pattern]. *)
Fixpoint before_first (s pattern : string) : option string :=
  if String.prefix pattern s then Some EmptyString
  else
    match s with
    | EmptyString => None
    | String c t => String c <$> before_first t pattern
    end.

(** The characters [.] does not match: LF, CR, U+2028 and U+2029 (the last
    two as they are encoded in the string). *)
Definition line_terminators : list string :=
  [String (ascii_of_nat 10) "";
   String (ascii_of_nat 13) "";
   String (ascii_of_nat 226) (String (ascii_of_nat 128)
     (String (ascii_of_nat 168) ""));
   String (ascii_of_nat 226) (String (ascii_of_nat 128)
     (String (ascii_of_nat 169) ""))].

Definition one_line (s : string) : bool :=
  forallb (λ t, negb (includes s t)) line_terminators.

(** [death.match(/^(.*?) was killed!/)], giving [match[1]]. *)
Definition killed_name (death : string) : option string :=
  match before_first death " was killed!" with
  | Some n => if one_line n then Some n else None
  | None => None
  end.

(** The loops that gather the dead characters; [sortedDayKeys] is the
    array the sort of the day keys has produced, [dead] the set. *)
Definition add_deaths (dead : list string) (round : CombatRound)
    : list string :=
  foldl (λ dead death,
           match killed_name death with
           | Some n => set_add n dead
           | None => dead
           end) dead (deaths round).

Definition add_day_deaths (days : gmap string DayData) (dead : list string)
    (dayKey : string) : list string :=
  match days !! dayKey with
  | Some day =>
      foldl (λ dead battle, foldl add_deaths dead (rounds battle))
        dead (battles day)
  | None => dead
  end.

Definition dead_characters (days : gmap string DayData)
    (sortedDayKeys : list string) : list string :=
  foldl (add_day_deaths days) [] sortedDayKeys.

(** [calculateStatistics] *)

Record Statistics := {
  totalCharacterTurns : nat;
  totalBattles : nat;
  totalActions : nat;
  uniqueCharacters : nat;
  players : nat
}.

(** The state of the two nested [forEach]: the three totals and the set. *)
Definition count_turn (acc : nat * list string) (turn : Turn)
    : nat * list string :=
  (acc.1 + length (actions turn),
   if includes (character turn) "HQ" then acc.2
   else set_add (character turn) acc.2).

Definition count_day (acc : nat * nat * (nat * list string))
    (dayData : DayData) : nat * nat * (nat * list string) :=
  let '(turns, fights, inner) := acc in
  (turns + length (characterTurns dayData),
   fights + length (battles dayData),
   foldl count_turn inner (characterTurns dayData)).

Definition calculateStatistics {P} (days : Obj DayData)
    (data_players : Obj P) : Statistics :=
  let '(turns, fights, (acts, uniqueCharacters)) :=
    foldl count_day (0, 0, (0, [])) (days.*2) in
  {| totalCharacterTurns := turns;
     totalBattles := fights;
     totalActions := acts;
     uniqueCharacters := length uniqueCharacters;
     players := length (keys data_players) |}.

(** ** The route that serves the artifact, and the script's [main] *)

(** The response of the [precomputed-items] route. *)
Inductive GetResponse :=
| get_404 (error : string)
| get_500 (error : string)
| get_200 (items : Obj Item).

(** What [main] ends with: [process.exit(1)], a rejection that
    [main().catch(console.error)] logs, or the results. *)
Inductive MainOutcome :=
| exited (code : nat)
| rejected (e : Exn)
| finished (results : list SessionResult).

(** The numbers of the summary. *)
Record Summary := {
  successful : nat;
  failed : nat;
  noInventories : nat;
  cached : nat;
  requested : nat
}.

Definition is_success (r : SessionResult) : bool :=
  match r with success _ _ _ _ => true | _ => false end.

Definition is_error (r : SessionResult) : bool :=
  match r with error _ _ => true | _ => false end.

Definition is_no_inventories (r : SessionResult) : bool :=
  match r with no_inventories _ => true | _ => false end.

Definition itemsFound_of (r : SessionResult) : nat :=
  match r with success _ itemsFound _ _ => itemsFound | _ => 0 end.

Definition totalItems_of (r : SessionResult) : nat :=
  match r with success _ _ totalItems _ => totalItems | _ => 0 end.

Definition summary (results : list SessionResult) : Summary :=
  let successful := filter (λ r, is_success r = true) results in
  {| successful := length successful;
     failed := length (filter (λ r, is_error r = true) results);
     noInventories :=
       length (filter (λ r, is_no_inventories r = true) results);
     cached := foldl (λ sum r, sum + itemsFound_of r) 0 successful;
     requested := foldl (λ sum r, sum + totalItems_of r) 0 successful |}.

Section Scripts.

Variable JSON_parse_record : string → Parsed.
Variable JSON_parse_inventories : string → option Inv.t.
Variable JSON_parse_items : string → option (Obj Item).
Variable JSON_stringify : Obj Value → string.

(** [GET] of the [precomputed-items] route; the parsed artifact has the
    type the page gives it. *)
Definition GET (id : string) (disk : Disk) : GetResponse :=
  match sessions disk with
  | None => get_404 "Sessions directory not found"
  | Some _ =>
      match session_file disk id precomputed_file with
      | None =>
          get_404 "Pre-computed items not found. Run precompute-items first."
      | Some itemData =>
          match JSON_parse_items itemData with
          | None => get_500 "Failed to load pre-computed items"
          | Some items => get_200 items
          end
      end
  end.

(** The loop of [main] over [sessionDirs]; [w] tells how the disk answers
    the write of each session. *)
Definition process_sessions (w : string → WriteBehaviour)
    (allItemData : gmap string Item) (sessionDirs : list string)
    (disk : Disk) : list SessionResult * Disk :=
  foldl (λ acc sessionId,
           let '(result, disk') :=
             processSession JSON_parse_inventories JSON_stringify
               (w sessionId) sessionId allItemData acc.2 in
           (acc.1 ++ [result], disk'))
    ([], disk) sessionDirs.

(** [main]; [listing] is what [fs.readdirSync(SESSIONS_DIR)] gives for the
    directories, in the order the file system lists them. *)
Definition main (w : string → WriteBehaviour) (listing : list string)
    (disk : Disk) : MainOutcome * Disk :=
  match sessions disk with
  | None => (exited 1, disk)
  | Some _ =>
      match loadAllItemData JSON_parse_record disk with
      | Throw e => (rejected e, disk)
      | Normal allItemData =>
          let sessionDirs :=
            filter (λ name, String.prefix "." name = false) listing in
          let '(results, disk') :=
            process_sessions w allItemData sessionDirs disk in
          (finished results, disk')
      end
  end.

End Scripts.

(** What the page's [fetch] of the [precomputed-items] route receives. *)
Definition precomputed_response (r : GetResponse) : PrecomputedResponse :=
  match r with
  | get_200 items => response true (Some (list_to_map items))
  | _ => response false None
  end.


(** A death that the days reached by the keys record for [n]. *)
Definition records_death (days : gmap string DayData) (dayKeys : list string)
    (n : string) : Prop :=
  ∃ dayKey day battle round death,
    dayKey ∈ dayKeys ∧ days !! dayKey = Some day ∧
    battle ∈ battles day ∧ round ∈ rounds battle ∧
    death ∈ deaths round ∧ killed_name death = Some n.

(** A [.json] file that can be read and parses to a value other than
    [null], and a list of files in which every [.json] file is one. *)
Definition is_record_file (parse : string → Parsed)
    (file : string * option string) : Prop :=
  endsWith file.1 ".json" = true →
  ∃ x, read_record parse file.2 = Normal x.

Definition all_record_files (parse : string → Parsed)
    (files : list (string * option string)) : Prop :=
  ∀ file, file ∈ files → is_record_file parse file.

(** Inventories that refer to the name [__proto__] beside an item of the
    stores. *)
Definition proto_inventories : Inv.t :=
  [("Amazon",
    Some {| Inv.items := Some
      {| Inv.weapons := Some [Examples.entry "Short Sword";
                              Examples.entry "__proto__"];
         Inv.armor := None; Inv.treasures := None;
         Inv.great_treasures := None; Inv.spells := None;
         Inv.natives := None; Inv.other := None;
         Inv.unknown := None |} |})].

Definition proto_parse_inventories (content : string) : option Inv.t :=
  if String.eqb content "inventories" then Some proto_inventories else None.

(** The artifact the script builds for the session of [Examples.disk], and
    a parser of artifacts that reads its serialisation back. *)
Definition example_artifact : Obj Value :=
  (find_matching_items Examples.catalog (allItems Examples.inventories)).1.

Definition example_parse_items (content : string) : option (Obj Item) :=
  if String.eqb content (Examples.stringify example_artifact)
  then Some (records example_artifact) else None.

(** A lookup service that knows one item, and a page that has resolved
    nothing yet. *)
Definition example_service (itemName : string) : Lookup :=
  if String.eqb itemName "Short Sword"
  then found (record_of Examples.short_sword) else not_ok.

Definition example_page : Page :=
  {| itemCache_state := ∅; requests := [] |}.

(** The name heuristic with the keywords that can decide. *)
Definition categorize_by_deciding_keywords (itemName : string) : Category :=
  let name := toLowerCase itemName in
  if includes name "bow" || includes name "sword" || includes name "axe" ||
     includes name "spear" || includes name "mace" || includes name "staff" ||
     includes name "halberd" || includes name "morning star"
  then Weapon
  else if includes name "armor" || includes name "shield" ||
          includes name "helmet" || includes name "breastplate" ||
          includes name "greaves" || includes name "gauntlets"
  then Armor
  else if includes name "peace with nature" || includes name "type v" ||
          includes name "type i"
  then Spell
  else if includes name "great" && includes name "treasure"
  then GreatTreasure
  else if includes name "treasure" || includes name "gold" ||
          includes name "jewel" || includes name "gem" ||
          includes name "coin"
  then Treasure
  else if includes name "native" || includes name "guard" ||
          includes name "mercenary" || includes name "lancer" ||
          includes name "dwarf" || includes name "elf"
  then Native
  else Other.

(** * Properties *)

(** ** Classification *)

Lemma has_block_truthy blocks k : has_block blocks k → truthy (blocks !! k) = true.
Proof. by intros [fields ->]. Qed.

(** C3. For a cached record the structural rules apply in a fixed order and
    the first that matches decides.  A record with both an [intact] and a
    [damaged] block passes the armor test, one with both an [unalerted] and
    an [alerted] block the weapon test.  A record that passes the armor
    test is an armor whatever else it holds (so also when it passes the
    weapon test); when the armor test fails, one that passes the weapon
    test is a weapon; when both fail, a truthy [this.spell] makes it a
    spell; when the three fail, a truthy [this.base_price] makes it a large
    treasure if [this.treasure] is ["large"] and a treasure otherwise; when
    all four fail the name heuristic decides. *)
Theorem getItemCategory_priority
    (itemCache : gmap string Item) (itemName : string) (cached : Item) :
  itemCache !! itemName = Some cached →
  let blocks := attributeBlocks cached in
  let category := getItemCategory itemCache itemName in
  (has_block blocks "intact" → has_block blocks "damaged" →
   isArmor blocks = true) ∧
  (has_block blocks "unalerted" → has_block blocks "alerted" →
   isWeapon blocks = true) ∧
  (isArmor blocks = true → category = Armor) ∧
  (isArmor blocks = false → isWeapon blocks = true → category = Weapon) ∧
  (isArmor blocks = false → isWeapon blocks = false →
   isSpell blocks = true → category = Spell) ∧
  (isArmor blocks = false → isWeapon blocks = false →
   isSpell blocks = false → has_base_price blocks = true →
   category =
     if strict_eq_str (opt_get (blocks !! "this") "treasure") "large"
     then LargeTreasure else Treasure) ∧
  (isArmor blocks = false → isWeapon blocks = false →
   isSpell blocks = false → has_base_price blocks = false →
   category = categorizeItemByName itemName).
Proof.
  intros Hcached blocks category.
  subst category. unfold getItemCategory. rewrite Hcached.
  fold blocks. fold (isArmor blocks) (isWeapon blocks).
  fold (isSpell blocks) (has_base_price blocks).
  split_and!.
  - intros Hi Hd. unfold isArmor.
    by rewrite (has_block_truthy _ _ Hi), (has_block_truthy _ _ Hd).
  - intros Hu Ha. unfold isWeapon.
    by rewrite (has_block_truthy _ _ Hu), (has_block_truthy _ _ Ha).
  - by intros ->.
  - by intros -> ->.
  - by intros -> -> ->.
  - by intros -> -> -> ->.
  - by intros -> -> -> ->.
Qed.

Lemma getItemCategory_priority_witness :
  getItemCategory {[ "Chimera" := Examples.chimera ]} "Chimera" = Armor ∧
  isWeapon (attributeBlocks Examples.chimera) = true.
Proof.
  destruct (getItemCategory_priority
              {[ "Chimera" := Examples.chimera ]} "Chimera" Examples.chimera)
    as (Hblocks & Hweapon & Harmor & _); [reflexivity |].
  split.
  - apply Harmor, Hblocks; eexists; reflexivity.
  - apply Hweapon; eexists; reflexivity.
Defined.

Lemma lower_ascii_idemp c : lower_ascii (lower_ascii c) = lower_ascii c.
Proof. by destruct c as [[] [] [] [] [] [] [] []]. Qed.

Lemma toLowerCase_idemp s : toLowerCase (toLowerCase s) = toLowerCase s.
Proof. induction s as [|c s IH]; simpl; [done |]. by rewrite lower_ascii_idemp, IH. Qed.

(** The heuristic reads the name through [toLowerCase] only. *)
Lemma categorizeItemByName_case_insensitive n :
  categorizeItemByName (toLowerCase n) = categorizeItemByName n.
Proof. unfold categorizeItemByName. by rewrite toLowerCase_idemp. Qed.

Lemma getItemCategory_absent (itemCache : gmap string Item) itemName :
  itemCache !! itemName = None →
  getItemCategory itemCache itemName = categorizeItemByName itemName.
Proof. intros H. unfold getItemCategory. by rewrite H. Qed.

(** A name with "great" and "treasure" is never a plain treasure, a native
    or other: only the weapon, armor and spell keywords come before the
    great-treasure test. *)
Lemma great_treasure_precedes n :
  includes (toLowerCase n) "great" = true →
  includes (toLowerCase n) "treasure" = true →
  categorizeItemByName n ∈ [Weapon; Armor; Spell; GreatTreasure].
Proof.
  unfold categorizeItemByName. intros Hgreat Htreasure.
  rewrite Hgreat, Htreasure. cbn [andb orb].
  repeat match goal with
         | |- context [if ?c then _ else _] => destruct c
         end;
    repeat first [apply list_elem_of_here | apply list_elem_of_further].
Qed.

(** The name heuristic never answers with a large treasure: that category
    comes from a record, whose [this.treasure] is then ["large"]. *)
Lemma LargeTreasure_isLargeTreasure (itemCache : gmap string Item) n :
  getItemCategory itemCache n = LargeTreasure →
  isLargeTreasure itemCache n = true.
Proof.
  assert (Hname : categorizeItemByName n ≠ LargeTreasure).
  { unfold categorizeItemByName.
    repeat match goal with
           | |- context [if ?c then _ else _] => destruct c
           end; discriminate. }
  unfold getItemCategory, isLargeTreasure.
  destruct (itemCache !! n) as [cached|]; [|done].
  repeat match goal with
         | |- context [if ?c then _ else _] => destruct c eqn:?
         end; done.
Qed.

(** C7. With no record for the name, the category is the one of the name
    heuristic: ["Broadsword"] is a weapon, ["Great Treasure of the Dwarves"]
    a great treasure (the test for "great" with "treasure" comes before
    the tests for a plain treasure and for a native, which is also what
    decides a name that does contain "dwarf"), and ["Mystery Box"] is
    other. *)
Theorem heuristic_fallback_examples (itemCache : gmap string Item) :
  (itemCache !! "Broadsword" = None →
   getItemCategory itemCache "Broadsword" = Weapon) ∧
  (itemCache !! "Great Treasure of the Dwarves" = None →
   getItemCategory itemCache "Great Treasure of the Dwarves"
   = GreatTreasure) ∧
  (itemCache !! "Mystery Box" = None →
   getItemCategory itemCache "Mystery Box" = Other) ∧
  categorizeItemByName "GREAT TREASURE OF THE DWARF KING" = GreatTreasure ∧
  category_label GreatTreasure = "great_treasure".
Proof.
  repeat split; try (intros H; by rewrite (getItemCategory_absent _ _ H)).
Qed.

Lemma heuristic_fallback_examples_witness :
  getItemCategory ∅ "Broadsword" = Weapon ∧
  getItemCategory ∅ "Great Treasure of the Dwarves" = GreatTreasure ∧
  getItemCategory ∅ "Mystery Box" = Other.
Proof.
  destruct (heuristic_fallback_examples ∅) as (Hw & Hg & Ho & _).
  split; [apply Hw; reflexivity |].
  split; [apply Hg; reflexivity | apply Ho; reflexivity].
Defined.

(** ** The runtime item cache *)

(** C4. For a name the cache holds, [fetchItem] returns the cached record,
    issues no request to the lookup service and leaves the component as it
    was. *)
Theorem fetchItem_cached
    (service : string → Lookup) (itemCache : gmap string Item)
    (itemName : string) (cached : Item) (σ : Page) :
  itemCache !! itemName = Some cached →
  fetchItem service itemCache itemName σ = (Normal (Some cached), σ) ∧
  requests (fetchItem service itemCache itemName σ).2 = requests σ.
Proof. intros H. unfold fetchItem. by rewrite H. Qed.

Lemma fetchItem_cached_witness :
  requests
    (fetchItem (λ _, fetch_rejects) {[ "Chimera" := Examples.chimera ]}
       "Chimera"
       {| itemCache_state := {[ "Chimera" := Examples.chimera ]};
          requests := [] |}).2 = [].
Proof.
  apply (fetchItem_cached (λ _, fetch_rejects)
           {[ "Chimera" := Examples.chimera ]} "Chimera" Examples.chimera).
  reflexivity.
Defined.

Lemma fetchItem_uncached
    (service : string → Lookup) (itemCache : gmap string Item)
    (itemName : string) (σ : Page) :
  itemCache !! itemName = None →
  fetchItem service itemCache itemName σ =
    match service itemName with
    | found item =>
        (Normal (Some item),
         {| itemCache_state := <[itemName := item]> (itemCache_state σ);
            requests := requests σ ++ [itemName] |})
    | _ => (Normal None, issue_request itemName σ)
    end.
Proof. intros H. unfold fetchItem. rewrite H. by destruct (service itemName). Qed.

(** C8. When the name is not cached and its lookup fails, [fetchItem]
    returns [null], has issued one request and leaves the cache state as it
    was: nothing is recorded for the name.  A later call for the same name,
    by the same closure or by the closure of the next render (whose cache
    is that state) when the state has no record for the name, issues the
    request again, and resolves the name if the service now finds it. *)
Theorem fetchItem_no_negative_cache
    (service : string → Lookup) (itemCache : gmap string Item)
    (itemName : string) (σ : Page) :
  itemCache !! itemName = None →
  is_failure (service itemName) →
  let first := fetchItem service itemCache itemName σ in
  first.1 = Normal None ∧
  itemCache_state first.2 = itemCache_state σ ∧
  requests first.2 = requests σ ++ [itemName] ∧
  ∀ (service' : string → Lookup) (itemCache' : gmap string Item),
    itemCache' = itemCache ∨
    (itemCache' = itemCache_state first.2 ∧
     itemCache_state σ !! itemName = None) →
    let later := fetchItem service' itemCache' itemName first.2 in
    requests later.2 = requests σ ++ [itemName; itemName] ∧
    ∀ item, service' itemName = found item →
      later.1 = Normal (Some item) ∧
      itemCache_state later.2 !! itemName = Some item.
Proof.
  intros Hmiss Hfail first.
  assert (Hfirst : first = (Normal None, issue_request itemName σ)).
  { subst first. rewrite fetchItem_uncached by done.
    by destruct (service itemName). }
  rewrite Hfirst. cbn [fst snd].
  split_and!; [done | done | done |].
  intros service' itemCache' Hclosure.
  assert (Hmiss' : itemCache' !! itemName = None).
  { destruct Hclosure as [->|[-> ?]]; done. }
  rewrite fetchItem_uncached by done. split.
  - destruct (service' itemName); simpl; by rewrite <- app_assoc.
  - intros item ->. simpl. split; [done | apply lookup_insert_eq].
Qed.

Lemma fetchItem_no_negative_cache_witness :
  requests
    (fetchItem (λ _, not_ok) ∅ "Unknown Relic"
       (fetchItem (λ _, not_ok) ∅ "Unknown Relic"
          {| itemCache_state := ∅; requests := [] |}).2).2
  = ["Unknown Relic"; "Unknown Relic"].
Proof.
  destruct (fetchItem_no_negative_cache (λ _, not_ok) ∅ "Unknown Relic"
              {| itemCache_state := ∅; requests := [] |})
    as (_ & _ & _ & Hlater); [reflexivity | exact I |].
  exact (proj1 (Hlater (λ _, not_ok) ∅ (or_introl eq_refl))).
Defined.

(** C10. [fetchItem] completes normally for every name, cache and answer of
    the lookup service: no exception reaches the caller; and when the name
    is not cached, each failure (a response that is not [ok], a rejected
    [fetch], a body that does not parse) gives [null]. *)
Theorem fetchItem_total
    (service : string → Lookup) (itemCache : gmap string Item)
    (itemName : string) (σ : Page) :
  ∃ r : option Item,
    (fetchItem service itemCache itemName σ).1 = Normal r ∧
    (itemCache !! itemName = None → is_failure (service itemName) →
     r = None).
Proof.
  destruct (itemCache !! itemName) as [cached|] eqn:Hc.
  - exists (Some cached). unfold fetchItem. rewrite Hc. by split.
  - rewrite fetchItem_uncached by done.
    destruct (service itemName) as [| | |item]; simpl.
    1-3: by exists None.
    exists (Some item). split; [done |]. by intros _ [].
Qed.

Lemma fetchItem_total_witness :
  (fetchItem (λ _, json_rejects) ∅ "Unknown Relic"
     {| itemCache_state := ∅; requests := [] |}).1 = Normal None.
Proof.
  destruct (fetchItem_total (λ _, json_rejects) ∅ "Unknown Relic"
              {| itemCache_state := ∅; requests := [] |})
    as (r & Hr & Hnull).
  rewrite Hr. f_equal. apply Hnull; [reflexivity | exact I].
Defined.

(** Seeding installs the session cache as the new state. *)
Lemma seed_replaces (cache : gmap string Item) (σ : Page) :
  itemCache_state (seed cache σ) = cache.
Proof. reflexivity. Qed.

(** C9, as the specification states it, fails: an entry of the runtime map
    under a key the session cache lacks does not survive the seeding. *)
Lemma seed_not_a_merge :
  ¬ ∀ (cache : gmap string Item) (σ : Page) (k : string) (v : Item),
      itemCache_state σ !! k = Some v → cache !! k = None →
      itemCache_state (seed cache σ) !! k = Some v.
Proof.
  intros Hmerge.
  specialize (Hmerge ∅
    {| itemCache_state := {[ "Chimera" := Examples.chimera ]};
       requests := ["Chimera"] |}
    "Chimera" Examples.chimera eq_refl eq_refl).
  discriminate Hmerge.
Qed.

(** C9, amended. Seeding replaces the runtime map by the session cache:
    afterwards the map holds every entry of the session cache, holds
    nothing under a key the session cache lacks, and the requests issued so
    far are as they were. *)
Theorem seed_installs_cache (cache : gmap string Item) (σ : Page) :
  (∀ k v, cache !! k = Some v → itemCache_state (seed cache σ) !! k = Some v) ∧
  (∀ k, cache !! k = None → itemCache_state (seed cache σ) !! k = None) ∧
  requests (seed cache σ) = requests σ.
Proof. rewrite seed_replaces. by repeat split. Qed.

(** ** Objects and sets *)

Section ObjectFacts.

Context {V : Type}.
Implicit Types (o : Obj V) (k : string) (v : V).

Lemma obj_get_set o k v k' :
  obj_get (obj_set o k v) k' = if decide (k = k') then Some v else obj_get o k'.
Proof.
  induction o as [|[k0 v0] o IH]; simpl.
  - by repeat case_decide.
  - destruct (decide (k0 = k)) as [->|Hne]; simpl.
    + by repeat case_decide.
    + rewrite IH. repeat case_decide; congruence.
Qed.

Lemma obj_get_None o k : obj_get o k = None ↔ k ∉ keys o.
Proof.
  unfold keys. induction o as [|[k0 v0] o IH]; simpl.
  - split; [intros _; apply not_elem_of_nil | done].
  - rewrite not_elem_of_cons. destruct (decide (k0 = k)) as [->|Hne].
    + split; [done | by intros [? _]].
    + rewrite IH. split; [by intros ? | by intros [_ ?]].
Qed.

Lemma obj_get_is_Some o k : is_Some (obj_get o k) ↔ k ∈ keys o.
Proof.
  rewrite <- not_eq_None_Some, obj_get_None.
  destruct (decide (k ∈ keys o)); tauto.
Qed.

Lemma keys_obj_set_fresh o k v :
  k ∉ keys o → keys (obj_set o k v) = keys o ++ [k].
Proof.
  unfold keys. induction o as [|[k0 v0] o IH]; simpl; [done |].
  rewrite not_elem_of_cons. intros [Hne Hnin].
  destruct (decide (k0 = k)) as [->|_]; [done |].
  simpl. f_equal. by apply IH.
Qed.

Lemma keys_obj_set_present o k v : k ∈ keys o → keys (obj_set o k v) = keys o.
Proof.
  unfold keys. induction o as [|[k0 v0] o IH]; simpl.
  - by intros ?%elem_of_nil.
  - intros Hin. destruct (decide (k0 = k)) as [->|Hne]; [done |].
    simpl. f_equal. apply IH.
    apply elem_of_cons in Hin as [->|]; done.
Qed.

End ObjectFacts.

Lemma elem_of_set_add x y (s : list string) : x ∈ set_add y s ↔ x = y ∨ x ∈ s.
Proof.
  unfold set_add. destruct (decide (y ∈ s)) as [Hin|Hnin].
  - split; [by right | by intros [->|?]].
  - rewrite elem_of_app, list_elem_of_singleton. tauto.
Qed.

Lemma NoDup_set_add y (s : list string) : NoDup s → NoDup (set_add y s).
Proof.
  unfold set_add. case_decide; [done |]. intros Hs.
  apply NoDup_app. split_and!; [done | | apply NoDup_singleton].
  intros x Hx ->%list_elem_of_singleton. done.
Qed.

(** A loop whose body hands the state on as it got it leaves it as it
    was. *)
Lemma for_of_unchanged {A S} (body : S → A → Completion S) :
  (∀ s x s', body s x = Normal s' → s' = s) →
  ∀ s xs s', for_of body s xs = Normal s' → s' = s.
Proof.
  intros Hbody s xs. revert s.
  induction xs as [|x xs IH]; simpl; intros s s'.
  - congruence.
  - destruct (body s x) as [s1|e] eqn:Hs1; simpl; [|done].
    apply Hbody in Hs1 as ->. apply IH.
Qed.

Lemma for_of_app {A S} (body : S → A → Completion S) s xs ys :
  for_of body s (xs ++ ys) = s' ← for_of body s xs; for_of body s' ys.
Proof.
  revert s. induction xs as [|x xs IH]; simpl; intros s; [done |].
  destruct (body s x) as [s1|e]; simpl; [apply IH | done].
Qed.

(** Nested loops run the body over the files of all directories in turn. *)
Lemma for_of_concat {A S} (body : S → A → Completion S) s xss :
  for_of (for_of body) s xss = for_of body s (concat xss).
Proof.
  revert s. induction xss as [|xs xss IH]; simpl; intros s; [done |].
  rewrite for_of_app.
  destruct (for_of body s xs) as [s1|e]; simpl; [apply IH | done].
Qed.

(** ** The names a session refers to *)

Lemma NoDup_add_item s item : NoDup s → NoDup (add_item s item).
Proof.
  unfold add_item. destruct (Inv.name item) as [n|]; [|done].
  destruct (String.eqb n ""); [done | apply NoDup_set_add].
Qed.

Lemma NoDup_add_character s c : NoDup s → NoDup (add_character s c).
Proof.
  unfold add_character. destruct c as [[[its|]]|]; try done.
  generalize (filter_Boolean
    (flat [Inv.weapons its; Inv.armor its; Inv.treasures its;
           Inv.great_treasures its; Inv.spells its; Inv.natives its;
           Inv.other its; Inv.unknown its])).
  intros l. revert s. induction l as [|x l IH]; simpl; [done |].
  intros s Hs. by apply IH, NoDup_add_item.
Qed.

Lemma elem_of_filter_Boolean_flat (bs : list Inv.bucket) (e : Inv.entry) :
  e ∈ filter_Boolean (flat bs) ↔ ∃ xs, Some xs ∈ bs ∧ Some e ∈ xs.
Proof.
  unfold filter_Boolean, flat. rewrite list_elem_of_omap. split.
  - intros (oe & Hin & ->). apply list_elem_of_bind in Hin as (b & Hoe & Hb).
    destruct b as [xs|].
    + by exists xs.
    + by apply list_elem_of_singleton in Hoe.
  - intros (xs & Hxs & He). exists (Some e). split; [|done].
    apply list_elem_of_bind. by exists (Some xs).
Qed.

Lemma elem_of_foldl_add_item (l : list Inv.entry) (s : list string) n :
  n ∈ foldl add_item s l ↔
  n ∈ s ∨ (n ≠ "" ∧ ∃ e, e ∈ l ∧ Inv.name e = Some n).
Proof.
  revert s. induction l as [|e l IH]; simpl; intros s.
  - split; [by left | intros [?|(_ & e & []%elem_of_nil & _)]; done].
  - rewrite IH. unfold add_item at 1.
    assert (Hcons : ∀ P : Inv.entry → Prop,
              (∃ e', e' ∈ e :: l ∧ P e') ↔ P e ∨ ∃ e', e' ∈ l ∧ P e').
    { intros P. split.
      - intros (e' & [->|?]%elem_of_cons & ?); [by left | right; by eauto].
      - intros [?|(e' & ? & ?)]; [exists e | exists e'];
          (split; [|done]); [by left | by right]. }
    rewrite Hcons. destruct e as [[m|]]; simpl.
    + destruct (String.eqb_spec m "") as [->|Hm].
      * split; [tauto |]. intros [?|[? [[=]|?]]]; [tauto | congruence | tauto].
      * rewrite elem_of_set_add. split.
        -- intros [[->|?]|?]; [right | tauto | tauto].
           split; [done | by left].
        -- intros [?|[? [[= ->]|?]]]; tauto.
    + split; [tauto |]. intros [?|[? [[=]|?]]]; tauto.
Qed.

Lemma elem_of_add_character s c n :
  n ∈ add_character s c ↔
  n ∈ s ∨
  (n ≠ "" ∧ ∃ its xs, c = Some {| Inv.items := Some its |} ∧
                       Some xs ∈ buckets its ∧
                       Some {| Inv.name := Some n |} ∈ xs).
Proof.
  unfold add_character. destruct c as [[[its|]]|].
  - fold (buckets its). rewrite elem_of_foldl_add_item. split.
    + intros [?|(Hn & e & (xs & ? & ?)%elem_of_filter_Boolean_flat & He)];
        [by left |].
      right. split; [done |]. exists its, xs. split_and!; [done | done |].
      destruct e as [m]. simpl in He. by subst m.
    + intros [?|(Hn & its' & xs & [= <-] & ? & ?)]; [by left |].
      right. split; [done |]. exists {| Inv.name := Some n |}.
      split; [|done]. apply elem_of_filter_Boolean_flat. by exists xs.
  - split; [by left | intros [?|(_ & ? & ? & [=] & _)]; done].
  - split; [by left | intros [?|(_ & ? & ? & [=] & _)]; done].
Qed.

(** [allItems] holds exactly the names the inventories refer to. *)
Lemma elem_of_allItems inventories n :
  n ∈ allItems inventories ↔ referenced inventories n.
Proof.
  unfold allItems, referenced.
  assert (Hgen : ∀ (l : list (option Inv.charData)) s,
    n ∈ foldl add_character s l ↔
    n ∈ s ∨ (n ≠ "" ∧ ∃ its xs,
               Some {| Inv.items := Some its |} ∈ l ∧
               Some xs ∈ buckets its ∧
               Some {| Inv.name := Some n |} ∈ xs)).
  { induction l as [|c l IH]; simpl; intros s.
    - split; [by left | intros [?|(_ & ? & ? & []%elem_of_nil & _)]; done].
    - rewrite IH, elem_of_add_character. split.
      + intros [[?|(? & its & xs & -> & ? & ?)]|(? & its & xs & ? & ? & ?)].
        * by left.
        * right. split; [done |]. exists its, xs.
          split_and!; [by left | done..].
        * right. split; [done |]. exists its, xs.
          split_and!; [by right | done..].
      + intros [?|(? & its & xs & [<-|?]%elem_of_cons & ? & ?)].
        * left. by left.
        * left. right. split; [done |]. by exists its, xs.
        * right. split; [done |]. by exists its, xs. }
  rewrite Hgen. split.
  - intros [[]%elem_of_nil|(Hn & its & xs & Hc & ? & ?)].
    split; [done |].
    apply list_elem_of_fmap in Hc as ([character c] & Hc & ?).
    simpl in Hc. subst c. by exists character, its, xs.
  - intros (Hn & character & its & xs & Hc & ? & ?). right.
    split; [done |]. exists its, xs. split_and!; [| done..].
    apply list_elem_of_fmap. by exists (character, Some {| Inv.items := Some its |}).
Qed.

(** [allItems] is a set: no name occurs twice. *)
Lemma NoDup_allItems inventories : NoDup (allItems inventories).
Proof.
  unfold allItems. generalize (inventories.*2). intros l.
  assert (H : NoDup (@nil string)) by constructor.
  revert H. generalize (@nil string).
  induction l as [|c l IH]; simpl; [done |].
  intros s Hs. by apply IH, NoDup_add_character.
Qed.

(** ** The session cache builders *)

Lemma find_matching_items_snoc allItemData names n :
  find_matching_items allItemData (names ++ [n]) =
  match_item allItemData (find_matching_items allItemData names) n.
Proof. unfold find_matching_items. by rewrite foldl_app. Qed.

(** [__proto__] reads as an object on every catalog, and a name that reads
    as [undefined] or as an empty string is not [__proto__]. *)
Lemma catalog_get_proto allItemData :
  truthy_value (catalog_get allItemData "__proto__") = true.
Proof.
  unfold catalog_get. by destruct (allItemData !! "__proto__").
Qed.

Lemma obj_get_own_after_assign o k v k' :
  obj_get (own_after_assign o k v) k' =
  if decide (k = k' ∧ k ≠ "__proto__") then Some v else obj_get o k'.
Proof.
  unfold own_after_assign.
  destruct (String.eqb_spec k "__proto__") as [->|Hk].
  - rewrite decide_False; [done | tauto].
  - rewrite obj_get_set. destruct (decide (k = k')) as [->|Hne].
    + by rewrite decide_True.
    + rewrite decide_False; [done | tauto].
Qed.

(** What the matching loop leaves in [sessionItems] and [missingItems]:
    a referenced name other than [__proto__] is a key when the catalog
    reads as a truthy value under it, and is missing otherwise;
    [__proto__] is neither. *)
Lemma find_matching_items_spec allItemData names :
  let found := find_matching_items allItemData names in
  (∀ n, obj_get found.1 n =
        if decide (n ∈ names ∧ n ≠ "__proto__" ∧
                   truthy_value (catalog_get allItemData n) = true)
        then Some (catalog_get allItemData n) else None) ∧
  (∀ n, n ∈ found.2 ↔
        n ∈ names ∧ truthy_value (catalog_get allItemData n) = false) ∧
  (NoDup names →
   NoDup (keys found.1) ∧ NoDup found.2 ∧
   length (keys found.1) + length found.2
     = length (filter (λ n, n ≠ "__proto__") names)).
Proof.
  induction names as [|x names IH] using rev_ind.
  - split_and!.
    + intros n. rewrite decide_False; [done |].
      by intros [?%elem_of_nil _].
    + intros n. split; [by intros ?%elem_of_nil | by intros [?%elem_of_nil _]].
    + intros _. split_and!; [constructor | constructor | done].
  - rewrite find_matching_items_snoc.
    destruct (find_matching_items allItemData names) as [o m].
    cbn [fst snd] in IH. destruct IH as (Hget & Hmiss & Hcount).
    assert (Hin_snoc : ∀ n, n ∈ names ++ [x] ↔ n ∈ names ∨ n = x).
    { intros n. by rewrite elem_of_app, list_elem_of_singleton. }
    unfold match_item. cbn [fst snd].
    destruct (truthy_value (catalog_get allItemData x)) eqn:Hx;
      cbn [fst snd].
    + split_and!.
      * intros n. rewrite obj_get_own_after_assign, Hget.
        destruct (decide (x = n ∧ x ≠ "__proto__")) as [[-> Hp]|Hne].
        -- rewrite decide_True; [done |].
           split_and!; [apply Hin_snoc; by right | done | done].
        -- destruct (decide (n ∈ names ∧ n ≠ "__proto__" ∧
                     truthy_value (catalog_get allItemData n) = true))
             as [(Hin & Hp & Ht)|Hnot].
           ++ rewrite decide_True; [done |].
              split_and!; [apply Hin_snoc; by left | done | done].
           ++ rewrite decide_False; [done |].
              rewrite Hin_snoc. intros ([?| ->] & ? & ?); tauto.
      * intros n. rewrite Hmiss, Hin_snoc.
        split; [tauto |]. intros [[?| ->] Hn]; [done | congruence].
      * intros [Hnames [Hx_fresh _]]%NoDup_app.
        destruct (Hcount Hnames) as (Hko & Hm & Hlen).
        rewrite filter_app, length_app, filter_cons, filter_nil.
        unfold own_after_assign.
        destruct (String.eqb_spec x "__proto__") as [->|Hp].
        -- rewrite decide_False by tauto. simpl.
           split_and!; [done | done | lia].
        -- rewrite decide_True by done.
           assert (Hxo : x ∉ keys o).
           { apply obj_get_None. rewrite Hget.
             rewrite decide_False; [done |].
             intros (Hin & _). apply (Hx_fresh x Hin). by left. }
           rewrite keys_obj_set_fresh by done.
           split_and!; [| done |].
           ++ apply NoDup_app. split_and!; [done | | apply NoDup_singleton].
              by intros y Hy ->%list_elem_of_singleton.
           ++ rewrite !length_app. simpl. lia.
    + assert (Hp : x ≠ "__proto__").
      { intros ->. by rewrite catalog_get_proto in Hx. }
      split_and!.
      * intros n. rewrite Hget.
        destruct (decide (n ∈ names ∧ n ≠ "__proto__" ∧
                  truthy_value (catalog_get allItemData n) = true))
          as [(Hin & Hnp & Ht)|Hnot].
        -- rewrite decide_True; [done |].
           split_and!; [apply Hin_snoc; by left | done | done].
        -- rewrite decide_False; [done |].
           rewrite Hin_snoc. intros ([?| ->] & ? & ?); [tauto | congruence].
      * intros n. rewrite elem_of_app, Hmiss, Hin_snoc, list_elem_of_singleton.
        split; [intros [[? ?]| ->]; tauto | tauto].
      * intros [Hnames [Hx_fresh _]]%NoDup_app.
        destruct (Hcount Hnames) as (Hko & Hm & Hlen).
        rewrite filter_app, length_app, filter_cons, filter_nil.
        rewrite decide_True by done.
        split_and!; [done | |].
        -- apply NoDup_app. split_and!; [done | | apply NoDup_singleton].
           intros y Hy Hyx%list_elem_of_singleton. subst y.
           apply Hmiss in Hy as [Hy _]. apply (Hx_fresh x Hy). by left.
        -- rewrite !length_app. simpl. lia.
Qed.

(** The keys and the missing names split the referenced names other than
    [__proto__], and a referenced [__proto__] is in neither. *)
Lemma find_matching_items_partition allItemData names :
  NoDup names →
  let found := find_matching_items allItemData names in
  (∀ n, n ∈ keys found.1 ∨ n ∈ found.2 ↔ n ∈ names ∧ n ≠ "__proto__") ∧
  (∀ n, ¬ (n ∈ keys found.1 ∧ n ∈ found.2)) ∧
  NoDup (keys found.1) ∧ NoDup found.2 ∧
  length (keys found.1) + length found.2
    = length (filter (λ n, n ≠ "__proto__") names) ∧
  (length (keys found.1) + length found.2 ≤ length names)%nat.
Proof.
  intros Hnd found. subst found.
  destruct (find_matching_items_spec allItemData names)
    as (Hget & Hmiss & Hcount).
  destruct (Hcount Hnd) as (Hko & Hm & Hlen).
  assert (Hkeys : ∀ n,
    n ∈ keys (find_matching_items allItemData names).1 ↔
    n ∈ names ∧ n ≠ "__proto__" ∧
    truthy_value (catalog_get allItemData n) = true).
  { intros n. rewrite <- obj_get_is_Some, Hget.
    destruct (decide (n ∈ names ∧ n ≠ "__proto__" ∧
              truthy_value (catalog_get allItemData n) = true));
      [split; [done | by eauto] |].
    split; [by intros [? ?] | tauto]. }
  split_and!; [| | done | done | done |].
  - intros n. rewrite Hkeys, Hmiss. split.
    + intros [(? & ? & ?)|[? Hf]]; [done |]. split; [done |].
      intros ->. by rewrite catalog_get_proto in Hf.
    + intros [? ?].
      destruct (truthy_value (catalog_get allItemData n)) eqn:Ht;
        [left | right]; done.
  - intros n. rewrite Hkeys, Hmiss. intros [(_ & _ & Ht) [_ Hf]].
    congruence.
  - rewrite Hlen. apply length_filter.
Qed.

Lemma session_file_Some disk sessionId file content :
  session_file disk sessionId file = Some content ↔
  ∃ dirs dir, sessions disk = Some dirs ∧ dirs !! sessionId = Some dir ∧
              dir !! file = Some content.
Proof.
  unfold session_file. split.
  - destruct (sessions disk) as [dirs|]; simpl; [|done].
    destruct (dirs !! sessionId) as [dir|] eqn:Hdir; simpl; [|done].
    intros Hfile. by exists dirs, dir.
  - intros (dirs & dir & -> & Hdir & Hfile). simpl. by rewrite Hdir.
Qed.

Lemma session_file_with_session_dir disk sessionId dir sessionId' file :
  is_Some (sessions disk) →
  session_file (with_session_dir disk sessionId dir) sessionId' file =
  if decide (sessionId = sessionId') then dir !! file
  else session_file disk sessionId' file.
Proof.
  intros [dirs Hdirs]. unfold session_file, with_session_dir. simpl.
  rewrite Hdirs. simpl. rewrite lookup_insert. by case_decide.
Qed.

Lemma files_differ : precomputed_file ≠ inventories_file.
Proof. discriminate. Qed.

(** The write of the artifact into the directory of a session. *)
Lemma writeFileSync_in_place w disk sessionId dirs dir data :
  sessions disk = Some dirs → dirs !! sessionId = Some dir →
  let out := writeFileSync w dir precomputed_file data in
  let disk' := with_session_dir disk sessionId out.2 in
  same_elsewhere disk disk' sessionId ∧
  written_in_place w (session_file disk sessionId precomputed_file)
    (session_file disk' sessionId precomputed_file) data ∧
  out.1 = match w with Succeeds => Normal () | _ => Throw IOError end.
Proof.
  intros Hdirs Hdir out disk'.
  assert (Hsome : is_Some (sessions disk)) by (by rewrite Hdirs).
  assert (Hfile : ∀ file, session_file disk sessionId file = dir !! file).
  { intros file. unfold session_file. rewrite Hdirs. simpl. by rewrite Hdir. }
  split_and!.
  - split_and!; [done | done |].
    intros sessionId' file Hother. subst disk'.
    rewrite session_file_with_session_dir by done.
    destruct (decide (sessionId = sessionId')) as [<-|]; [|done].
    destruct Hother as [?|Hne]; [done |].
    rewrite Hfile. subst out.
    destruct w; simpl; [| done |]; by rewrite lookup_insert_ne.
  - subst disk'. rewrite session_file_with_session_dir by done.
    rewrite decide_True by done. subst out.
    destruct w; simpl; [apply lookup_insert_eq | by rewrite Hfile |
                        apply lookup_insert_eq].
  - subst out. by destruct w.
Qed.

Section BuilderFacts.

Variable JSON_parse_inventories : string → option Inv.t.
Variable JSON_stringify : Obj Value → string.

Local Abbreviation processSession' :=
  (processSession JSON_parse_inventories JSON_stringify).

(** [processSession] on a session whose inventories file exists and
    parses: the result and the disk are those of the write. *)
Lemma processSession_write w sessionId allItemData disk dirs dir data inv :
  sessions disk = Some dirs → dirs !! sessionId = Some dir →
  dir !! inventories_file = Some data →
  JSON_parse_inventories data = Some inv →
  let found := find_matching_items allItemData (allItems inv) in
  let out :=
    writeFileSync w dir precomputed_file (JSON_stringify found.1) in
  processSession' w sessionId allItemData disk =
    (match out.1 with
     | Throw e => error sessionId e
     | Normal _ =>
         success sessionId (length (keys found.1)) (length (allItems inv))
           (length found.2)
     end,
     with_session_dir disk sessionId out.2).
Proof.
  intros Hdirs Hdir Hdata Hparse found out.
  unfold processSession.
  rewrite (proj2 (session_file_Some disk sessionId inventories_file data))
    by (by exists dirs, dir).
  rewrite Hparse, Hdirs. simpl. rewrite Hdir. simpl.
  subst out found.
  destruct (find_matching_items allItemData (allItems inv)) as [o m].
  simpl. by destruct w.
Qed.

(** A second build by the script, on the disk the first one left, returns
    the same result and leaves the same disk. *)
Lemma processSession_rerun sessionId allItemData disk :
  let first := processSession' Succeeds sessionId allItemData disk in
  processSession' Succeeds sessionId allItemData first.2 = first ∧
  session_file
    (processSession' Succeeds sessionId allItemData first.2).2
    sessionId precomputed_file
  = session_file first.2 sessionId precomputed_file.
Proof.
  intros first.
  assert (Hsame : processSession' Succeeds sessionId allItemData first.2
                  = first);
    [| by rewrite Hsame].
  subst first.
  destruct (session_file disk sessionId inventories_file) as [data|] eqn:Hfile.
  2: { unfold processSession at 2. rewrite Hfile. simpl.
       unfold processSession. by rewrite Hfile. }
  destruct (JSON_parse_inventories data) as [inv|] eqn:Hparse.
  2: { unfold processSession at 2. rewrite Hfile, Hparse. simpl.
       unfold processSession. by rewrite Hfile, Hparse. }
  apply session_file_Some in Hfile as (dirs & dir & Hdirs & Hdir & Hdata).
  rewrite (processSession_write Succeeds _ allItemData _ _ _ _ _
             Hdirs Hdir Hdata Hparse).
  simpl.
  set (art := JSON_stringify
                (find_matching_items allItemData (allItems inv)).1).
  set (dir' := <[precomputed_file := art]> dir).
  rewrite (processSession_write Succeeds sessionId allItemData
             (with_session_dir disk sessionId dir')
             (<[sessionId := dir']> dirs) dir' data inv).
  - simpl. fold art. f_equal.
    unfold with_session_dir. simpl. rewrite Hdirs. simpl.
    subst dir'. by rewrite !insert_insert_eq.
  - unfold with_session_dir. simpl. by rewrite Hdirs.
  - apply lookup_insert_eq.
  - subst dir'. rewrite lookup_insert_ne by apply files_differ. done.
  - done.
Qed.

End BuilderFacts.

Section RouteFacts.

Variable JSON_parse_record : string → Parsed.
Variable JSON_parse_inventories : string → option Inv.t.
Variable JSON_stringify : Obj Value → string.

Local Set Default Proof Using "Type".

(** *** The catalog of the script *)

Lemma load_store_files acc store :
  load_store JSON_parse_record acc store =
  for_of (load_file JSON_parse_record) acc (record_files store).
Proof. destruct store; simpl; [apply for_of_concat | done]. Qed.

(** One record file: skipped, or parsed and stored under its name. *)
Lemma load_file_Normal acc file acc' :
  load_file JSON_parse_record acc file = Normal acc' →
  (endsWith file.1 ".json" = false ∧ acc' = acc) ∨
  ∃ x, endsWith file.1 ".json" = true ∧
       read_record JSON_parse_record file.2 = Normal x ∧
       acc' = <[r_name x := record_of x]> acc.
Proof.
  unfold load_file. destruct (endsWith file.1 ".json"); simpl.
  - destruct (read_record JSON_parse_record file.2) as [x|]; [|done].
    intros [= <-]. right. by exists x.
  - intros [= <-]. by left.
Qed.

Lemma holds_record_cons file files x :
  holds_record JSON_parse_record (file :: files) x ↔
  (endsWith file.1 ".json" = true ∧
   read_record JSON_parse_record file.2 = Normal x) ∨
  holds_record JSON_parse_record files x.
Proof.
  unfold holds_record. split.
  - intros (f & [->|Hf]%elem_of_cons & Hj & Hx).
    + by left.
    + right. by exists f.
  - intros [[Hj Hx]|(f & Hf & Hj & Hx)].
    + exists file. split_and!; [by left | done..].
    + exists f. split_and!; [by right | done..].
Qed.

Lemma load_files_sound files acc cat n r :
  for_of (load_file JSON_parse_record) acc files = Normal cat →
  cat !! n = Some r →
  acc !! n = Some r ∨
  ∃ x, holds_record JSON_parse_record files x ∧ r_name x = n ∧
       r = record_of x.
Proof.
  revert acc. induction files as [|file files IH]; simpl; intros acc.
  - intros [= ->] ?. by left.
  - destruct (load_file JSON_parse_record acc file) as [acc'|e] eqn:Hstep;
      simpl; [|done].
    intros Hrest Hn.
    destruct (IH _ Hrest Hn) as [Hacc|(y & Hy & ? & ?)].
    + apply load_file_Normal in Hstep as [[_ ->]|(x & Hj & Hx & ->)];
        [by left |].
      rewrite lookup_insert in Hacc. case_decide as Hname; [|by left].
      right. exists x. split_and!; [| done | congruence].
      apply holds_record_cons. by left.
    + right. exists y. split_and!; [| done..].
      apply holds_record_cons. by right.
Qed.

Lemma load_files_complete files acc cat n :
  for_of (load_file JSON_parse_record) acc files = Normal cat →
  is_Some (acc !! n) ∨
    (∃ x, holds_record JSON_parse_record files x ∧ r_name x = n) →
  is_Some (cat !! n).
Proof.
  revert acc. induction files as [|file files IH]; simpl; intros acc.
  - intros [= ->] [?|(x & (f & []%elem_of_nil & _) & _)]. done.
  - destruct (load_file JSON_parse_record acc file) as [acc'|e] eqn:Hstep;
      simpl; [|done].
    intros Hrest Hn. apply (IH _ Hrest).
    apply load_file_Normal in Hstep as [[Hj ->]|(x & Hj & Hx & ->)].
    + destruct Hn as [?|(y & [[? _]|Hy]%holds_record_cons & Hname)].
      * by left.
      * congruence.
      * right. by exists y.
    + destruct Hn as [Hacc|(y & [[_ Hy]|Hy]%holds_record_cons & Hname)].
      * left. rewrite lookup_insert. by case_decide.
      * left. rewrite lookup_insert.
        rewrite decide_True by congruence. by eauto.
      * right. by exists y.
Qed.

(** The catalog holds a record under a name exactly when one of the two
    stores holds a record of that name, and the record it holds is one of
    them. *)
Lemma loadAllItemData_spec disk cat n :
  loadAllItemData JSON_parse_record disk = Normal cat →
  let stored x :=
    (in_store JSON_parse_record (items_store disk) x ∨
     in_store JSON_parse_record (spells_store disk) x) ∧ r_name x = n in
  ((∃ x, stored x) → ∃ x, stored x ∧ cat !! n = Some (record_of x)) ∧
  (¬ (∃ x, stored x) → cat !! n = None).
Proof.
  intros Hspells stored. unfold loadAllItemData in Hspells.
  destruct (load_store JSON_parse_record ∅ (items_store disk))
    as [items|e] eqn:Hitems; simpl in Hspells; [|done].
  rewrite load_store_files in Hitems, Hspells.
  assert (Hsound : ∀ r, cat !! n = Some r → ∃ x, stored x ∧ r = record_of x).
  { intros r Hr.
    destruct (load_files_sound _ _ _ _ _ Hspells Hr)
      as [Hi|(x & ? & ? & ?)].
    - destruct (load_files_sound _ _ _ _ _ Hitems Hi)
        as [Hempty|(x & ? & ? & ?)]; [by rewrite lookup_empty in Hempty |].
      exists x. split; [split; [by left | done] | done].
    - exists x. split; [split; [by right | done] | done]. }
  split.
  - intros (x & [Hx|Hx] & Hname).
    + assert (is_Some (cat !! n)) as [r Hr].
      { apply (load_files_complete _ _ _ _ Hspells). left.
        apply (load_files_complete _ _ _ _ Hitems). right. by exists x. }
      destruct (Hsound r Hr) as (y & ? & ->). by exists y.
    + assert (is_Some (cat !! n)) as [r Hr].
      { apply (load_files_complete _ _ _ _ Hspells). right. by exists x. }
      destruct (Hsound r Hr) as (y & ? & ->). by exists y.
  - intros Hnone. destruct (cat !! n) as [r|] eqn:Hr; [|done].
    destruct (Hsound r eq_refl) as (x & ? & _). destruct Hnone. by exists x.
Qed.


(** *** The searches of the route *)

(** The search of the items store hands back the route's [itemData] as
    it received it, whatever the store holds. *)
Lemma searchForItems_file_unchanged itemNames found file found' :
  searchForItems_file JSON_parse_record itemNames found file = Normal found' →
  found' = found.
Proof.
  unfold searchForItems_file.
  destruct (negb (endsWith file.1 ".json")); [congruence |].
  destruct (read_record JSON_parse_record file.2); [simpl; congruence | done].
Qed.

Lemma searchForItems_unchanged itemData searchDir itemNames found :
  searchForItems JSON_parse_record itemData searchDir itemNames
    = Normal found →
  found = itemData.
Proof.
  unfold searchForItems. destruct searchDir as [entries|]; [|congruence].
  apply for_of_unchanged. intros o files o'.
  apply for_of_unchanged. intros o1 file o1'.
  apply searchForItems_file_unchanged.
Qed.

Lemma search_spell_file_Normal names acc file acc' :
  search_spell_file JSON_parse_record names acc file = Normal acc' →
  acc' = acc ∨
  ∃ x, endsWith file.1 ".json" = true ∧
       read_record JSON_parse_record file.2 = Normal x ∧
       r_name x ∈ names ∧
       acc' = assign_record acc (r_name x) (record_of x).
Proof.
  unfold search_spell_file. destruct (endsWith file.1 ".json"); simpl.
  - destruct (read_record JSON_parse_record file.2) as [x|]; [|done].
    simpl. case_decide; intros [= <-]; [right; by exists x | by left].
  - intros [= <-]. by left.
Qed.

Lemma search_spell_files_sound names files acc itemData n v :
  for_of (search_spell_file JSON_parse_record names) acc files
    = Normal itemData →
  obj_get (own itemData) n = Some v →
  obj_get (own acc) n = Some v ∨
  ∃ x, holds_record JSON_parse_record files x ∧ r_name x = n ∧
       v = VRecord (record_of x).
Proof.
  revert acc. induction files as [|file files IH]; simpl; intros acc.
  - intros [= ->] ?. by left.
  - destruct (search_spell_file JSON_parse_record names acc file)
      as [acc'|e] eqn:Hstep; simpl; [|done].
    intros Hrest Hn.
    destruct (IH _ Hrest Hn) as [Hacc|(y & Hy & ? & ?)].
    + apply search_spell_file_Normal in Hstep
        as [->|(x & Hj & Hx & _ & ->)]; [by left |].
      cbn [own assign_record] in Hacc.
      rewrite obj_get_own_after_assign in Hacc.
      case_decide as Hname; [|by left].
      right. exists x. split_and!; [| by destruct Hname | congruence].
      apply holds_record_cons. by left.
    + right. exists y. split_and!; [| done..].
      apply holds_record_cons. by right.
Qed.

(** The prototype of the route's object is a record only through a
    record of the spells store that is named [__proto__]. *)
Lemma search_spell_files_proto names files acc itemData r :
  for_of (search_spell_file JSON_parse_record names) acc files
    = Normal itemData →
  proto itemData = Some r →
  proto acc = Some r ∨
  "__proto__" ∈ names ∧
  ∃ x, holds_record JSON_parse_record files x ∧ r_name x = "__proto__" ∧
       r = record_of x.
Proof.
  revert acc. induction files as [|file files IH]; simpl; intros acc.
  - intros [= ->] ?. by left.
  - destruct (search_spell_file JSON_parse_record names acc file)
      as [acc'|e] eqn:Hstep; simpl; [|done].
    intros Hrest Hr.
    destruct (IH _ Hrest Hr) as [Hacc|(Hin & y & Hy & ? & ?)].
    + apply search_spell_file_Normal in Hstep
        as [->|(x & Hj & Hx & Hin & ->)]; [by left |].
      cbn [proto assign_record] in Hacc.
      destruct (String.eqb_spec (r_name x) "__proto__") as [Hp|Hp];
        [|by left].
      right. split; [congruence |]. exists x.
      split_and!; [| done | congruence].
      apply holds_record_cons. by left.
    + right. split; [done |]. exists y. split_and!; [| done..].
      apply holds_record_cons. by right.
Qed.

(** The searches of the route, as the loop over the record files of the
    spells store. *)
Lemma route_search_files disk names itemData :
  route_search JSON_parse_record disk names = Normal itemData →
  for_of (search_spell_file JSON_parse_record names) empty_object
    (record_files (spells_store disk)) = Normal itemData.
Proof.
  unfold route_search. intros Hsearch.
  destruct (searchForItems JSON_parse_record empty_object
              (items_store disk) names)
    as [o|e] eqn:Hitems; simpl in Hsearch; [|done].
  apply searchForItems_unchanged in Hitems as ->.
  unfold search_spells in Hsearch. unfold record_files.
  destruct (spells_store disk); [by rewrite <- for_of_concat | done].
Qed.

(** What the route persists comes from the spells store only: a referenced
    name without a record there is not a key of the persisted object,
    whatever the items store holds, and is reported as missing unless the
    object inherits something truthy under it. *)
Lemma route_search_only_spells disk names itemData n :
  route_search JSON_parse_record disk names = Normal itemData →
  ¬ (∃ x, in_store JSON_parse_record (spells_store disk) x ∧ r_name x = n) →
  (n ∉ keys (own itemData)) ∧
  (n ∈ names → truthy_value (inherited (proto itemData) n) = false →
   n ∈ missing_from itemData names).
Proof.
  intros Hsearch%route_search_files Hnone.
  assert (Hget : obj_get (own itemData) n = None).
  { destruct (obj_get (own itemData) n) as [r|] eqn:Hr; [|done].
    destruct (search_spell_files_sound _ _ _ _ _ _ Hsearch Hr)
      as [?|(x & Hx & Hname & _)]; [done |].
    destruct Hnone. exists x. split; [|done].
    exact Hx. }
  split; [by apply obj_get_None |].
  intros Hn Hfalsy. unfold missing_from. apply list_elem_of_filter.
  split; [|done]. unfold get. by rewrite Hget.
Qed.

Local Abbreviation POST' :=
  (POST JSON_parse_record JSON_parse_inventories JSON_stringify).
Local Abbreviation processSession' :=
  (processSession JSON_parse_inventories JSON_stringify).

(** [POST] on a session whose inventories file exists and parses, when
    the two searches complete: the response and the disk are those of the
    write. *)
Lemma POST_write w id disk dirs dir data inv itemData :
  sessions disk = Some dirs → dirs !! id = Some dir →
  dir !! inventories_file = Some data →
  JSON_parse_inventories data = Some inv →
  route_search JSON_parse_record disk (allItems inv) = Normal itemData →
  let out :=
    writeFileSync w dir precomputed_file (JSON_stringify (own itemData)) in
  POST' w id disk =
    (match out.1 with
     | Throw _ => status_500 "Failed to pre-compute items"
     | Normal _ =>
         status_200 (length (keys (own itemData))) (length (allItems inv))
           (missing_from itemData (allItems inv))
     end,
     with_session_dir disk id out.2).
Proof.
  intros Hdirs Hdir Hdata Hparse Hsearch out.
  unfold POST. rewrite Hdirs.
  rewrite (proj2 (session_file_Some disk id inventories_file data))
    by (by exists dirs, dir).
  rewrite Hparse, Hsearch, Hdir. simpl. subst out. by destruct w.
Qed.

(** When [POST] does not reach the write, the disk is as it was. *)
Lemma POST_no_write w id disk :
  (∀ data inv itemData,
     session_file disk id inventories_file = Some data →
     JSON_parse_inventories data = Some inv →
     route_search JSON_parse_record disk (allItems inv) ≠ Normal itemData) →
  (POST' w id disk).2 = disk.
Proof.
  intros Hno. unfold POST.
  destruct (sessions disk) as [dirs|]; [|done].
  destruct (session_file disk id inventories_file) as [data|] eqn:Hfile;
    [|done].
  destruct (JSON_parse_inventories data) as [inv|] eqn:Hparse; [|done].
  destruct (route_search JSON_parse_record disk (allItems inv))
    as [itemData|e] eqn:Hsearch; [|done].
  by destruct (Hno data inv itemData).
Qed.

Lemma same_elsewhere_refl disk sessionId : same_elsewhere disk disk sessionId.
Proof. by split_and!. Qed.

(** C6, amended. A build, by the script or by the route, writes the
    artifact in place with one [fs.writeFileSync]: it changes no store and
    no other file; when the write succeeds the build reports a success and
    the artifact is the whole serialisation; when the write fails the build
    reports a failure, and the artifact is as it was only if the failure
    came before the file was opened: after that it is cut to the bytes that
    were written. *)
Theorem builds_write_in_place w sessionId allItemData disk :
  let run := processSession' w sessionId allItemData disk in
  let route := POST' w sessionId disk in
  let artifact d := session_file d sessionId precomputed_file in
  same_elsewhere disk run.2 sessionId ∧
  same_elsewhere disk route.2 sessionId ∧
  ∀ data inv,
    session_file disk sessionId inventories_file = Some data →
    JSON_parse_inventories data = Some inv →
    (written_in_place w (artifact disk) (artifact run.2)
       (JSON_stringify (find_matching_items allItemData (allItems inv)).1) ∧
     match w with
     | Succeeds =>
         ∃ found total missing,
           run.1 = success sessionId found total missing
     | _ => run.1 = error sessionId IOError
     end) ∧
    ∀ itemData,
      route_search JSON_parse_record disk (allItems inv) = Normal itemData →
      written_in_place w (artifact disk) (artifact route.2)
        (JSON_stringify (own itemData)) ∧
      match w with
      | Succeeds => ∃ found total missing,
                      route.1 = status_200 found total missing
      | _ => route.1 = status_500 "Failed to pre-compute items"
      end.
Proof.
  intros run route artifact. subst run route artifact.
  destruct (session_file disk sessionId inventories_file) as [data|] eqn:Hfile.
  2: { unfold processSession. rewrite Hfile. cbn [fst snd].
       rewrite POST_no_write by (intros; congruence).
       split_and!; [apply same_elsewhere_refl .. | done]. }
  destruct (JSON_parse_inventories data) as [inv|] eqn:Hparse.
  2: { unfold processSession. rewrite Hfile, Hparse. cbn [fst snd].
       rewrite POST_no_write by (intros; congruence).
       split_and!; [apply same_elsewhere_refl .. |].
       intros ? ? [= <-]. congruence. }
  apply session_file_Some in Hfile as (dirs & dir & Hdirs & Hdir & Hdata).
  pose proof (proj2 (session_file_Some disk sessionId inventories_file data)
                (ex_intro _ dirs (ex_intro _ dir
                   (conj Hdirs (conj Hdir Hdata))))) as Hfile.
  rewrite (processSession_write _ _ w _ allItemData _ _ _ _ _
             Hdirs Hdir Hdata Hparse).
  cbn [fst snd].
  set (art := JSON_stringify
                (find_matching_items allItemData (allItems inv)).1).
  destruct (writeFileSync_in_place w disk sessionId dirs dir art Hdirs Hdir)
    as (Hframe & Hart & Hout).
  split_and!.
  - exact Hframe.
  - destruct (route_search JSON_parse_record disk (allItems inv))
      as [itemData|e] eqn:Hsearch.
    + rewrite (POST_write w _ _ _ _ _ _ _ Hdirs Hdir Hdata Hparse Hsearch).
      apply (writeFileSync_in_place w disk sessionId dirs dir
               (JSON_stringify (own itemData)) Hdirs Hdir).
    + rewrite POST_no_write; [apply same_elsewhere_refl |].
      intros; congruence.
  - intros data' inv' [= <-]. rewrite Hparse. intros [= <-]. split.
    + split; [exact Hart |]. rewrite Hout. destruct w; by eauto.
    + intros itemData Hsearch.
      rewrite (POST_write w _ _ _ _ _ _ _ Hdirs Hdir Hdata Hparse Hsearch).
      cbn [fst snd].
      destruct (writeFileSync_in_place w disk sessionId dirs dir
                  (JSON_stringify (own itemData)) Hdirs Hdir)
        as (_ & Hart' & Hout').
      split; [exact Hart' |]. rewrite Hout'. destruct w; by eauto.
Qed.

(** A second build by the route, on the disk the first one left, gives
    the same response and leaves the same disk. *)
Lemma POST_rerun id disk :
  let first := POST' Succeeds id disk in
  POST' Succeeds id first.2 = first.
Proof.
  intros first. subst first.
  destruct (sessions disk) as [dirs|] eqn:Hdirs.
  2: { unfold POST at 2. rewrite Hdirs. simpl. unfold POST. by rewrite Hdirs. }
  destruct (session_file disk id inventories_file) as [data|] eqn:Hfile.
  2: { unfold POST at 2. rewrite Hdirs, Hfile. simpl.
       unfold POST. by rewrite Hdirs, Hfile. }
  destruct (JSON_parse_inventories data) as [inv|] eqn:Hparse.
  2: { unfold POST at 2. rewrite Hdirs, Hfile, Hparse. simpl.
       unfold POST. by rewrite Hdirs, Hfile, Hparse. }
  destruct (route_search JSON_parse_record disk (allItems inv))
    as [itemData|e] eqn:Hsearch.
  2: { unfold POST at 2. rewrite Hdirs, Hfile, Hparse, Hsearch. simpl.
       unfold POST. by rewrite Hdirs, Hfile, Hparse, Hsearch. }
  apply session_file_Some in Hfile as (dirs' & dir & Hdirs' & Hdir & Hdata).
  assert (dirs' = dirs) as -> by congruence.
  rewrite (POST_write Succeeds _ _ _ _ _ _ _ Hdirs Hdir Hdata Hparse Hsearch).
  simpl.
  set (dir' := <[precomputed_file := JSON_stringify (own itemData)]> dir).
  rewrite (POST_write Succeeds id (with_session_dir disk id dir')
             (<[id := dir']> dirs) dir' data inv itemData).
  - simpl. f_equal.
    unfold with_session_dir. simpl. rewrite Hdirs. simpl.
    subst dir'. by rewrite !insert_insert_eq.
  - unfold with_session_dir. simpl. by rewrite Hdirs.
  - apply lookup_insert_eq.
  - subst dir'. rewrite lookup_insert_ne by apply files_differ. done.
  - done.
  - exact Hsearch.
Qed.

(** C5. Building the session cache a second time, with the catalog and
    the inventories unchanged, returns the same result (status and counts)
    and leaves the disk, so the bytes of the artifact, as the first build
    left it; this holds for the build of the script and for the build of
    the route. *)
Theorem builds_idempotent sessionId allItemData disk :
  let first := processSession' Succeeds sessionId allItemData disk in
  let route := POST' Succeeds sessionId disk in
  processSession' Succeeds sessionId allItemData first.2 = first ∧
  session_file
    (processSession' Succeeds sessionId allItemData first.2).2
    sessionId precomputed_file
  = session_file first.2 sessionId precomputed_file ∧
  POST' Succeeds sessionId route.2 = route ∧
  session_file (POST' Succeeds sessionId route.2).2
    sessionId precomputed_file
  = session_file route.2 sessionId precomputed_file.
Proof.
  intros first route.
  destruct (processSession_rerun JSON_parse_inventories JSON_stringify
              sessionId allItemData disk) as [Hscript Hartifact].
  pose proof (POST_rerun sessionId disk) as Hroute.
  cbv zeta in Hroute. fold route in Hroute.
  split_and!; [exact Hscript | exact Hartifact | exact Hroute |].
  by rewrite Hroute.
Qed.

End RouteFacts.

(** C2 on the build of the script.  The session of the example refers to
    "Short Sword", which the catalog holds, and to "__proto__", which no
    store has a record for.  [allItemData["__proto__"]] is the prototype of
    the catalog, which is truthy, so the name is not pushed to
    [missingItems]; [sessionItems["__proto__"] = ...] runs the setter of
    [Object.prototype], so the name does not become a key either.  The
    build reports 1 item found of 2 and 0 missing.  Whatever the catalog
    and the names, [__proto__] is in neither of the two. *)
Theorem processSession_loses_proto_name :
  let found :=
    find_matching_items Examples.catalog (allItems proto_inventories) in
  allItems proto_inventories = ["Short Sword"; "__proto__"] ∧
  Examples.catalog !! "__proto__" = None ∧
  found = ([("Short Sword", VRecord (record_of Examples.short_sword))], []) ∧
  (processSession proto_parse_inventories Examples.stringify Succeeds
     "game1" Examples.catalog Examples.disk).1 = success "game1" 1 2 0 ∧
  ¬ (∀ n, n ∈ allItems proto_inventories →
          n ∈ keys found.1 ∨ n ∈ found.2) ∧
  ∀ (allItemData : gmap string Item) (names : list string),
    ("__proto__" ∉ keys (find_matching_items allItemData names).1) ∧
    ("__proto__" ∉ (find_matching_items allItemData names).2).
Proof.
  cbv zeta.
  assert (Hnames :
    allItems proto_inventories = ["Short Sword"; "__proto__"])
    by (vm_compute; reflexivity).
  assert (Hfound :
    find_matching_items Examples.catalog (allItems proto_inventories)
    = ([("Short Sword", VRecord (record_of Examples.short_sword))], []))
    by (vm_compute; reflexivity).
  split_and!.
  - exact Hnames.
  - reflexivity.
  - exact Hfound.
  - vm_compute. reflexivity.
  - rewrite Hfound, Hnames. cbn [fst snd]. intros Hall.
    destruct (Hall "__proto__") as [Hkey|Hmissing].
    + apply list_elem_of_further, list_elem_of_here.
    + apply list_elem_of_singleton in Hkey. discriminate Hkey.
    + by apply elem_of_nil in Hmissing.
  - intros allItemData names.
    destruct (find_matching_items_spec allItemData names)
      as (Hget & Hmiss & _).
    split.
    + apply obj_get_None. rewrite Hget.
      rewrite decide_False; [done | tauto].
    + rewrite Hmiss, catalog_get_proto. by intros [_ ?].
Qed.

(** C6, as the specification states it, fails: a write that fails after
    the file was opened leaves a build that reports an error and an
    artifact that is no longer the previous one. *)
Lemma write_failure_loses_previous_artifact :
  ¬ ∀ (w : WriteBehaviour) (sessionId : string)
      (allItemData : gmap string Item) (disk : Disk),
      let run :=
        processSession Examples.parse_inventories Examples.stringify
          w sessionId allItemData disk in
      (∀ found total missing,
         run.1 ≠ success sessionId found total missing) →
      session_file run.2 sessionId precomputed_file
        = session_file disk sessionId precomputed_file.
Proof.
  intros Hatomic.
  specialize (Hatomic (FailsAfterTruncate 0) "game1"
                Examples.catalog Examples.disk).
  cbv zeta in Hatomic.
  assert (Herr :
    (processSession Examples.parse_inventories Examples.stringify
       (FailsAfterTruncate 0) "game1" Examples.catalog Examples.disk).1
    = error "game1" IOError) by reflexivity.
  assert (Hnow :
    session_file
      (processSession Examples.parse_inventories Examples.stringify
         (FailsAfterTruncate 0) "game1" Examples.catalog Examples.disk).2
      "game1" precomputed_file = Some "") by reflexivity.
  assert (Hbefore :
    session_file Examples.disk "game1" precomputed_file
    = Some "previous artifact") by reflexivity.
  rewrite Hnow, Hbefore in Hatomic.
  assert (Hfalse : Some "" = Some "previous artifact").
  { apply Hatomic. intros found total missing. rewrite Herr. discriminate. }
  discriminate Hfalse.
Qed.

(** C1 on the on-demand build.  The items store of the example holds the
    records of "Short Sword" and "Battle Armor", the session refers to
    both, and the script's build persists them; the route's build persists
    the spell only and reports the two items as missing. *)
Theorem POST_misses_items_store_records :
  let parse_r := Examples.parse_record in
  let parse_i := Examples.parse_inventories in
  let str := Examples.stringify in
  loadAllItemData parse_r Examples.disk = Normal Examples.catalog ∧
  Examples.catalog !! "Short Sword" = Some (record_of Examples.short_sword) ∧
  "Short Sword" ∈ allItems Examples.inventories ∧
  (processSession parse_i str Succeeds "game1" Examples.catalog
     Examples.disk).1 = success "game1" 3 4 1 ∧
  (POST parse_r parse_i str Succeeds "game1" Examples.disk).1
    = status_200 1 4 ["Short Sword"; "Battle Armor"; "Unknown Relic"] ∧
  session_file
    (POST parse_r parse_i str Succeeds "game1" Examples.disk).2
    "game1" precomputed_file
  = Some (str [("Fiery Blast", VRecord (record_of Examples.fiery_blast))]).
Proof.
  cbv zeta. split_and!.
  - vm_compute. reflexivity.
  - reflexivity.
  - vm_compute. apply list_elem_of_here.
  - vm_compute. reflexivity.
  - vm_compute. reflexivity.
  - vm_compute. reflexivity.
Qed.

Lemma builds_write_in_place_witness :
  written_in_place (FailsAfterTruncate 4)
    (session_file Examples.disk "game1" precomputed_file)
    (session_file
       (processSession Examples.parse_inventories Examples.stringify
          (FailsAfterTruncate 4) "game1" Examples.catalog Examples.disk).2
       "game1" precomputed_file)
    (Examples.stringify
       (find_matching_items Examples.catalog
          (allItems Examples.inventories)).1).
Proof.
  destruct (builds_write_in_place
              Examples.parse_record Examples.parse_inventories
              Examples.stringify (FailsAfterTruncate 4) "game1"
              Examples.catalog Examples.disk) as (_ & _ & Hwrite).
  destruct (Hwrite "inventories" Examples.inventories eq_refl eq_refl)
    as [[Hscript _] _].
  exact Hscript.
Defined.

Lemma seed_installs_cache_witness :
  itemCache_state
    (seed {[ "Chimera" := Examples.chimera ]}
       {| itemCache_state := ∅; requests := [] |}) !! "Chimera"
  = Some Examples.chimera.
Proof.
  apply (proj1 (seed_installs_cache {[ "Chimera" := Examples.chimera ]}
                  {| itemCache_state := ∅; requests := [] |})).
  reflexivity.
Defined.

(** * Further properties of the code *)

Local Open Scope nat_scope.

(** ** Strings *)

Lemma string_app_cons (c : ascii) (a b : string) :
  (String c a ++ b)%string = String c (a ++ b)%string.
Proof. reflexivity. Qed.

Lemma prefix_true_iff (p s : string) :
  String.prefix p s = true ↔ ∃ r, s = (p ++ r)%string.
Proof.
  revert s. induction p as [|a p IH]; intros s; simpl.
  - split; [intros _; by exists s | by destruct s].
  - destruct s as [|b s]; simpl.
    + split; [done | intros [r [=]]].
    + destruct (ascii_dec a b) as [->|Hne].
      * rewrite IH. split; intros [r Hr]; exists r.
        -- by rewrite Hr.
        -- by injection Hr.
      * split; [done | intros [r [= ? _]]; done].
Qed.

Lemma includes_true_iff (s sub : string) :
  includes s sub = true ↔ ∃ a b, s = (a ++ sub ++ b)%string.
Proof.
  induction s as [|c s IH]; cbn [includes].
  - rewrite orb_false_r, prefix_true_iff. split.
    + intros [r Hr]. by exists EmptyString, r.
    + intros ([|? a] & b & Hab); [by exists b | done].
  - rewrite orb_true_iff, prefix_true_iff, IH. split.
    + intros [[r Hr]|(a & b & ->)].
      * by exists EmptyString, r.
      * by exists (String c a), b.
    + intros ([|c' a] & b & Hab); simpl in Hab.
      * left. by exists b.
      * right. injection Hab as -> ->. by exists a, b.
Qed.

Lemma string_app_assoc (a b c : string) :
  ((a ++ b) ++ c = a ++ b ++ c)%string.
Proof.
  induction a as [|x a IH]; [done |]. by rewrite !string_app_cons, IH.
Qed.

(** A string that includes [t] includes what [t] includes. *)
Lemma includes_trans (s t u : string) :
  includes s t = true → includes t u = true → includes s u = true.
Proof.
  rewrite !includes_true_iff.
  intros (a & b & ->) (a' & b' & ->).
  exists (a ++ a')%string, (b' ++ b)%string.
  by rewrite !string_app_assoc.
Qed.

Lemma toLowerCase_app (a b : string) :
  toLowerCase (a ++ b) = (toLowerCase a ++ toLowerCase b)%string.
Proof.
  induction a as [|x a IH]; [done |].
  rewrite string_app_cons. cbn [toLowerCase].
  by rewrite string_app_cons, IH.
Qed.

Lemma includes_dead (s t u : string) :
  includes t u = true → includes s u = false → includes s t = false.
Proof.
  intros Htu Hsu. destruct (includes s t) eqn:Hst; [|done].
  by rewrite (includes_trans s t u Hst Htu) in Hsu.
Qed.

(** ** The name heuristic *)

(** The keywords that hold a keyword tested beside or before them are
    never the ones that decide. *)
Lemma categorizeItemByName_reduced (itemName : string) :
  categorizeItemByName itemName = categorize_by_deciding_keywords itemName.
Proof.
  unfold categorizeItemByName, categorize_by_deciding_keywords.
  set (name := toLowerCase itemName).
  destruct (includes name "bow") eqn:Hbow; [done |].
  destruct (includes name "sword") eqn:Hsword; [done |].
  destruct (includes name "axe") eqn:Haxe; [done |].
  rewrite (includes_dead name "crossbow" "bow") by done.
  rewrite (includes_dead name "broadsword" "sword") by done.
  rewrite (includes_dead name "great sword" "sword") by done.
  rewrite (includes_dead name "great axe" "axe") by done.
  rewrite (includes_dead name "thrusting sword" "sword") by done.
  rewrite (includes_dead name "short sword" "sword") by done.
  rewrite !orb_false_r. cbn [orb].
  destruct (includes name "spear" || includes name "mace" ||
            includes name "staff" || includes name "halberd" ||
            includes name "morning star"); [done |].
  destruct (includes name "armor") eqn:Harmor; [done |].
  cbn [orb]. rewrite !orb_false_r.
  destruct (includes name "shield" || includes name "helmet" ||
            includes name "breastplate" || includes name "greaves" ||
            includes name "gauntlets"); [done |].
  destruct (includes name "peace with nature"); [done |]. cbn [orb].
  destruct (includes name "type v") eqn:Hv.
  { by rewrite !orb_true_r. }
  destruct (includes name "type i") eqn:Hi.
  { by rewrite !orb_true_r. }
  rewrite (includes_dead name "type vii" "type v") by done.
  rewrite (includes_dead name "type vi" "type v") by done.
  rewrite (includes_dead name "type iv" "type i") by done.
  rewrite (includes_dead name "type iii" "type i") by done.
  rewrite (includes_dead name "type ii" "type i") by done.
  cbn [orb]. done.
Qed.

(** X1. Six weapon keywords ("crossbow", "broadsword", "great sword",
    "great axe", "thrusting sword", "short sword"), five spell keywords
    ("type vii", "type vi", "type iv", "type iii", "type ii") and the
    "sword", "axe" and "armor" alternatives of the great-treasure test
    never decide: the heuristic gives, for every name, what it gives
    without them. *)
Theorem categorizeItemByName_deciding_keywords (itemName : string) :
  categorizeItemByName itemName = categorize_by_deciding_keywords itemName.
Proof. exact (categorizeItemByName_reduced itemName). Qed.

(** ** Categories, tooltips and the lines of a character box *)

Lemma cat_is_true (cat : Category) (label : string) :
  cat_is cat label = true ↔ category_label cat = label.
Proof. unfold cat_is. apply String.eqb_eq. Qed.

Lemma cat_is_mount (cat : Category) : cat_is cat "mount" = false.
Proof. by destruct cat. Qed.

(** When the heuristic answers [Other], [GreatTreasure] or [Native], the
    name holds, or lacks, the words that decide it. *)
Lemma categorizeItemByName_Other n :
  categorizeItemByName n = Other → name_includes n "treasure" = false.
Proof.
  rewrite categorizeItemByName_reduced.
  unfold categorize_by_deciding_keywords, name_includes.
  destruct (includes (toLowerCase n) "treasure"); [|done].
  rewrite andb_true_r. cbn [orb].
  repeat match goal with
         | |- context [if ?c then _ else _] => destruct c
         end; done.
Qed.

Lemma categorizeItemByName_GreatTreasure n :
  categorizeItemByName n = GreatTreasure →
  name_includes n "great" = true ∧ name_includes n "treasure" = true.
Proof.
  rewrite categorizeItemByName_reduced.
  unfold categorize_by_deciding_keywords, name_includes.
  destruct (includes (toLowerCase n) "great"),
    (includes (toLowerCase n) "treasure"); cbn [andb orb];
  repeat match goal with
         | |- context [if ?c then _ else _] => destruct c
         end; done.
Qed.

(** How [getItemCategory] decides, by cases on the cache and the tests. *)
Lemma getItemCategory_cases (itemCache : gmap string Item) n :
  (itemCache !! n = None ∧
   getItemCategory itemCache n = categorizeItemByName n) ∨
  ∃ cached, itemCache !! n = Some cached ∧
    let blocks := attributeBlocks cached in
    (isArmor blocks = true ∧ getItemCategory itemCache n = Armor) ∨
    (isArmor blocks = false ∧ isWeapon blocks = true ∧
     getItemCategory itemCache n = Weapon) ∨
    (isArmor blocks = false ∧ isWeapon blocks = false ∧
     isSpell blocks = true ∧ getItemCategory itemCache n = Spell) ∨
    (isArmor blocks = false ∧ isWeapon blocks = false ∧
     isSpell blocks = false ∧ has_base_price blocks = true ∧
     isLargeTreasure itemCache n = true ∧
     getItemCategory itemCache n = LargeTreasure) ∨
    (isArmor blocks = false ∧ isWeapon blocks = false ∧
     isSpell blocks = false ∧ has_base_price blocks = true ∧
     isLargeTreasure itemCache n = false ∧
     getItemCategory itemCache n = Treasure) ∨
    (isArmor blocks = false ∧ isWeapon blocks = false ∧
     isSpell blocks = false ∧ has_base_price blocks = false ∧
     getItemCategory itemCache n = categorizeItemByName n).
Proof.
  unfold getItemCategory, isLargeTreasure.
  destruct (itemCache !! n) as [cached|]; [right | by left].
  exists cached. split; [done |]. cbv zeta.
  fold (isArmor (attributeBlocks cached)) (isWeapon (attributeBlocks cached)).
  fold (isSpell (attributeBlocks cached)).
  fold (has_base_price (attributeBlocks cached)).
  destruct (isArmor (attributeBlocks cached)); [by left |].
  destruct (isWeapon (attributeBlocks cached)); [by right; left |].
  destruct (isSpell (attributeBlocks cached)); [by right; right; left |].
  destruct (has_base_price (attributeBlocks cached));
    [|by do 5 right].
  destruct (strict_eq_str _ _);
    [by do 3 right; left | by do 4 right; left].
Qed.

(** Closes a goal with a hypothesis [c ∈ [c1; ...; cn]] in which the
    constructor [c] is none of the [ci]. *)
Ltac absurd_elem H :=
  repeat (apply elem_of_cons in H as [H|H]; [discriminate H |]);
  by apply elem_of_nil in H.

(** X2. Where a category comes from.  [large_treasure] is only given to a
    cached record with a truthy [this.base_price] whose [this.treasure] is
    ["large"], so such an item is also a large treasure for
    [isLargeTreasure]; [great_treasure], [native] and [other] are only
    given by the name heuristic, to an item that has no cached record or
    whose record fails the four structural tests; and a [great_treasure]
    has both "great" and "treasure" in its lowercased name. *)
Theorem category_origin (itemCache : gmap string Item) (n : string) :
  let cat := getItemCategory itemCache n in
  (cat = LargeTreasure →
   isLargeTreasure itemCache n = true ∧
   ∃ cached, itemCache !! n = Some cached ∧
             has_base_price (attributeBlocks cached) = true) ∧
  (cat ∈ [GreatTreasure; Native; Other] →
   cat = categorizeItemByName n ∧
   ∀ cached, itemCache !! n = Some cached →
     isArmor (attributeBlocks cached) = false ∧
     isWeapon (attributeBlocks cached) = false ∧
     isSpell (attributeBlocks cached) = false ∧
     has_base_price (attributeBlocks cached) = false) ∧
  (cat = GreatTreasure →
   name_includes n "great" = true ∧ name_includes n "treasure" = true).
Proof.
  intros cat. subst cat.
  assert (Hname : categorizeItemByName n ≠ LargeTreasure).
  { unfold categorizeItemByName.
    repeat match goal with
           | |- context [if ?c then _ else _] => destruct c
           end; discriminate. }
  assert (Hheur : getItemCategory itemCache n ∈ [GreatTreasure; Native; Other] →
    getItemCategory itemCache n = categorizeItemByName n ∧
    ∀ cached, itemCache !! n = Some cached →
      isArmor (attributeBlocks cached) = false ∧
      isWeapon (attributeBlocks cached) = false ∧
      isSpell (attributeBlocks cached) = false ∧
      has_base_price (attributeBlocks cached) = false).
  { intros Hin.
    destruct (getItemCategory_cases itemCache n)
      as [[Hnone Hcat]|(cached & Hc & Hcases)].
    - split; [done |]. intros ?. by rewrite Hnone.
    - cbv zeta in Hcases.
      destruct Hcases as [(_ & Hcat)|[(_ & _ & Hcat)|[(_ & _ & _ & Hcat)|
        [(_ & _ & _ & _ & _ & Hcat)|[(_ & _ & _ & _ & _ & Hcat)|
        (? & ? & ? & ? & Hcat)]]]]];
        try (rewrite Hcat in Hin; absurd_elem Hin).
      split; [done |]. intros cached' Hc'.
      assert (cached' = cached) as -> by congruence. done. }
  split_and!.
  - intros Hlarge.
    destruct (getItemCategory_cases itemCache n)
      as [[_ Hcat]|(cached & Hc & Hcases)]; [congruence |].
    cbv zeta in Hcases.
    destruct Hcases as [(_ & Hcat)|[(_ & _ & Hcat)|[(_ & _ & _ & Hcat)|
      [(_ & _ & _ & Hprice & Hisl & Hcat)|[(_ & _ & _ & _ & _ & Hcat)|
      (_ & _ & _ & _ & Hcat)]]]]]; try congruence.
    split; [done |]. by exists cached.
  - exact Hheur.
  - intros Hgreat. apply categorizeItemByName_GreatTreasure.
    destruct Hheur as [<- _]; [rewrite Hgreat; by left | done].
Qed.

(** Every exception of the chit renderers is a [TypeError], and each of
    them throws when the record has no [this] block. *)
Ltac split_completion :=
  repeat match goal with
         | |- context [if ?c then _ else _] => destruct c eqn:?; simpl
         | |- context [match ?c with _ => _ end] => destruct c eqn:?; simpl
         | H : context [if ?c then _ else _] |- _ =>
             destruct c eqn:?; simpl in H
         | H : context [match ?c with _ => _ end] |- _ =>
             destruct c eqn:?; simpl in H
         end.

Lemma get_property_nullish (v : Any) (k : string) :
  nullish v = true → get_property v k = Throw TypeError.
Proof. unfold get_property. by intros ->. Qed.

Lemma renderArmorChit_outcome (item : Item) (side : string) :
  (∀ e, renderArmorChit item side = Throw e → e = TypeError) ∧
  (nullish (attributeBlocks item !! "this") = true →
   renderArmorChit item side = Throw TypeError).
Proof.
  unfold renderArmorChit, get_property, getChitColor. cbv zeta. split.
  - intros e. simpl. split_completion; congruence.
  - intros ->. simpl. split_completion; done.
Qed.

Lemma renderWeaponChit_outcome (item : Item) (side : string) :
  (∀ e, renderWeaponChit item side = Throw e → e = TypeError) ∧
  (nullish (attributeBlocks item !! "this") = true →
   renderWeaponChit item side = Throw TypeError).
Proof.
  unfold renderWeaponChit, get_property, getChitColor. cbv zeta. split.
  - intros e. simpl. split_completion; congruence.
  - intros ->. simpl. split_completion; done.
Qed.

Lemma renderTreasureChit_outcome (item : Item) :
  (∀ e, renderTreasureChit item = Throw e → e = TypeError) ∧
  (nullish (attributeBlocks item !! "this") = true →
   renderTreasureChit item = Throw TypeError).
Proof.
  unfold renderTreasureChit, get_property, getChitColor. cbv zeta. split.
  - intros e. simpl. split_completion; congruence.
  - intros ->. done.
Qed.

Lemma isSpell_nullish (blocks : gmap string JSON) :
  nullish (blocks !! "this") = true → isSpell blocks = false.
Proof.
  unfold isSpell. by destruct (blocks !! "this") as [[]|].
Qed.

(** What [renderEquipmentTooltip] does for a cached record. *)
Lemma renderEquipmentTooltip_cached
    (itemCache : gmap string Item) (n : string) (item : Item) :
  itemCache !! n = Some item →
  let blocks := attributeBlocks item in
  let sections :=
    {| shows_spell := isSpell blocks; shows_armor := isArmor blocks;
       shows_weapon := isWeapon blocks;
       shows_treasure :=
         negb (isArmor blocks) && negb (isWeapon blocks) &&
         negb (isSpell blocks) |} in
  (renderEquipmentTooltip itemCache n = Normal (Some sections) ∨
   renderEquipmentTooltip itemCache n = Throw TypeError) ∧
  (nullish (blocks !! "this") = true →
   renderEquipmentTooltip itemCache n = Throw TypeError).
Proof.
  intros Hitem blocks sections. subst blocks sections.
  unfold renderEquipmentTooltip. rewrite Hitem. cbv zeta.
  destruct (renderArmorChit_outcome item "intact") as [Hai Hai'].
  destruct (renderArmorChit_outcome item "damaged") as [Had Had'].
  destruct (renderWeaponChit_outcome item "unalerted") as [Hwu Hwu'].
  destruct (renderWeaponChit_outcome item "alerted") as [Hwa Hwa'].
  destruct (renderTreasureChit_outcome item) as [Ht Ht'].
  split.
  - assert (Hspell :
      (if isSpell (attributeBlocks item)
       then _ ← get_property (attributeBlocks item !! "this") "spell";
            _ ← get_property (attributeBlocks item !! "this") "duration";
            _ ← get_property (attributeBlocks item !! "this") "magic_color";
            _ ← get_property (attributeBlocks item !! "this") "target";
            _ ← get_property (attributeBlocks item !! "this") "text";
            Normal ()
       else Normal ()) = Normal () ∨
      (if isSpell (attributeBlocks item)
       then _ ← get_property (attributeBlocks item !! "this") "spell";
            _ ← get_property (attributeBlocks item !! "this") "duration";
            _ ← get_property (attributeBlocks item !! "this") "magic_color";
            _ ← get_property (attributeBlocks item !! "this") "target";
            _ ← get_property (attributeBlocks item !! "this") "text";
            Normal ()
       else Normal ()) = Throw TypeError).
    { unfold get_property.
      destruct (isSpell (attributeBlocks item)); [|by left].
      destruct (nullish (attributeBlocks item !! "this")); [by right | by left]. }
    destruct Hspell as [-> | ->]; [|by right]. cbn [mbind Completion_bind].
    destruct (isArmor (attributeBlocks item)).
    + destruct (renderArmorChit item "intact") as [[]|e] eqn:H1;
        [|rewrite (Hai e eq_refl); by right].
      cbn [mbind Completion_bind].
      destruct (renderArmorChit item "damaged") as [[]|e] eqn:H2;
        [|rewrite (Had e eq_refl); by right].
      cbn [mbind Completion_bind].
      destruct (isWeapon (attributeBlocks item)).
      * destruct (renderWeaponChit item "unalerted") as [[]|e] eqn:H3;
          [|rewrite (Hwu e eq_refl); by right].
        cbn [mbind Completion_bind].
        destruct (renderWeaponChit item "alerted") as [[]|e] eqn:H4;
          [|rewrite (Hwa e eq_refl); by right].
        cbn [mbind Completion_bind negb andb]. by left.
      * cbn [mbind Completion_bind negb andb]. by left.
    + cbn [mbind Completion_bind].
      destruct (isWeapon (attributeBlocks item)).
      * destruct (renderWeaponChit item "unalerted") as [[]|e] eqn:H3;
          [|rewrite (Hwu e eq_refl); by right].
        cbn [mbind Completion_bind].
        destruct (renderWeaponChit item "alerted") as [[]|e] eqn:H4;
          [|rewrite (Hwa e eq_refl); by right].
        cbn [mbind Completion_bind negb andb]. by left.
      * cbn [mbind Completion_bind negb andb].
        destruct (isSpell (attributeBlocks item));
          cbn [mbind Completion_bind negb andb]; [by left |].
        destruct (renderTreasureChit item) as [[]|e] eqn:H5;
          [by left | rewrite (Ht e eq_refl); by right].
  - intros Hnull. rewrite (isSpell_nullish _ Hnull).
    cbn [mbind Completion_bind].
    destruct (isArmor (attributeBlocks item)).
    + by rewrite (Hai' Hnull).
    + cbn [mbind Completion_bind].
      destruct (isWeapon (attributeBlocks item)).
      * by rewrite (Hwu' Hnull).
      * cbn [mbind Completion_bind negb andb]. by rewrite (Ht' Hnull).
Qed.

(** X3. The tooltip of a cached item and its category.
    [renderEquipmentTooltip] returns [null] exactly for a name without a
    cached record.  For a cached record it throws a [TypeError] whenever
    the record has no [this] block, and it throws nothing but
    [TypeError]s.  When it returns the tooltip, the record has a [this]
    block; the treasure section is shown exactly when the record fails
    the armor, weapon and spell tests; a record shown as an armor is of
    category armor, one shown as a weapon and not as an armor is a weapon,
    one shown as a spell only is a spell; and a record of another category
    than these three is shown as a treasure. *)
Theorem tooltip_sections_and_category
    (itemCache : gmap string Item) (n : string) :
  (renderEquipmentTooltip itemCache n = Normal None ↔
   itemCache !! n = None) ∧
  (∀ cached, itemCache !! n = Some cached →
     nullish (attributeBlocks cached !! "this") = true →
     renderEquipmentTooltip itemCache n = Throw TypeError) ∧
  (∀ e, renderEquipmentTooltip itemCache n = Throw e → e = TypeError) ∧
  ∀ t, renderEquipmentTooltip itemCache n = Normal (Some t) →
    let cat := getItemCategory itemCache n in
    (∃ cached, itemCache !! n = Some cached ∧
               nullish (attributeBlocks cached !! "this") = false) ∧
    (shows_treasure t = true ↔
     shows_armor t = false ∧ shows_weapon t = false ∧
     shows_spell t = false) ∧
    (shows_armor t = true → cat = Armor) ∧
    (shows_armor t = false → shows_weapon t = true → cat = Weapon) ∧
    (shows_armor t = false → shows_weapon t = false →
     shows_spell t = true → cat = Spell) ∧
    (cat ∉ [Armor; Weapon; Spell] → shows_treasure t = true).
Proof.
  split_and!.
  - split.
    + intros Hnull. destruct (itemCache !! n) as [item|] eqn:Hitem; [|done].
      destruct (renderEquipmentTooltip_cached itemCache n item Hitem)
        as [[H|H] _]; congruence.
    + intros Hnone. unfold renderEquipmentTooltip. by rewrite Hnone.
  - intros cached Hc Hnull.
    by apply (renderEquipmentTooltip_cached itemCache n cached Hc).
  - intros e He. destruct (itemCache !! n) as [item|] eqn:Hitem.
    + destruct (renderEquipmentTooltip_cached itemCache n item Hitem)
        as [[H|H] _]; congruence.
    + unfold renderEquipmentTooltip in He. by rewrite Hitem in He.
  - intros t Ht.
    destruct (getItemCategory_cases itemCache n)
      as [[Hnone _]|(cached & Hc & Hcases)].
    { unfold renderEquipmentTooltip in Ht. by rewrite Hnone in Ht. }
    destruct (renderEquipmentTooltip_cached itemCache n cached Hc)
      as [[H|H] Hthrow]; [|congruence].
    cbv zeta in H. rewrite H in Ht. injection Ht as <-.
    split.
    { exists cached. split; [done |].
      destruct (nullish (attributeBlocks cached !! "this")) eqn:Hnull;
        [|done].
      rewrite (Hthrow eq_refl) in H. discriminate H. }
    cbn [shows_spell shows_armor shows_weapon shows_treasure].
    cbv zeta in Hcases.
    destruct (isArmor (attributeBlocks cached)) eqn:Ha,
      (isWeapon (attributeBlocks cached)) eqn:Hw,
      (isSpell (attributeBlocks cached)) eqn:Hs; cbn [negb andb];
    destruct Hcases as [(? & Hcat)|[(? & ? & Hcat)|[(? & ? & ? & Hcat)|
      [(? & ? & ? & ? & ? & Hcat)|[(? & ? & ? & ? & ? & Hcat)|
      (? & ? & ? & ? & Hcat)]]]]]; try done;
    (split_and!; [by intuition | done.. | try done]);
    try (intros Hnot; exfalso; apply Hnot; rewrite Hcat;
         repeat first [apply list_elem_of_here | apply list_elem_of_further]).
Qed.

Lemma dedupe_by_name_spec (raw : list Inv.entry) (seenNames : list string) :
  NoDup (dedupe_by_name seenNames raw) ∧
  ∀ n, n ∈ dedupe_by_name seenNames raw ↔
       (n ∉ seenNames) ∧ n ≠ "" ∧ ∃ e, e ∈ raw ∧ Inv.name e = Some n.
Proof.
  revert seenNames. induction raw as [|e raw IH]; intros seenNames.
  - split; [constructor |]. intros n. split.
    + by intros ?%elem_of_nil.
    + intros (_ & _ & e & []%elem_of_nil & _).
  - assert (Hcons : ∀ n, (∃ e', e' ∈ e :: raw ∧ Inv.name e' = Some n) ↔
                         Inv.name e = Some n ∨
                         ∃ e', e' ∈ raw ∧ Inv.name e' = Some n).
    { intros n. split.
      - intros (e' & [->|?]%elem_of_cons & ?); [by left | right; by eauto].
      - intros [?|(e' & ? & ?)]; [exists e | exists e'];
          (split; [|done]); [by left | by right]. }
    cbn [dedupe_by_name]. destruct (Inv.name e) as [m|] eqn:Hm.
    2: { destruct (IH seenNames) as [Hnd Hin]. split; [done |].
         intros n. rewrite Hin, Hcons. split; [tauto |].
         intros (? & ? & [[=]|?]); tauto. }
    destruct (String.eqb_spec m "") as [->|Hne].
    { destruct (IH seenNames) as [Hnd Hin]. split; [done |].
      intros n. rewrite Hin, Hcons. split; [tauto |].
      intros (? & Hn & [[= Hmn]|?]); [by destruct Hn | tauto]. }
    destruct (decide (m ∈ seenNames)) as [Hseen|Hnew].
    { destruct (IH seenNames) as [Hnd Hin]. split; [done |].
      intros n. rewrite Hin, Hcons. split; [tauto |].
      intros (Hns & ? & [[= Hmn]|?]); [by subst n | tauto]. }
    destruct (IH (set_add m seenNames)) as [Hnd Hin]. split.
    + constructor; [|done]. rewrite Hin, elem_of_set_add. tauto.
    + intros n. rewrite elem_of_cons, Hin, elem_of_set_add, Hcons.
      split.
      * intros [->|(Hn & ? & ?)]; [by eauto |].
        split_and!; [tauto | done | tauto].
      * intros (? & ? & [[= ->]|?]); [by left |].
        destruct (decide (n = m)) as [->|?]; [by left | right].
        split_and!; [tauto | done..].
Qed.

(** X4. The items of a character box have distinct names; they are the
    non-empty names of the entries of the character's buckets (none when
    the character has no inventory); and each of them is among the names
    the cache builders and the prefetch collect from the inventories the
    character belongs to. *)
Theorem box_items_spec (inventory : option Inv.items_t) :
  NoDup (box_items inventory) ∧
  (∀ n, n ∈ box_items inventory ↔
        n ≠ "" ∧ ∃ its xs, inventory = Some its ∧ Some xs ∈ buckets its ∧
                           Some {| Inv.name := Some n |} ∈ xs) ∧
  ∀ (inventories : Inv.t) character its n,
    inventory = Some its →
    (character, Some {| Inv.items := Some its |}) ∈ inventories →
    n ∈ box_items inventory → n ∈ allItems inventories.
Proof.
  assert (Hin : ∀ n, n ∈ box_items inventory ↔
        n ≠ "" ∧ ∃ its xs, inventory = Some its ∧ Some xs ∈ buckets its ∧
                           Some {| Inv.name := Some n |} ∈ xs).
  { intros n. unfold box_items.
    rewrite (proj2 (dedupe_by_name_spec _ [])). split.
    - intros (_ & Hn & e & (xs & Hxs & He)%elem_of_filter_Boolean_flat & Hname).
      split; [done |]. destruct inventory as [its|].
      + exists its, xs. split_and!; [done | done |].
        destruct e as [m]. simpl in Hname. by subst m.
      + repeat (apply elem_of_cons in Hxs as [[=]|Hxs]).
        by apply elem_of_nil in Hxs.
    - intros (Hn & its & xs & -> & Hxs & He).
      split_and!; [apply not_elem_of_nil | done |].
      exists {| Inv.name := Some n |}. split; [|done].
      apply elem_of_filter_Boolean_flat. by exists xs. }
  split_and!.
  - apply dedupe_by_name_spec.
  - exact Hin.
  - intros inventories character its n -> Hchar (Hn & its' & xs & [= <-] & ? & ?)%Hin.
    apply elem_of_allItems. split; [done |]. by exists character, its, xs.
Qed.

Lemma cat_is_cases (cat : Category) :
  (cat_is cat "weapon" = true ↔ cat = Weapon) ∧
  (cat_is cat "armor" = true ↔ cat = Armor) ∧
  (cat_is cat "spell" = true ↔ cat = Spell) ∧
  (cat_is cat "treasure" = true ↔ cat = Treasure) ∧
  (cat_is cat "great_treasure" = true ↔ cat = GreatTreasure) ∧
  (cat_is cat "other" = true ↔ cat = Other).
Proof. by destruct cat. Qed.

Lemma getItemCategory_Other (itemCache : gmap string Item) n :
  getItemCategory itemCache n = Other → name_includes n "treasure" = false.
Proof.
  intros Hother. apply categorizeItemByName_Other.
  destruct (getItemCategory_cases itemCache n)
    as [[_ Hcat]|(cached & _ & Hcases)]; [congruence |].
  cbv zeta in Hcases.
  destruct Hcases as [(_ & Hcat)|[(_ & _ & Hcat)|[(_ & _ & _ & Hcat)|
    [(_ & _ & _ & _ & _ & Hcat)|[(_ & _ & _ & _ & _ & Hcat)|
    (_ & _ & _ & _ & Hcat)]]]]]; congruence.
Qed.

(** The tests of the five lines, by category. *)
Lemma elem_of_equipmentItems itemCache items n :
  n ∈ equipmentItems itemCache items ↔
  n ∈ items ∧
  (getItemCategory itemCache n = Weapon ∨
   getItemCategory itemCache n = Armor ∨
   (getItemCategory itemCache n = Other ∧ name_includes n "spell" = false)).
Proof.
  unfold equipmentItems. rewrite list_elem_of_filter. cbv zeta.
  pose proof (getItemCategory_Other itemCache n) as Htreasure.
  destruct (cat_is_cases (getItemCategory itemCache n))
    as (Hw & Ha & _ & _ & _ & Ho).
  rewrite cat_is_mount, orb_false_r, !orb_true_iff, !andb_true_iff,
    !negb_true_iff, Hw, Ha, Ho.
  split; [tauto |]. intros (? & [?|[?|[? ?]]]); [tauto | tauto |].
  split; [|done]. right. split; [|done]. split; [done | by apply Htreasure].
Qed.

Lemma elem_of_treasureItems itemCache items n :
  n ∈ treasureItems itemCache items ↔
  n ∈ items ∧ getItemCategory itemCache n = Treasure ∧
  name_includes n "great" = false ∧ isLargeTreasure itemCache n = false.
Proof.
  unfold treasureItems. rewrite list_elem_of_filter. cbv zeta.
  destruct (cat_is_cases (getItemCategory itemCache n))
    as (_ & _ & _ & Ht & _ & _).
  rewrite !andb_true_iff, !negb_true_iff, Ht. tauto.
Qed.

Lemma elem_of_greatTreasureItems itemCache items n :
  n ∈ greatTreasureItems itemCache items ↔
  n ∈ items ∧
  (getItemCategory itemCache n = GreatTreasure ∨
   (getItemCategory itemCache n = Treasure ∧ name_includes n "great" = true)).
Proof.
  unfold greatTreasureItems. rewrite list_elem_of_filter.
  destruct (cat_is_cases (getItemCategory itemCache n))
    as (_ & _ & _ & Ht & Hg & _).
  rewrite orb_true_iff, andb_true_iff, Ht, Hg. tauto.
Qed.

Lemma elem_of_spellItems itemCache items n :
  n ∈ spellItems itemCache items ↔
  n ∈ items ∧ getItemCategory itemCache n = Spell.
Proof.
  unfold spellItems. rewrite list_elem_of_filter.
  destruct (cat_is_cases (getItemCategory itemCache n))
    as (_ & _ & Hs & _ & _ & _).
  rewrite Hs. tauto.
Qed.

Lemma elem_of_largeTreasureItems itemCache items n :
  n ∈ largeTreasureItems itemCache items ↔
  n ∈ items ∧ isLargeTreasure itemCache n = true.
Proof. unfold largeTreasureItems. rewrite list_elem_of_filter. tauto. Qed.

(** X5. The items a character box leaves out.  An item of the box is on
    none of its five lines exactly when [isLargeTreasure] is false for it
    and its category is native, or other with "spell" in its lowercased
    name; every other item is on a line. *)
Theorem items_on_no_line
    (itemCache : gmap string Item) (items : list string) (n : string) :
  (n ∈ items ∧
   (n ∉ equipmentItems itemCache items) ∧
   (n ∉ treasureItems itemCache items) ∧
   (n ∉ largeTreasureItems itemCache items) ∧
   (n ∉ greatTreasureItems itemCache items) ∧
   (n ∉ spellItems itemCache items)) ↔
  (n ∈ items ∧ isLargeTreasure itemCache n = false ∧
   (getItemCategory itemCache n = Native ∨
    (getItemCategory itemCache n = Other ∧ name_includes n "spell" = true))).
Proof.
  rewrite elem_of_equipmentItems, elem_of_treasureItems,
    elem_of_largeTreasureItems, elem_of_greatTreasureItems,
    elem_of_spellItems.
  pose proof (category_large := LargeTreasure_isLargeTreasure itemCache n).
  destruct (isLargeTreasure itemCache n);
    destruct (name_includes n "great"), (name_includes n "spell");
    destruct (getItemCategory itemCache n);
    try (specialize (category_large eq_refl));
    split; intros H; try discriminate;
    repeat match goal with
           | H : _ ∧ _ |- _ => destruct H
           end;
    try (split_and!; try done; intuition congruence);
    exfalso; intuition congruence.
Qed.

(** X6. No item is twice among the equipment, the treasures, the great
    treasures and the spells of a box, and none is both a treasure and a
    large treasure; each line lists the items in the order of the box,
    without repetition; and the count [gt] is at most the length of the
    line of great treasures, while the line of spells has [spellCount]
    items. *)
Theorem box_lines_disjoint
    (itemCache : gmap string Item) (inventory : option Inv.items_t) :
  let items := box_items inventory in
  let equipment := equipmentItems itemCache items in
  let treasures := treasureItems itemCache items in
  let large := largeTreasureItems itemCache items in
  let great := greatTreasureItems itemCache items in
  let spells := spellItems itemCache items in
  (∀ n, ¬ (n ∈ equipment ∧ n ∈ treasures) ∧
        ¬ (n ∈ equipment ∧ n ∈ great) ∧
        ¬ (n ∈ equipment ∧ n ∈ spells) ∧
        ¬ (n ∈ treasures ∧ n ∈ great) ∧
        ¬ (n ∈ treasures ∧ n ∈ spells) ∧
        ¬ (n ∈ great ∧ n ∈ spells) ∧
        ¬ (n ∈ treasures ∧ n ∈ large)) ∧
  NoDup equipment ∧ NoDup treasures ∧ NoDup large ∧ NoDup great ∧
  NoDup spells ∧
  (gtCount itemCache items ≤ length great)%nat ∧
  spellCount itemCache items = length spells.
Proof.
  cbv zeta. set (items := box_items inventory).
  assert (Hnd : NoDup items) by apply dedupe_by_name_spec.
  split_and!; try (by apply NoDup_filter).
  - intros n. rewrite elem_of_equipmentItems, elem_of_treasureItems,
      elem_of_largeTreasureItems, elem_of_greatTreasureItems,
      elem_of_spellItems.
    split_and!; intros H; intuition congruence.
  - unfold gtCount, greatTreasureItems.
    generalize items. clear. intros l.
    induction l as [|n l IH]; [done |].
    rewrite !filter_cons.
    destruct (cat_is (getItemCategory itemCache n) "great_treasure");
      cbn [orb].
    + rewrite !decide_True by done. simpl. lia.
    + rewrite (decide_False (P := false = true)) by done.
      case_decide; simpl; lia.
  - done.
Qed.

(** ** The prefetch of the page *)

Lemma batches_from_concat (itemArray : list string) fuel i :
  length itemArray - i ≤ fuel →
  concat (batches_from fuel i itemArray) = drop i itemArray.
Proof.
  revert i. induction fuel as [|fuel IH]; intros i Hfuel; simpl.
  - symmetry. apply drop_ge. lia.
  - destruct (Nat.ltb_spec i (length itemArray)) as [Hlt|Hge]; simpl.
    + rewrite IH by (unfold batchSize; lia). unfold slice, batchSize.
      replace (i + 5 - i) with 5 by lia.
      rewrite <- (drop_drop itemArray 5 i). apply take_drop.
    + symmetry. apply drop_ge. lia.
Qed.

Lemma batches_from_lookup (itemArray : list string) fuel i k batch :
  batches_from fuel i itemArray !! k = Some batch →
  batch = take batchSize (drop (i + batchSize * k) itemArray) ∧
  i + batchSize * k < length itemArray.
Proof.
  revert i k batch.
  induction fuel as [|fuel IH]; intros i k batch; simpl; [done |].
  destruct (Nat.ltb_spec i (length itemArray)) as [Hlt|Hge]; [|done].
  destruct k as [|k]; simpl.
  - intros [= <-]. unfold slice, batchSize.
    replace (i + 0) with i by lia. replace (i + 5 - i) with 5 by lia.
    done.
  - intros Hk. apply IH in Hk as [-> Hlen]. unfold batchSize in *.
    split; [f_equal; f_equal; lia | lia].
Qed.

Lemma batches_from_more_fuel (itemArray : list string) fuel fuel' i :
  length itemArray - i ≤ fuel → length itemArray - i ≤ fuel' →
  batches_from fuel i itemArray = batches_from fuel' i itemArray.
Proof.
  revert fuel' i. induction fuel as [|fuel IH]; intros fuel' i H H'.
  - destruct fuel' as [|fuel']; [done |]. simpl.
    destruct (Nat.ltb_spec i (length itemArray)); [lia | done].
  - destruct fuel' as [|fuel']; simpl.
    + destruct (Nat.ltb_spec i (length itemArray)); [lia | done].
    + destruct (Nat.ltb_spec i (length itemArray)); [|done].
      f_equal. apply IH; unfold batchSize; lia.
Qed.

(** X7. The batches of the prefetch.  Put end to end they are the array
    of names; the batch of index [k] holds the five names from position
    [5 k] on, or those that are left, and there is at least one; and the
    loop is over within as many iterations as the array has names: more
    fuel gives the same batches. *)
Theorem batches_spec (itemArray : list string) :
  concat (batches itemArray) = itemArray ∧
  (∀ k batch, batches itemArray !! k = Some batch →
     batch = take 5 (drop (5 * k) itemArray) ∧
     1 ≤ length batch ≤ 5 ∧
     (5 * k + 5 ≤ length itemArray → length batch = 5)) ∧
  ∀ fuel, length itemArray ≤ fuel →
    batches_from fuel 0 itemArray = batches itemArray.
Proof.
  unfold batches. split_and!.
  - by rewrite batches_from_concat by lia.
  - intros k batch [-> Hlt]%batches_from_lookup.
    unfold batchSize in *. replace (0 + 5 * k) with (5 * k) in * by lia.
    split; [done |]. rewrite length_take, length_drop. lia.
  - intros fuel Hfuel. apply batches_from_more_fuel; lia.
Qed.





(** ** Blocked actions *)

Lemma substring_all (s : string) : String.substring 0 (String.length s) s = s.
Proof. induction s as [|c s IH]; simpl; [done | by rewrite IH]. Qed.

Lemma string_length_app (a b : string) :
  String.length (a ++ b) = String.length a + String.length b.
Proof.
  induction a as [|c a IH]; [done |].
  rewrite string_app_cons. simpl. by rewrite IH.
Qed.

Lemma substring_after (a b : string) :
  String.substring (String.length a) (String.length b) (a ++ b)%string = b.
Proof.
  induction a as [|c a IH]; [apply substring_all |].
  rewrite string_app_cons. simpl. exact IH.
Qed.

(** Dropping a phrase from a text that starts with it leaves the rest;
    a text that does not hold the phrase is left as it is. *)
Lemma replace_first_prefix (pattern rest : string) :
  replace_first (pattern ++ rest) pattern = rest.
Proof.
  assert (Hp : String.prefix pattern (pattern ++ rest) = true).
  { apply prefix_true_iff. by exists rest. }
  destruct pattern as [|c p]; [by destruct rest; simpl; rewrite ?substring_all |].
  rewrite string_app_cons in *. cbn [replace_first]. rewrite Hp.
  rewrite <- string_app_cons, string_length_app.
  replace (String.length (String c p) + String.length rest
           - String.length (String c p)) with (String.length rest) by lia.
  apply substring_after.
Qed.

Lemma replace_first_absent (s pattern : string) :
  includes s pattern = false → replace_first s pattern = s.
Proof.
  induction s as [|c s IH]; cbn [includes replace_first].
  - intros ->%orb_false_elim%proj1. done.
  - intros [-> Hs]%orb_false_elim. by rewrite IH.
Qed.

Lemma prefix_of_prefix (p q s : string) :
  String.prefix p q = true → String.prefix q s = true →
  String.prefix p s = true.
Proof.
  rewrite !prefix_true_iff. intros [r ->] [r' ->].
  exists (r ++ r')%string. by rewrite string_app_assoc.
Qed.

(** X10. [getBlockedActionType] reads the code that is left when the
    first "Cannot perform action " is dropped from the result (the rest of
    the text when the result starts with the phrase, the whole text when it
    does not hold it).  It answers with one of eleven names, never with
    "Remove Enchant": a code that starts with "RE" starts with "R", which
    is tested before, and is a "Rest".  It answers "Action" exactly for a
    code that starts with none of "M-", "H", "S", "T", "R", "A", "F", "E",
    "P" and "C". *)
Theorem getBlockedActionType_spec (result : string) :
  let code := replace_first result "Cannot perform action " in
  (∀ rest, result = ("Cannot perform action " ++ rest)%string →
           code = rest) ∧
  (includes result "Cannot perform action " = false → code = result) ∧
  getBlockedActionType result ∈
    ["Move"; "Hide"; "Search"; "Trade"; "Rest"; "Alert"; "Follow";
     "Enchant"; "Peer"; "Cache"; "Action"] ∧
  getBlockedActionType result ≠ "Remove Enchant" ∧
  (String.prefix "RE" code = true → getBlockedActionType result = "Rest") ∧
  (getBlockedActionType result = "Action" ↔
   ∀ p, p ∈ ["M-"; "H"; "S"; "T"; "R"; "A"; "F"; "E"; "P"; "C"] →
        String.prefix p code = false).
Proof.
  intros code.
  assert (Hlabels : getBlockedActionType result ∈
    ["Move"; "Hide"; "Search"; "Trade"; "Rest"; "Alert"; "Follow";
     "Enchant"; "Peer"; "Cache"; "Action"]).
  { unfold getBlockedActionType. fold code.
    unfold BLOCKED_ACTION_MAP. cbn [first_prefix].
    destruct (String.prefix "R" code) eqn:HR.
    - repeat match goal with
             | |- context [if ?c then _ else _] => destruct c
             end;
        repeat first [apply list_elem_of_here | apply list_elem_of_further].
    - assert (HRE : String.prefix "RE" code = false).
      { destruct (String.prefix "RE" code) eqn:HRE; [|done].
        by rewrite (prefix_of_prefix "R" "RE" code eq_refl HRE) in HR. }
      rewrite HRE.
      repeat match goal with
             | |- context [if ?c then _ else _] => destruct c
             end;
        repeat first [apply list_elem_of_here | apply list_elem_of_further]. }
  split_and!.
  - intros rest ->. apply replace_first_prefix.
  - apply replace_first_absent.
  - exact Hlabels.
  - intros Heq. rewrite Heq in Hlabels. absurd_elem Hlabels.
  - intros HRE.
    pose proof (prefix_of_prefix "R" "RE" code eq_refl HRE) as HR.
    assert (HM : String.prefix "M-" code = false).
    { destruct (String.prefix "M-" code) eqn:HM; [|done].
      apply prefix_true_iff in HM as [r Hr].
      apply prefix_true_iff in HR as [r' Hr'].
      rewrite Hr in Hr'. discriminate Hr'. }
    assert (Hfirst : ∀ p, p ∈ ["H"; "S"; "T"] → String.prefix p code = false).
    { intros p Hp. destruct (String.prefix p code) eqn:Hpc; [|done].
      apply prefix_true_iff in Hpc as [r Hr].
      apply prefix_true_iff in HR as [r' Hr'].
      rewrite Hr in Hr'.
      repeat (apply elem_of_cons in Hp as [->|Hp]; [discriminate Hr' |]).
      by apply elem_of_nil in Hp. }
    unfold getBlockedActionType. fold code.
    unfold BLOCKED_ACTION_MAP. cbn [first_prefix].
    rewrite HM, (Hfirst "H"), (Hfirst "S"), (Hfirst "T"), HR;
      [done | repeat first [apply list_elem_of_here
                           | apply list_elem_of_further] ..].
  - unfold getBlockedActionType. fold code.
    unfold BLOCKED_ACTION_MAP. cbn [first_prefix]. split.
    + intros Haction p Hp.
      destruct (String.prefix "M-" code) eqn:HM; [discriminate |].
      destruct (String.prefix "H" code) eqn:HH; [discriminate |].
      destruct (String.prefix "S" code) eqn:HS; [discriminate |].
      destruct (String.prefix "T" code) eqn:HT; [discriminate |].
      destruct (String.prefix "R" code) eqn:HR; [discriminate |].
      destruct (String.prefix "A" code) eqn:HA; [discriminate |].
      destruct (String.prefix "F" code) eqn:HF; [discriminate |].
      destruct (String.prefix "EX" code) eqn:HEX; [discriminate |].
      destruct (String.prefix "E" code) eqn:HE; [discriminate |].
      destruct (String.prefix "P" code) eqn:HP; [discriminate |].
      destruct (String.prefix "RE" code) eqn:HRE; [discriminate |].
      destruct (String.prefix "C" code) eqn:HC; [discriminate |].
      repeat (apply elem_of_cons in Hp as [->|Hp]; [done |]).
      by apply elem_of_nil in Hp.
    + intros Hnone.
      assert (Hp : ∀ p q, p ∈ ["M-"; "H"; "S"; "T"; "R"; "A"; "F"; "E";
                                "P"; "C"] →
                   String.prefix p q = true → String.prefix q code = false).
      { intros p q Hin Hpq. destruct (String.prefix q code) eqn:Hq; [|done].
        pose proof (prefix_of_prefix p q code Hpq Hq) as Hpc.
        by rewrite (Hnone p Hin) in Hpc. }
      rewrite (Hp "E" "EX"), (Hp "R" "RE");
        [| repeat first [apply list_elem_of_here
                        | apply list_elem_of_further] | done
         | repeat first [apply list_elem_of_here
                        | apply list_elem_of_further] | done].
      rewrite (Hnone "M-"), (Hnone "H"), (Hnone "S"), (Hnone "T"),
        (Hnone "R"), (Hnone "A"), (Hnone "F"), (Hnone "E"), (Hnone "P"),
        (Hnone "C");
        [done | repeat first [apply list_elem_of_here
                             | apply list_elem_of_further] ..].
Qed.

(** ** Statistics *)

Lemma count_turn_spec (acc : nat * list string) (turn : Turn) :
  (count_turn acc turn).1 = acc.1 + length (actions turn) ∧
  (NoDup acc.2 → NoDup (count_turn acc turn).2) ∧
  length (count_turn acc turn).2 ≤ length acc.2 + 1 ∧
  ∀ c, c ∈ (count_turn acc turn).2 ↔
       c ∈ acc.2 ∨ (includes c "HQ" = false ∧ character turn = c).
Proof.
  unfold count_turn. cbn [fst snd].
  destruct (includes (character turn) "HQ") eqn:HHQ.
  - split_and!; [done | done | lia |]. intros c.
    split; [by left | intros [?|[? <-]]; [done | congruence]].
  - split_and!; [done | apply NoDup_set_add | |].
    + unfold set_add. case_decide; [lia |]. rewrite length_app. simpl. lia.
    + intros c. rewrite elem_of_set_add. split.
      * intros [->|?]; [by right | by left].
      * intros [?|[? <-]]; [by right | by left].
Qed.

Lemma count_turns_spec (turns : list Turn) (acc : nat * list string) :
  let out := foldl count_turn acc turns in
  out.1 = acc.1 + sum_list_with (length ∘ actions) turns ∧
  (NoDup acc.2 → NoDup out.2) ∧
  length out.2 ≤ length acc.2 + length turns ∧
  ∀ c, c ∈ out.2 ↔
       c ∈ acc.2 ∨
       (includes c "HQ" = false ∧ ∃ turn, turn ∈ turns ∧ character turn = c).
Proof.
  revert acc. induction turns as [|turn turns IH]; intros acc; cbn [foldl].
  - cbv zeta. simpl. split_and!; [lia | done | lia |]. intros c.
    split; [by left |].
    intros [?|(_ & turn & []%elem_of_nil & _)]. done.
  - destruct (IH (count_turn acc turn)) as (Hsum & Hnd & Hlen & Hin).
    destruct (count_turn_spec acc turn) as (Hsum1 & Hnd1 & Hlen1 & Hin1).
    cbv zeta in *.
    assert (Hcons : ∀ c, (∃ t, t ∈ turn :: turns ∧ character t = c) ↔
                         character turn = c ∨
                         ∃ t, t ∈ turns ∧ character t = c).
    { intros c. split.
      - intros (t & [->|?]%elem_of_cons & ?); [by left | right; by eauto].
      - intros [?|(t & ? & ?)]; [exists turn | exists t];
          (split; [|done]); [by left | by right]. }
    split_and!.
    + rewrite Hsum, Hsum1. simpl. lia.
    + intros Hacc. by apply Hnd, Hnd1.
    + simpl. lia.
    + intros c. rewrite Hin, Hin1, Hcons. tauto.
Qed.

(** X11. The statistics of a session.  The totals are the sums over the
    days; the characters counted are the distinct characters of the turns
    whose name does not hold "HQ", so there are at most as many as there
    are turns; the players are the keys of [players]. *)
Theorem calculateStatistics_spec {P} (days : Obj DayData)
    (data_players : Obj P) :
  let stats := calculateStatistics days data_players in
  let turns := days.*2 ≫= characterTurns in
  totalCharacterTurns stats = length turns ∧
  totalBattles stats = sum_list_with (length ∘ battles) (days.*2) ∧
  totalActions stats = sum_list_with (length ∘ actions) turns ∧
  players stats = length data_players ∧
  uniqueCharacters stats ≤ totalCharacterTurns stats ∧
  ∃ counted,
    NoDup counted ∧ uniqueCharacters stats = length counted ∧
    ∀ c, c ∈ counted ↔
         includes c "HQ" = false ∧ ∃ turn, turn ∈ turns ∧ character turn = c.
Proof.
  unfold calculateStatistics.
  generalize (days.*2). clear days. intros days.
  assert (Hgen : ∀ (l : list DayData) t f a U,
    NoDup U →
    ∃ U', foldl count_day (t, f, (a, U)) l =
            (t + length (l ≫= characterTurns),
             f + sum_list_with (length ∘ battles) l,
             (a + sum_list_with (length ∘ actions) (l ≫= characterTurns),
              U')) ∧
          NoDup U' ∧
          length U' ≤ length U + length (l ≫= characterTurns) ∧
          ∀ c, c ∈ U' ↔
               c ∈ U ∨ (includes c "HQ" = false ∧
                        ∃ turn, turn ∈ l ≫= characterTurns ∧
                                character turn = c)).
  { induction l as [|day l IH]; intros t f a U HU.
    - exists U. simpl. rewrite !Nat.add_0_r.
      split_and!; [done | done | lia |]. intros c. split; [by left |].
      intros [?|(_ & turn & []%elem_of_nil & _)]. done.
    - cbn [foldl]. unfold count_day at 2.
      destruct (count_turns_spec (characterTurns day) (a, U))
        as (Hsum & Hnd & Hlen & Hin). cbv zeta in *.
      destruct (foldl count_turn (a, U) (characterTurns day))
        as [a1 U1] eqn:Hfold. cbn [fst snd] in *.
      destruct (IH (t + length (characterTurns day))
                  (f + length (battles day)) a1 U1 (Hnd HU))
        as (U' & Hrun & HndU' & HlenU' & HinU').
      exists U'. split_and!.
      + rewrite Hrun, bind_cons, length_app, sum_list_with_app.
        change (sum_list_with (length ∘ battles) (day :: l))
          with (length (battles day) + sum_list_with (length ∘ battles) l).
        subst a1. f_equal; [f_equal; lia | f_equal; lia].
      + done.
      + rewrite bind_cons, length_app. lia.
      + intros c. rewrite HinU', Hin, bind_cons.
        setoid_rewrite elem_of_app. split.
        * intros [[?|(? & turn & ? & ?)]|(? & turn & ? & ?)];
            [by left | right; split; [done |]; exists turn; tauto ..].
        * intros [?|(? & turn & [?|?] & ?)];
            [left; by left | left; right; by eauto | right; by eauto]. }
  destruct (Hgen days 0 0 0 [] (NoDup_nil_2))
    as (U' & -> & Hnd & Hlen & Hin).
  cbn [totalCharacterTurns totalBattles totalActions uniqueCharacters
       players]. simpl in Hlen.
  split_and!; [done | done | done | by unfold keys; rewrite length_fmap
               | lia |].
  exists U'. split_and!; [done | done |]. intros c. rewrite Hin.
  split; [intros [[]%elem_of_nil|?]; done | by right].
Qed.

(** ** The dead characters *)

Lemma string_app_inj_length (a b x y : string) :
  (a ++ x = b ++ y)%string → String.length a = String.length b → a = b.
Proof.
  revert b. induction a as [|c a IH]; intros [|c' b]; try done.
  rewrite !string_app_cons. intros [= -> Hrest] [= Hlen].
  f_equal. by apply IH.
Qed.

Lemma before_first_sound (s pattern n : string) :
  before_first s pattern = Some n →
  (∃ rest, s = (n ++ pattern ++ rest)%string) ∧
  ∀ n' rest', s = (n' ++ pattern ++ rest')%string →
              String.length n ≤ String.length n'.
Proof.
  revert n. induction s as [|c s IH]; intros n; cbn [before_first].
  - destruct (String.prefix pattern "") eqn:Hp; [|done].
    intros [= <-]. apply prefix_true_iff in Hp as [rest Hrest].
    split; [by exists rest | intros; simpl; lia].
  - destruct (String.prefix pattern (String c s)) eqn:Hp.
    + intros [= <-]. apply prefix_true_iff in Hp as [rest Hrest].
      split; [by exists rest | intros; simpl; lia].
    + destruct (before_first s pattern) as [m|]; [|done].
      intros [= <-]. destruct (IH m eq_refl) as [[rest ->] Hmin].
      split; [by exists rest |].
      intros [|c' n'] rest' Heq.
      * assert (String.prefix pattern (String c (m ++ pattern ++ rest))
                = true) as Htrue; [|by rewrite Htrue in Hp].
        apply prefix_true_iff. by exists rest'.
      * rewrite string_app_cons in Heq. injection Heq as _ Heq.
        specialize (Hmin n' rest' Heq). simpl. lia.
Qed.

Lemma before_first_complete (s pattern n rest : string) :
  s = (n ++ pattern ++ rest)%string →
  ∃ m, before_first s pattern = Some m ∧ String.length m ≤ String.length n.
Proof.
  revert n. induction s as [|c s IH]; intros n Hs; cbn [before_first].
  - destruct n as [|c' n]; [|done].
    rewrite (proj2 (prefix_true_iff pattern "")) by (by exists rest).
    exists EmptyString. split; [done | simpl; lia].
  - destruct (String.prefix pattern (String c s)) eqn:Hp.
    + exists EmptyString. split; [done | simpl; lia].
    + destruct n as [|c' n].
      * rewrite (proj2 (prefix_true_iff pattern (String c s))) in Hp
          by (by exists rest). done.
      * rewrite string_app_cons in Hs. injection Hs as -> Hs.
        destruct (IH n Hs) as (m & -> & Hlen).
        exists (String c' m). split; [done | simpl; lia].
Qed.

(** X12. The name [/^(.*?) was killed!/] captures.  [killed_name] gives
    a name [n] for a death text exactly when the text is [n], then
    " was killed!", then anything; [n] is the shortest such start of the
    text; and [n] holds no line terminator.  A text without " was killed!"
    gives no name. *)
Theorem killed_name_spec (death n : string) :
  (killed_name death = Some n ↔
   one_line n = true ∧
   (∃ rest, death = (n ++ " was killed!" ++ rest)%string) ∧
   ∀ n' rest', death = (n' ++ " was killed!" ++ rest')%string →
               String.length n ≤ String.length n') ∧
  (includes death " was killed!" = false → killed_name death = None).
Proof.
  unfold killed_name. split.
  - split.
    + destruct (before_first death " was killed!") as [m|] eqn:Hm; [|done].
      destruct (one_line m) eqn:Hline; [|done]. intros [= <-].
      split; [done |]. by apply before_first_sound.
    + intros (Hline & [rest Hrest] & Hmin).
      destruct (before_first_complete death " was killed!" n rest Hrest)
        as (m & Hm & Hlen).
      rewrite Hm.
      destruct (before_first_sound _ _ _ Hm) as [[rest' Hrest'] _].
      assert (m = n) as ->.
      { apply (string_app_inj_length m n (" was killed!" ++ rest')
                 (" was killed!" ++ rest)); [congruence |].
        specialize (Hmin m rest' Hrest'). lia. }
      by rewrite Hline.
  - intros Hnone.
    destruct (before_first death " was killed!") as [m|] eqn:Hm; [|done].
    destruct (before_first_sound _ _ _ Hm) as [[rest Hrest] _].
    assert (includes death " was killed!" = true) as Htrue;
      [|by rewrite Htrue in Hnone].
    apply includes_true_iff. by exists m, rest.
Qed.

Lemma foldl_set_membership {A} (f : list string → A → list string)
    (P : A → string → Prop) :
  (∀ s a n, n ∈ f s a ↔ n ∈ s ∨ P a n) →
  ∀ l s n, n ∈ foldl f s l ↔ n ∈ s ∨ ∃ a, a ∈ l ∧ P a n.
Proof.
  intros Hf l. induction l as [|a l IH]; intros s n; cbn [foldl].
  - split; [by left | intros [?|(a & []%elem_of_nil & _)]; done].
  - rewrite IH, Hf. split.
    + intros [[?|?]|(b & ? & ?)]; [by left | right | right].
      * exists a. split; [by left | done].
      * exists b. split; [by right | done].
    + intros [?|(b & [->|?]%elem_of_cons & ?)];
        [left; by left | left; by right | right; by exists b].
Qed.

Lemma foldl_NoDup {A} (f : list string → A → list string) :
  (∀ s a, NoDup s → NoDup (f s a)) →
  ∀ l s, NoDup s → NoDup (foldl f s l).
Proof.
  intros Hf l. induction l as [|a l IH]; intros s Hs; cbn [foldl]; [done |].
  by apply IH, Hf.
Qed.

(** What it is for a session to record the death of [n]. *)
Lemma elem_of_add_deaths dead round n :
  n ∈ add_deaths dead round ↔
  n ∈ dead ∨ ∃ death, death ∈ deaths round ∧ killed_name death = Some n.
Proof.
  unfold add_deaths.
  apply (foldl_set_membership _ (λ death n, killed_name death = Some n)).
  intros s death m. destruct (killed_name death) as [k|].
  - rewrite elem_of_set_add. split; [intros [->|?]; tauto |].
    intros [?|[= ->]]; tauto.
  - split; [tauto | intros [?|[=]]; done].
Qed.

Lemma NoDup_add_deaths dead round : NoDup dead → NoDup (add_deaths dead round).
Proof.
  unfold add_deaths. apply foldl_NoDup. intros s death Hs.
  destruct (killed_name death); [by apply NoDup_set_add | done].
Qed.

Lemma elem_of_add_day_deaths days dead dayKey n :
  n ∈ add_day_deaths days dead dayKey ↔
  n ∈ dead ∨
  ∃ day battle round death,
    days !! dayKey = Some day ∧ battle ∈ battles day ∧
    round ∈ rounds battle ∧ death ∈ deaths round ∧
    killed_name death = Some n.
Proof.
  unfold add_day_deaths. destruct (days !! dayKey) as [day|].
  - rewrite (foldl_set_membership _
      (λ battle n, ∃ round death, round ∈ rounds battle ∧
                                  death ∈ deaths round ∧
                                  killed_name death = Some n)).
    + split.
      * intros [?|(battle & ? & round & death & ? & ? & ?)]; [by left |].
        right. by exists day, battle, round, death.
      * intros [?|(day' & battle & round & death & [= <-] & ? & ? & ? & ?)];
          [by left |]. right. exists battle. split; [done |].
        by exists round, death.
    + intros s battle m.
      rewrite (foldl_set_membership _
        (λ round n, ∃ death, death ∈ deaths round ∧
                             killed_name death = Some n)).
      * split; [intros [?|(round & ? & death & ? & ?)] |
                intros [?|(round & death & ? & ? & ?)]];
          [by left | right; by exists round, death | by left |].
        right. exists round. split; [done |]. by exists death.
      * intros s' round m'. apply elem_of_add_deaths.
  - split; [by left | intros [?|(? & ? & ? & ? & [=] & _)]; done].
Qed.

(** X13. The dead characters.  The set holds exactly the names that
    [killed_name] reads from a death of a round of a battle of a day the
    keys reach, each once; so it is the same set in whatever order the
    sort of the day keys leaves them. *)
Theorem dead_characters_spec (days : gmap string DayData)
    (sortedDayKeys : list string) :
  NoDup (dead_characters days sortedDayKeys) ∧
  (∀ n, n ∈ dead_characters days sortedDayKeys ↔
        records_death days sortedDayKeys n) ∧
  ∀ dayKeys,
    (∀ k, k ∈ dayKeys ↔ k ∈ sortedDayKeys) →
    ∀ n, n ∈ dead_characters days dayKeys ↔
         n ∈ dead_characters days sortedDayKeys.
Proof.
  assert (Hin : ∀ keys n, n ∈ dead_characters days keys ↔
                           records_death days keys n).
  { intros keys n. unfold dead_characters, records_death.
    rewrite (foldl_set_membership _
      (λ dayKey n, ∃ day battle round death,
         days !! dayKey = Some day ∧ battle ∈ battles day ∧
         round ∈ rounds battle ∧ death ∈ deaths round ∧
         killed_name death = Some n)).
    - split.
      + intros [[]%elem_of_nil|(k & ? & day & battle & round & death & ?)].
        exists k, day, battle, round, death. tauto.
      + intros (k & day & battle & round & death & ? & ?). right.
        exists k. split; [done |]. by exists day, battle, round, death.
    - intros s k m. apply elem_of_add_day_deaths. }
  split_and!.
  - unfold dead_characters. apply foldl_NoDup; [|constructor].
    intros s k Hs. unfold add_day_deaths.
    destruct (days !! k) as [day|]; [|done].
    apply foldl_NoDup; [|done]. intros s' battle Hs'.
    apply foldl_NoDup; [|done]. intros s'' round. apply NoDup_add_deaths.
  - exact (Hin sortedDayKeys).
  - intros dayKeys Hsame n. rewrite !Hin. unfold records_death.
    split; intros (k & day & battle & round & death & Hk & ?);
      exists k, day, battle, round, death; (split; [by apply Hsame | done]).
Qed.

(** ** The catalog and the builders *)

(** X14. The set of names the builders and the prefetch collect.  It
    lists no name twice, and holds exactly the names the inventories refer
    to: the non-empty names of the entries of the eight buckets of the
    characters that have items; characters without items, buckets that are
    missing, [null] entries and entries without a name add nothing. *)
Theorem allItems_exact (inventories : Inv.t) :
  NoDup (allItems inventories) ∧
  (∀ n, n ∈ allItems inventories ↔ referenced inventories n) ∧
  allItems [] = [] ∧
  ∀ character,
    allItems (inventories ++ [(character, None)]) = allItems inventories ∧
    allItems (inventories ++ [(character, Some {| Inv.items := None |})])
      = allItems inventories.
Proof.
  split_and!; [apply NoDup_allItems | apply elem_of_allItems | done |].
  intros character. unfold allItems.
  by rewrite !fmap_app, !foldl_app.
Qed.

Section CatalogFacts.

Variable JSON_parse_record : string → Parsed.

Local Set Default Proof Using "Type".

(** How reading a record file fails. *)
Lemma read_record_Throw (content : option string) (e : Exn) :
  read_record JSON_parse_record content = Throw e ↔
  (content = None ∧ e = IOError) ∨
  (∃ data, content = Some data ∧
           JSON_parse_record data = parse_throws ∧ e = SyntaxError) ∨
  (∃ data, content = Some data ∧
           JSON_parse_record data = parsed_null ∧ e = TypeError).
Proof.
  unfold read_record. destruct content as [data|].
  - destruct (JSON_parse_record data) eqn:Hparse; split.
    + intros [= <-]. right. left. by exists data.
    + intros [[[=] _]|[(? & [= <-] & ? & ->)|(? & [= <-] & ? & _)]];
        [done | congruence].
    + intros [= <-]. right. right. by exists data.
    + intros [[[=] _]|[(? & [= <-] & ? & _)|(? & [= <-] & ? & ->)]];
        [congruence | done].
    + done.
    + intros [[[=] _]|[(? & [= <-] & ? & _)|(? & [= <-] & ? & _)]];
        congruence.
  - split; [intros [= <-]; by left |].
    intros [[_ ->]|[(? & [=] & _)|(? & [=] & _)]]. done.
Qed.

Lemma load_files_outcome (files : list (string * option string)) acc :
  ((∃ cat, for_of (load_file JSON_parse_record) acc files = Normal cat) ↔
   all_record_files JSON_parse_record files) ∧
  ∀ e, for_of (load_file JSON_parse_record) acc files = Throw e →
    ∃ before file after,
      files = before ++ file :: after ∧
      all_record_files JSON_parse_record before ∧
      endsWith file.1 ".json" = true ∧
      read_record JSON_parse_record file.2 = Throw e.
Proof.
  revert acc. induction files as [|file files IH]; intros acc.
  - split; [|done]. split; [|by exists acc].
    intros _ file []%elem_of_nil.
  - cbn [for_of]. unfold all_record_files.
    assert (Hstep :
      (is_record_file JSON_parse_record file ∧
       ∃ acc', load_file JSON_parse_record acc file = Normal acc') ∨
      ∃ e, load_file JSON_parse_record acc file = Throw e ∧
           endsWith file.1 ".json" = true ∧
           read_record JSON_parse_record file.2 = Throw e).
    { unfold load_file, is_record_file.
      destruct (endsWith file.1 ".json"); simpl.
      - destruct (read_record JSON_parse_record file.2) as [x|e];
          [left; by eauto | right; by eauto].
      - left. split; [done | by eauto]. }
    destruct Hstep as [[Hok [acc' Hload]]|(e & Hload & Hj & Hread)];
      rewrite Hload; cbn.
    + destruct (IH acc') as [Hiff Hthrow]. split.
      * rewrite Hiff. split.
        -- intros Hall f [->|Hf]%elem_of_cons; [done | by apply Hall].
        -- intros Hall f Hf. apply Hall. by right.
      * intros e He.
        destruct (Hthrow e He) as (before & f & after & -> & Hb & ? & ?).
        exists (file :: before), f, after. split_and!; [done | | done..].
        intros g [->|Hg]%elem_of_cons; [done | by apply Hb].
    + split.
      * split; [by intros [? [=]] |]. intros Hall.
        destruct (Hall file (list_elem_of_here _ _) Hj) as [x Hx].
        congruence.
      * intros e' [= <-]. exists [], file, files.
        split_and!; [done | | done..]. intros g []%elem_of_nil.
Qed.

(** The last file of a name decides the record of the name. *)
Lemma load_files_wins (files : list (string * option string)) acc cat x :
  for_of (load_file JSON_parse_record) acc files = Normal cat →
  holds_record JSON_parse_record files x →
  ∃ y, holds_record JSON_parse_record files y ∧ r_name y = r_name x ∧
       cat !! r_name x = Some (record_of y).
Proof.
  revert cat. induction files as [|file files IH] using rev_ind; intros cat.
  - by intros _ (f & []%elem_of_nil & _).
  - rewrite for_of_app.
    destruct (for_of (load_file JSON_parse_record) acc files)
      as [acc1|e] eqn:Hfiles; [|done].
    cbn. destruct (load_file JSON_parse_record acc1 file)
      as [acc2|e] eqn:Hstep; [|done]. cbn. intros [= <-] Hx.
    assert (Hsnoc : ∀ z, holds_record JSON_parse_record (files ++ [file]) z ↔
                         holds_record JSON_parse_record files z ∨
                         (endsWith file.1 ".json" = true ∧
                          read_record JSON_parse_record file.2 = Normal z)).
    { intros z. unfold holds_record. split.
      - intros (f & [?|Hf%list_elem_of_singleton]%elem_of_app & ? & ?);
          [left; by exists f | subst f; by right].
      - intros [(f & ? & ? & ?)|[? ?]]; [exists f | exists file];
          (split_and!; [| done..]); apply elem_of_app;
          [by left | right; by apply list_elem_of_singleton]. }
    apply load_file_Normal in Hstep as [[Hj ->]|(y & Hj & Hy & ->)].
    + apply Hsnoc in Hx as [Hx|[? _]]; [|congruence].
      destruct (IH acc1 eq_refl Hx) as (z & ? & ? & ?).
      exists z. split_and!; [apply Hsnoc; by left | done..].
    + destruct (decide (r_name y = r_name x)) as [Heq|Hne].
      * exists y. split_and!; [apply Hsnoc; by right | done |].
        rewrite <- Heq. apply lookup_insert_eq.
      * apply Hsnoc in Hx as [Hx|[_ Hx]]; [|congruence].
        destruct (IH acc1 eq_refl Hx) as (z & ? & ? & ?).
        exists z. split_and!; [apply Hsnoc; by left | done |].
        by rewrite lookup_insert_ne.
Qed.

Lemma load_files_size (files : list (string * option string)) acc cat :
  for_of (load_file JSON_parse_record) acc files = Normal cat →
  size cat ≤ size acc + length files.
Proof.
  revert acc. induction files as [|file files IH]; intros acc; cbn [for_of].
  - intros [= <-]. lia.
  - destruct (load_file JSON_parse_record acc file) as [acc'|e] eqn:Hstep;
      [|done]. cbn. intros Hrest%IH.
    apply load_file_Normal in Hstep as [[_ ->]|(x & _ & _ & ->)];
      [simpl; lia |].
    pose proof (map_size_insert (r_name x) (record_of x) acc) as Hsize.
    destruct (acc !! r_name x); unfold Datatypes.id in Hsize; simpl; lia.
Qed.

(** The loader is one loop over the record files of the items store
    followed by those of the spells store. *)
Lemma loadAllItemData_files (disk : Disk) :
  loadAllItemData JSON_parse_record disk =
  for_of (load_file JSON_parse_record) ∅
    (record_files (items_store disk) ++ record_files (spells_store disk)).
Proof.
  unfold loadAllItemData. rewrite !load_store_files, for_of_app.
  destruct (for_of (load_file JSON_parse_record) ∅
              (record_files (items_store disk))); [|done].
  cbn. by rewrite load_store_files.
Qed.

(** X15. When the loader of the script completes or throws.
    [loadAllItemData] gives a catalog exactly when every [.json] entry of
    the subdirectories of the two stores can be read and parses to a value
    other than [null].  Otherwise it throws for the first entry that is
    not so, in the order items store, spells store: the error of
    [fs.readFileSync] when the entry cannot be read, the [SyntaxError] of
    [JSON.parse] when its content does not parse, and a [TypeError] when
    the content is [null].  One bad record file leaves the script without
    any catalog. *)
Theorem loadAllItemData_outcome (disk : Disk) :
  let files :=
    record_files (items_store disk) ++ record_files (spells_store disk) in
  ((∃ cat, loadAllItemData JSON_parse_record disk = Normal cat) ↔
   all_record_files JSON_parse_record files) ∧
  ∀ e, loadAllItemData JSON_parse_record disk = Throw e →
    ∃ before file after,
      files = before ++ file :: after ∧
      all_record_files JSON_parse_record before ∧
      endsWith file.1 ".json" = true ∧
      ((file.2 = None ∧ e = IOError) ∨
       (∃ data, file.2 = Some data ∧
                JSON_parse_record data = parse_throws ∧ e = SyntaxError) ∨
       (∃ data, file.2 = Some data ∧
                JSON_parse_record data = parsed_null ∧ e = TypeError)).
Proof.
  intros files. subst files. rewrite loadAllItemData_files.
  destruct (load_files_outcome
              (record_files (items_store disk) ++
               record_files (spells_store disk)) ∅) as [Hiff Hthrow].
  split; [exact Hiff |]. intros e He.
  destruct (Hthrow e He) as (before & file & after & Hfiles & Hb & Hj & Hread).
  exists before, file, after. split_and!; [done.. |].
  by apply read_record_Throw.
Qed.

Lemma catalog_sound disk cat n r :
  loadAllItemData JSON_parse_record disk = Normal cat →
  cat !! n = Some r →
  ∃ x, (in_store JSON_parse_record (items_store disk) x ∨
        in_store JSON_parse_record (spells_store disk) x) ∧
       r_name x = n ∧ r = record_of x.
Proof.
  intros Hspells Hr. unfold loadAllItemData in Hspells.
  destruct (load_store JSON_parse_record ∅ (items_store disk))
    as [items|e] eqn:Hitems; simpl in Hspells; [|done].
  rewrite load_store_files in Hitems, Hspells.
  destruct (load_files_sound _ _ _ _ _ _ Hspells Hr) as [Hi|(x & ? & ? & ?)].
  - destruct (load_files_sound _ _ _ _ _ _ Hitems Hi)
      as [Hempty|(x & ? & ? & ?)]; [by rewrite lookup_empty in Hempty |].
    exists x. split; [by left | done].
  - exists x. split; [by right | done].
Qed.

(** X16. What the catalog of the script holds.  Every entry is keyed by
    the name of its record, which is the record of a [.json] file of one
    of the stores with [attributeBlocks] and [parts] defaulted; every
    record file of the stores has its name in the catalog; when a name has
    a record in the spells store, the catalog holds a record of the spells
    store for it, whatever the items store holds; and the catalog has at
    most as many entries as the stores have files. *)
Theorem catalog_spec (disk : Disk) (cat : gmap string Item) :
  loadAllItemData JSON_parse_record disk = Normal cat →
  (∀ n r, cat !! n = Some r →
     name r = n ∧
     ∃ x, (in_store JSON_parse_record (items_store disk) x ∨
           in_store JSON_parse_record (spells_store disk) x) ∧
          r = record_of x) ∧
  (∀ x, in_store JSON_parse_record (items_store disk) x ∨
        in_store JSON_parse_record (spells_store disk) x →
        is_Some (cat !! r_name x)) ∧
  (∀ x, in_store JSON_parse_record (spells_store disk) x →
     ∃ y, in_store JSON_parse_record (spells_store disk) y ∧
          r_name y = r_name x ∧ cat !! r_name x = Some (record_of y)) ∧
  size cat ≤ length (record_files (items_store disk)) +
             length (record_files (spells_store disk)).
Proof.
  intros Hload. split_and!.
  - intros n r Hr.
    destruct (catalog_sound disk cat n r Hload Hr) as (x & Hx & <- & ->).
    split; [done | by exists x].
  - intros x Hx.
    destruct (proj1 (loadAllItemData_spec JSON_parse_record disk cat
                       (r_name x) Hload)) as (y & _ & Hy);
      [by exists x | by rewrite Hy].
  - intros x Hx. unfold loadAllItemData in Hload.
    destruct (load_store JSON_parse_record ∅ (items_store disk))
      as [items|e]; simpl in Hload; [|done].
    rewrite load_store_files in Hload.
    exact (load_files_wins _ _ _ _ Hload Hx).
  - unfold loadAllItemData in Hload.
    destruct (load_store JSON_parse_record ∅ (items_store disk))
      as [items|e] eqn:Hitems; simpl in Hload; [|done].
    rewrite load_store_files in Hitems, Hload.
    apply load_files_size in Hitems, Hload.
    rewrite map_size_empty in Hitems. lia.
Qed.

(** A plain object with the prototype [Object.prototype] inherits
    something truthy exactly under the names of the properties of
    [Object.prototype]. *)
Lemma inherited_Object_prototype (n : string) :
  truthy_value (inherited None n) = true ↔
  n = "__proto__" ∨ n ∈ Object_prototype_functions.
Proof.
  unfold inherited, Object_prototype.
  destruct (String.eqb_spec n "__proto__") as [->|Hp].
  - split; [by left | done].
  - destruct (decide (n ∈ Object_prototype_functions)) as [Hin|Hnin]; simpl.
    + split; [by right | done].
    + split; [done | by intros [?|?]].
Qed.


Lemma elem_of_keys_obj_set {V} (o : Obj V) k v n :
  n ∈ keys (obj_set o k v) ↔ n = k ∨ n ∈ keys o.
Proof.
  rewrite <- !obj_get_is_Some, obj_get_set.
  destruct (decide (k = n)) as [->|Hne].
  - split; [by left | by eauto].
  - split; [by right | intros [?|?]; [congruence | done]].
Qed.

Lemma NoDup_keys_obj_set {V} (o : Obj V) k v :
  NoDup (keys o) → NoDup (keys (obj_set o k v)).
Proof.
  intros Ho. destruct (decide (k ∈ keys o)) as [Hin|Hnin].
  - by rewrite keys_obj_set_present.
  - rewrite keys_obj_set_fresh by done.
    apply NoDup_app. split_and!; [done | | apply NoDup_singleton].
    by intros x Hx ->%list_elem_of_singleton.
Qed.

Lemma elem_of_keys_own_after_assign (o : Obj Value) k v n :
  n ∈ keys (own_after_assign o k v) ↔
  (n = k ∧ k ≠ "__proto__") ∨ n ∈ keys o.
Proof.
  unfold own_after_assign.
  destruct (String.eqb_spec k "__proto__") as [->|Hk].
  - split; [by right | by intros [[_ ?]|?]].
  - rewrite elem_of_keys_obj_set.
    split; [intros [?|?]; [left | right]; done |].
    intros [[? _]|?]; [left | right]; done.
Qed.

Lemma NoDup_keys_own_after_assign (o : Obj Value) k v :
  NoDup (keys o) → NoDup (keys (own_after_assign o k v)).
Proof.
  unfold own_after_assign. destruct (String.eqb k "__proto__"); [done |].
  apply NoDup_keys_obj_set.
Qed.

Lemma search_spell_files_keys names files acc itemData :
  for_of (search_spell_file JSON_parse_record names) acc files
    = Normal itemData →
  let named n :=
    n ∈ names ∧ ∃ x, holds_record JSON_parse_record files x ∧ r_name x = n in
  (NoDup (keys (own acc)) → NoDup (keys (own itemData))) ∧
  (∀ n, n ∈ keys (own itemData) ↔
        n ∈ keys (own acc) ∨ (n ≠ "__proto__" ∧ named n)) ∧
  (proto itemData = None ↔ proto acc = None ∧ ¬ named "__proto__").
Proof.
  revert acc. induction files as [|file files IH]; intros acc; cbn [for_of].
  - intros [= <-]. cbv zeta. split_and!; [done | |].
    + intros n. split; [by left |].
      intros [?|(_ & _ & x & (f & []%elem_of_nil & _) & _)]. done.
    + split; [|tauto]. intros ?. split; [done |].
      by intros (_ & x & (f & []%elem_of_nil & _) & _).
  - destruct (search_spell_file JSON_parse_record names acc file)
      as [acc'|e] eqn:Hstep; [|done]. cbn. intros Hrest.
    destruct (IH acc' Hrest) as (Hnd & Hin & Hproto). cbv zeta.
    unfold search_spell_file in Hstep.
    destruct (endsWith file.1 ".json") eqn:Hj; simpl in Hstep.
    + destruct (read_record JSON_parse_record file.2) as [y|] eqn:Hy;
        [|done]. simpl in Hstep.
      destruct (decide (r_name y ∈ names)) as [Hyn|Hyn];
        injection Hstep as <-.
      * cbn [own proto assign_record] in Hnd, Hin, Hproto. split_and!.
        -- intros ?. by apply Hnd, NoDup_keys_own_after_assign.
        -- intros n. rewrite Hin, elem_of_keys_own_after_assign.
           setoid_rewrite holds_record_cons. split.
           ++ intros [[[-> ?]|?]|(? & ? & x & ? & ?)]; [| tauto |].
              ** right. split; [done |]. split; [done |]. exists y. tauto.
              ** right. split; [done |]. split; [done |]. exists x. tauto.
           ++ intros [?|(? & ? & x & [[_ Hx]|?] & ?)]; [tauto | |].
              ** left. left. split; congruence.
              ** right. split; [done |]. split; [done |]. by exists x.
        -- rewrite Hproto. setoid_rewrite holds_record_cons.
           destruct (String.eqb_spec (r_name y) "__proto__") as [Hp|Hp].
           ++ split; [by intros [[=] _] |]. intros [_ Hnot].
              destruct Hnot. split; [congruence |]. exists y. tauto.
           ++ split.
              ** intros [? Hnot]. split; [done |].
                 intros (? & x & [[_ Hx]|?] & ?); [congruence |].
                 apply Hnot. split; [done |]. by exists x.
              ** intros [? Hnot]. split; [done |].
                 intros (? & x & ? & ?). apply Hnot.
                 split; [done |]. exists x. tauto.
      * split_and!; [done | |].
        -- intros n. rewrite Hin. setoid_rewrite holds_record_cons. split.
           ++ intros [?|(? & ? & x & ? & ?)]; [tauto |].
              right. split; [done |]. split; [done |]. exists x. tauto.
           ++ intros [?|(? & ? & x & [[_ Hx]|?] & ?)]; [tauto | |].
              ** exfalso. apply Hyn. congruence.
              ** right. split; [done |]. split; [done |]. by exists x.
        -- rewrite Hproto. setoid_rewrite holds_record_cons. split.
           ++ intros [? Hnot]. split; [done |].
              intros (? & x & [[_ Hx]|?] & ?).
              ** apply Hyn. congruence.
              ** apply Hnot. split; [done |]. by exists x.
           ++ intros [? Hnot]. split; [done |].
              intros (? & x & ? & ?). apply Hnot.
              split; [done |]. exists x. tauto.
    + injection Hstep as <-. split_and!; [done | |].
      * intros n. rewrite Hin. setoid_rewrite holds_record_cons. split.
        -- intros [?|(? & ? & x & ? & ?)]; [tauto |].
           right. split; [done |]. split; [done |]. exists x. tauto.
        -- intros [?|(? & ? & x & [[? _]|?] & ?)]; [tauto | congruence |].
           right. split; [done |]. split; [done |]. by exists x.
      * rewrite Hproto. setoid_rewrite holds_record_cons. split.
        -- intros [? Hnot]. split; [done |].
           intros (? & x & [[? _]|?] & ?); [congruence |].
           apply Hnot. split; [done |]. by exists x.
        -- intros [? Hnot]. split; [done |].
           intros (? & x & ? & ?). apply Hnot.
           split; [done |]. exists x. tauto.
Qed.

(** What the object of the route holds when its searches complete. *)
Lemma route_search_spec (disk : Disk) (names : list string)
    (itemData : PlainObject) :
  route_search JSON_parse_record disk names = Normal itemData →
  let in_spells n :=
    ∃ x, in_store JSON_parse_record (spells_store disk) x ∧ r_name x = n in
  NoDup (keys (own itemData)) ∧
  (∀ n, n ∈ keys (own itemData) ↔
        n ∈ names ∧ n ≠ "__proto__" ∧ in_spells n) ∧
  (∀ n v, obj_get (own itemData) n = Some v →
     ∃ x, in_store JSON_parse_record (spells_store disk) x ∧
          r_name x = n ∧ v = VRecord (record_of x)) ∧
  (∀ r, proto itemData = Some r →
     "__proto__" ∈ names ∧
     ∃ x, in_store JSON_parse_record (spells_store disk) x ∧
          r_name x = "__proto__" ∧ r = record_of x) ∧
  (proto itemData = None ↔ ¬ ("__proto__" ∈ names ∧ in_spells "__proto__")) ∧
  (∀ n, truthy_value (get itemData n) = false ↔
        (n ∉ keys (own itemData)) ∧
        truthy_value (inherited (proto itemData) n) = false).
Proof.
  intros Hfiles%route_search_files in_spells. subst in_spells.
  destruct (search_spell_files_keys _ _ _ _ Hfiles) as (Hnd & Hin & Hproto).
  assert (Hvalues : ∀ n v, obj_get (own itemData) n = Some v →
     ∃ x, in_store JSON_parse_record (spells_store disk) x ∧
          r_name x = n ∧ v = VRecord (record_of x)).
  { intros n v Hv.
    destruct (search_spell_files_sound _ _ _ _ _ _ _ Hfiles Hv)
      as [?|(x & ? & ? & ?)]; [done | by exists x]. }
  split_and!.
  - apply Hnd. constructor.
  - intros n. rewrite Hin. unfold in_store. split; [|tauto].
    intros [[]%elem_of_nil|?]. tauto.
  - exact Hvalues.
  - intros r Hr.
    destruct (search_spell_files_proto _ _ _ _ _ _ Hfiles Hr)
      as [?|(? & x & ? & ? & ?)]; [done |]. split; [done | by exists x].
  - rewrite Hproto. unfold in_store. tauto.
  - intros n. unfold get.
    destruct (obj_get (own itemData) n) as [v|] eqn:Hv.
    + destruct (Hvalues n v Hv) as (x & _ & _ & ->). simpl.
      split; [done |]. intros [Hnot _]. exfalso. apply Hnot.
      apply obj_get_is_Some. by rewrite Hv.
    + apply obj_get_None in Hv. tauto.
Qed.

(** X18. What the route persists and what it reports as missing.  When
    its searches complete, the keys of the object it persists are exactly
    the referenced names other than [__proto__] that have a record in the
    spells store, each once, and the value under a key is a record of that
    name from the spells store.  The prototype of the object is replaced
    exactly when [__proto__] is referenced and the spells store has a
    record of that name.  A referenced name is reported as missing exactly
    when it is not a key and the object inherits nothing truthy under it;
    with the prototype not replaced, these are the referenced names that
    are neither keys nor names of properties of [Object.prototype]. *)
Theorem route_persists_referenced_spells
    (disk : Disk) (names : list string) (itemData : PlainObject) :
  route_search JSON_parse_record disk names = Normal itemData →
  let in_spells n :=
    ∃ x, in_store JSON_parse_record (spells_store disk) x ∧ r_name x = n in
  NoDup (keys (own itemData)) ∧
  (∀ n, n ∈ keys (own itemData) ↔
        n ∈ names ∧ n ≠ "__proto__" ∧ in_spells n) ∧
  (∀ n v, obj_get (own itemData) n = Some v →
     ∃ x, in_store JSON_parse_record (spells_store disk) x ∧
          r_name x = n ∧ v = VRecord (record_of x)) ∧
  (proto itemData = None ↔ ¬ ("__proto__" ∈ names ∧ in_spells "__proto__")) ∧
  (∀ n, n ∈ missing_from itemData names ↔
        n ∈ names ∧ (n ∉ keys (own itemData)) ∧
        truthy_value (inherited (proto itemData) n) = false) ∧
  (proto itemData = None →
   missing_from itemData names =
   filter (λ n, (n ∉ keys (own itemData)) ∧ n ≠ "__proto__" ∧
                (n ∉ Object_prototype_functions)) names).
Proof.
  intros Hsearch in_spells. subst in_spells.
  destruct (route_search_spec disk names itemData Hsearch)
    as (Hnd & Hkeys & Hvalues & _ & Hproto & Hget).
  split_and!; [done.. | |].
  - intros n. unfold missing_from. rewrite list_elem_of_filter, Hget. tauto.
  - intros Hnone. unfold missing_from. apply list_filter_iff. intros n.
    rewrite Hget, Hnone.
    pose proof (inherited_Object_prototype n) as Hinh.
    destruct (truthy_value (inherited None n)).
    + split; [by intros [_ ?] |]. intros (_ & ? & ?).
      destruct (proj1 Hinh eq_refl); done.
    + split; [|tauto]. intros [? _]. split; [done |].
      split; intros ?; assert (false = true) as [=]; apply Hinh; tauto.
Qed.

End CatalogFacts.

(** ** The builders, the serving route and the page together *)

Lemma list_to_map_obj_get {V} (o : Obj V) (k : string) :
  (list_to_map o : gmap string V) !! k = obj_get o k.
Proof.
  induction o as [|[k' v] o IH]; simpl; [apply lookup_empty |].
  destruct (decide (k' = k)) as [->|Hne].
  - apply lookup_insert_eq.
  - by rewrite lookup_insert_ne.
Qed.

Lemma length_filter_split {A} (P : A → Prop) `{!∀ x, Decision (P x)}
    (l : list A) :
  length (filter P l) + length (filter (λ x, ¬ P x) l) = length l.
Proof.
  induction l as [|x l IH]; [done |].
  rewrite !filter_cons. destruct (decide (P x)).
  - rewrite decide_False by tauto. simpl. lia.
  - rewrite decide_True by done. simpl. lia.
Qed.

(** The keys of an object that are among duplicate-free names, counted
    with the names that are not keys. *)
Lemma keys_and_missing {V} (o : Obj V) (names : list string) :
  NoDup names → NoDup (keys o) → (∀ n, n ∈ keys o → n ∈ names) →
  length (keys o) + length (filter (λ n, n ∉ keys o) names) = length names.
Proof.
  intros Hnames Hkeys Hsub.
  rewrite <- (length_filter_split (λ n, n ∈ keys o) names). f_equal.
  apply Permutation_length, NoDup_Permutation;
    [done | by apply NoDup_filter |].
  intros n. rewrite list_elem_of_filter. split; [|tauto].
  intros Hn. split; [done | by apply Hsub].
Qed.

(** The names that are not keys, split by a test. *)
Lemma keys_and_unmatched {V} (o : Obj V) (names : list string)
    (test : string → bool) :
  NoDup names → NoDup (keys o) → (∀ n, n ∈ keys o → n ∈ names) →
  length (keys o)
  + length (filter (λ n, (n ∉ keys o) ∧ test n = false) names)
  + length (filter (λ n, (n ∉ keys o) ∧ test n = true) names)
  = length names.
Proof.
  intros Hnames Hkeys Hsub.
  transitivity (length (keys o) + length (filter (λ n, n ∉ keys o) names));
    [|by apply keys_and_missing].
  rewrite <- Nat.add_assoc. f_equal. clear.
  induction names as [|x names IH]; [done |].
  rewrite !filter_cons. destruct (decide (x ∉ keys o)) as [Hx|Hx].
  - destruct (test x) eqn:Ht.
    + rewrite decide_False by (intros [_ ?]; done).
      rewrite decide_True by done. simpl. lia.
    + rewrite decide_True by done.
      rewrite decide_False by (intros [_ ?]; done). simpl. lia.
  - rewrite !decide_False by (intros [? _]; done). done.
Qed.

Section ServiceFacts.

Variable JSON_parse_record : string → Parsed.
Variable JSON_parse_inventories : string → option Inv.t.
Variable JSON_stringify : Obj Value → string.

Local Set Default Proof Using "Type".

Local Abbreviation process :=
  (processSession JSON_parse_inventories JSON_stringify).

(** X19. The response of the route on success.  A [200] response means
    the write succeeded and the artifact holds the serialisation of the
    own properties of the object the searches filled.  [missingItems]
    lists, once each, the referenced names that are not keys of that
    object and under which it inherits nothing truthy.  [itemsFound], the
    length of [missingItems] and the number of referenced names that are
    not keys but under which the object inherits something truthy add up
    to [totalItems], the number of referenced names; so [itemsFound] plus
    the length of [missingItems] is at most [totalItems], and equal to it
    when no referenced name is the name of a property of
    [Object.prototype]. *)
Theorem POST_success_response (w : WriteBehaviour) (id : string)
    (disk disk' : Disk) (itemsFound totalItems : nat)
    (missingItems : list string) :
  POST JSON_parse_record JSON_parse_inventories JSON_stringify w id disk
    = (status_200 itemsFound totalItems missingItems, disk') →
  ∃ data inv itemData,
    session_file disk id inventories_file = Some data ∧
    JSON_parse_inventories data = Some inv ∧
    route_search JSON_parse_record disk (allItems inv) = Normal itemData ∧
    w = Succeeds ∧
    session_file disk' id precomputed_file
      = Some (JSON_stringify (own itemData)) ∧
    itemsFound = length (keys (own itemData)) ∧
    totalItems = length (allItems inv) ∧
    NoDup missingItems ∧
    (∀ n, n ∈ missingItems ↔
          n ∈ allItems inv ∧ (n ∉ keys (own itemData)) ∧
          truthy_value (inherited (proto itemData) n) = false) ∧
    itemsFound + length missingItems
    + length (filter (λ n, (n ∉ keys (own itemData)) ∧
                           truthy_value (inherited (proto itemData) n) = true)
                (allItems inv))
    = totalItems ∧
    itemsFound + length missingItems ≤ totalItems ∧
    ((∀ n, n ∈ allItems inv →
           n ≠ "__proto__" ∧ (n ∉ Object_prototype_functions)) →
     itemsFound + length missingItems = totalItems).
Proof.
  unfold POST. destruct (sessions disk) as [dirs|] eqn:Hdirs; [|done].
  destruct (session_file disk id inventories_file) as [data|] eqn:Hdata;
    [|done].
  destruct (JSON_parse_inventories data) as [inv|] eqn:Hinv; [|done].
  destruct (route_search JSON_parse_record disk (allItems inv))
    as [itemData|e] eqn:Hsearch; [|done].
  intros Hpost. exists data, inv, itemData.
  assert (Hw : w = Succeeds) by (destruct w; simpl in Hpost; congruence).
  subst w. simpl in Hpost. injection Hpost as <- <- <- <-.
  destruct (route_search_spec JSON_parse_record disk (allItems inv)
              itemData Hsearch)
    as (Hnd & Hkeys & _ & _ & Hproto & Hget).
  assert (Hmissing :
    missing_from itemData (allItems inv)
      = filter (λ n, (n ∉ keys (own itemData)) ∧
                     truthy_value (inherited (proto itemData) n) = false)
          (allItems inv)).
  { unfold missing_from. apply list_filter_iff. intros n. apply Hget. }
  assert (Hcount :
    length (keys (own itemData))
    + length (missing_from itemData (allItems inv))
    + length (filter (λ n, (n ∉ keys (own itemData)) ∧
                           truthy_value (inherited (proto itemData) n) = true)
                (allItems inv))
    = length (allItems inv)).
  { rewrite Hmissing.
    apply (keys_and_unmatched (own itemData) (allItems inv)
             (λ n, truthy_value (inherited (proto itemData) n)));
      [apply NoDup_allItems | done |].
    intros n Hn. by apply Hkeys in Hn as [? _]. }
  split_and!; [done | done | done | done | | done | done | | | done | lia |].
  - rewrite session_file_with_session_dir by (by rewrite Hdirs).
    rewrite decide_True by done. apply lookup_insert_eq.
  - rewrite Hmissing. apply NoDup_filter, NoDup_allItems.
  - intros n. rewrite Hmissing, list_elem_of_filter.
    split; [intros [[? ?] ?] | intros (? & ? & ?)]; done.
  - intros Hplain.
    assert (Hnone : proto itemData = None).
    { apply Hproto. intros [Hin _]. by destruct (Hplain _ Hin). }
    rewrite Hnone in Hcount.
    assert (Hempty :
      filter (λ n, (n ∉ keys (own itemData)) ∧
                   truthy_value (inherited None n) = true)
        (allItems inv) = []).
    { set (l := filter _ (allItems inv)).
      destruct l as [|n rest] eqn:Hfilter; [done |].
      assert (Hn : n ∈ l) by (rewrite Hfilter; apply list_elem_of_here).
      subst l.
      apply list_elem_of_filter in Hn as [[_ Ht] Hn].
      apply inherited_Object_prototype in Ht.
      destruct (Hplain n Hn). by destruct Ht. }
    rewrite Hempty in Hcount. simpl in Hcount. lia.
Qed.

(** The parts of the disk a run of [processSession] leaves alone. *)
Lemma processSession_frame w s cat disk :
  let disk' := (process w s cat disk).2 in
  items_store disk' = items_store disk ∧
  spells_store disk' = spells_store disk ∧
  (is_Some (sessions disk) → is_Some (sessions disk')) ∧
  ∀ s' file, s' ≠ s ∨ file ≠ precomputed_file →
             session_file disk' s' file = session_file disk s' file.
Proof.
  intros disk'. subst disk'.
  destruct (session_file disk s inventories_file) as [data|] eqn:Hdata.
  - pose proof Hdata as (dirs & dir & Hdirs & Hdir & Hfile)%session_file_Some.
    destruct (JSON_parse_inventories data) as [inv|] eqn:Hinv.
    + rewrite (processSession_write JSON_parse_inventories JSON_stringify
                 w s cat disk dirs dir data inv) by done.
      cbn [snd].
      destruct (writeFileSync_in_place w disk s dirs dir
                  (JSON_stringify (find_matching_items cat (allItems inv)).1)
                  Hdirs Hdir) as ((? & ? & ?) & _ & _).
      split_and!; [done | done | | done].
      intros _. unfold with_session_dir. simpl. by rewrite Hdirs.
    + unfold processSession. rewrite Hdata, Hinv. done.
  - unfold processSession. rewrite Hdata. done.
Qed.

(** The result of [processSession] depends on the inventories file of the
    session only, and the files it leaves in the directory of the session
    on the files of that directory only. *)
Lemma processSession_local w s cat disk1 disk2 :
  (∀ file, session_file disk1 s file = session_file disk2 s file) →
  (process w s cat disk1).1 = (process w s cat disk2).1 ∧
  ∀ file, session_file (process w s cat disk1).2 s file
          = session_file (process w s cat disk2).2 s file.
Proof.
  intros Hsame.
  destruct (session_file disk1 s inventories_file) as [data|] eqn:Hdata1.
  - pose proof Hdata1 as Hdata2. rewrite Hsame in Hdata2.
    pose proof Hdata1 as (dirs1 & dir1 & Hdirs1 & Hdir1 & Hf1)%session_file_Some.
    pose proof Hdata2 as (dirs2 & dir2 & Hdirs2 & Hdir2 & Hf2)%session_file_Some.
    destruct (JSON_parse_inventories data) as [inv|] eqn:Hinv.
    + rewrite (processSession_write JSON_parse_inventories JSON_stringify
                 w s cat disk1 dirs1 dir1 data inv) by done.
      rewrite (processSession_write JSON_parse_inventories JSON_stringify
                 w s cat disk2 dirs2 dir2 data inv) by done.
      cbn [fst snd]. split; [by destruct w |].
      intros file.
      rewrite !session_file_with_session_dir
        by (by rewrite ?Hdirs1, ?Hdirs2).
      rewrite !decide_True by done.
      assert (Hdirs : ∀ file, dir1 !! file = dir2 !! file).
      { intros f. pose proof (Hsame f) as Hf. unfold session_file in Hf.
        rewrite Hdirs1, Hdirs2 in Hf. simpl in Hf.
        by rewrite Hdir1, Hdir2 in Hf. }
      destruct w; simpl; [| apply Hdirs |];
        (destruct (decide (file = precomputed_file)) as [->|Hne];
         [by rewrite !lookup_insert_eq
         | by rewrite !lookup_insert_ne]).
    + unfold processSession. rewrite Hdata1, Hdata2, Hinv. done.
  - pose proof Hdata1 as Hdata2. rewrite Hsame in Hdata2.
    unfold processSession. rewrite Hdata1, Hdata2. done.
Qed.

Lemma process_sessions_snoc w cat dirs s disk :
  process_sessions JSON_parse_inventories JSON_stringify w cat
    (dirs ++ [s]) disk =
  let acc :=
    process_sessions JSON_parse_inventories JSON_stringify w cat dirs disk in
  ((acc.1 ++ [(process (w s) s cat acc.2).1]),
   (process (w s) s cat acc.2).2).
Proof.
  unfold process_sessions. rewrite foldl_app. cbn [foldl].
  by destruct (process (w s) s cat _).
Qed.

(** The loop of [main]: each session is processed as if it were the only
    one. *)
Lemma process_sessions_spec w cat dirs disk :
  NoDup dirs →
  let out :=
    process_sessions JSON_parse_inventories JSON_stringify w cat dirs disk in
  out.1 = (λ s, (process (w s) s cat disk).1) <$> dirs ∧
  items_store out.2 = items_store disk ∧
  spells_store out.2 = spells_store disk ∧
  (is_Some (sessions disk) → is_Some (sessions out.2)) ∧
  ∀ s file,
    session_file out.2 s file =
    if decide (s ∈ dirs)
    then session_file (process (w s) s cat disk).2 s file
    else session_file disk s file.
Proof.
  induction dirs as [|s0 dirs IH] using rev_ind; intros Hnd out; subst out.
  - by split_and!.
  - apply NoDup_app in Hnd as (Hnd & Hfresh & _).
    assert (Hs0 : s0 ∉ dirs).
    { intros Hin. apply (Hfresh s0 Hin). by left. }
    destruct (IH Hnd) as (Hres & Hitems & Hspells & Hsome & Hfiles).
    rewrite process_sessions_snoc. cbn zeta. cbn [fst snd].
    set (acc := process_sessions JSON_parse_inventories JSON_stringify
                  w cat dirs disk) in *.
    assert (Hsame : ∀ file,
      session_file acc.2 s0 file = session_file disk s0 file).
    { intros file. by rewrite Hfiles, decide_False. }
    destruct (processSession_local (w s0) s0 cat acc.2 disk Hsame)
      as [Hr Hd].
    destruct (processSession_frame (w s0) s0 cat acc.2)
      as (Hi & Hsp & Hso & Hother).
    split_and!.
    + by rewrite fmap_app, Hres, Hr.
    + by rewrite Hi.
    + by rewrite Hsp.
    + intros ?. by apply Hso, Hsome.
    + intros s file. destruct (decide (s = s0)) as [->|Hne].
      * rewrite decide_True by (apply elem_of_app; right; by left).
        apply Hd.
      * rewrite Hother by (by left). rewrite Hfiles.
        destruct (decide (s ∈ dirs)) as [Hin|Hnin].
        -- by rewrite decide_True by (apply elem_of_app; by left).
        -- rewrite decide_False; [done |].
           intros [?|?%list_elem_of_singleton]%elem_of_app; done.
Qed.

(** X20. The sessions of one run of the script do not affect each other.
    When the sessions directory exists and the catalog loads, [main]
    processes the listed directories whose name does not start with a
    dot, in the order of the listing; the result for a session, and the
    files the run leaves in its directory, are those of [processSession]
    run on that session alone from the initial disk; the stores and the
    directories of the other sessions are as they were. *)
Theorem main_sessions_independent (w : string → WriteBehaviour)
    (listing : list string) (disk : Disk) (cat : gmap string Item) :
  is_Some (sessions disk) →
  loadAllItemData JSON_parse_record disk = Normal cat →
  NoDup listing →
  let sessionDirs := filter (λ name, String.prefix "." name = false) listing in
  let alone s := process (w s) s cat disk in
  ∃ disk',
    main JSON_parse_record JSON_parse_inventories JSON_stringify
      w listing disk
      = (finished ((λ s, (alone s).1) <$> sessionDirs), disk') ∧
    items_store disk' = items_store disk ∧
    spells_store disk' = spells_store disk ∧
    ∀ s file,
      session_file disk' s file =
      if decide (s ∈ sessionDirs) then session_file (alone s).2 s file
      else session_file disk s file.
Proof.
  intros [dirs Hdirs] Hload Hnd sessionDirs alone.
  unfold main. rewrite Hdirs, Hload. fold sessionDirs.
  destruct (process_sessions_spec w cat sessionDirs disk)
    as (Hres & Hitems & Hspells & _ & Hfiles);
    [by apply NoDup_filter |].
  destruct (process_sessions JSON_parse_inventories JSON_stringify
              w cat sessionDirs disk) as [results disk'].
  cbn [fst snd] in *. exists disk'. by rewrite Hres.
Qed.

(** The counts of a result of [processSession]. *)
Lemma processSession_counts w s cat disk :
  itemsFound_of (process w s cat disk).1
    ≤ totalItems_of (process w s cat disk).1.
Proof.
  destruct (session_file disk s inventories_file) as [data|] eqn:Hdata.
  - pose proof Hdata as (dirs & dir & Hdirs & Hdir & Hfile)%session_file_Some.
    destruct (JSON_parse_inventories data) as [inv|] eqn:Hinv.
    + rewrite (processSession_write JSON_parse_inventories JSON_stringify
                 w s cat disk dirs dir data inv) by done.
      cbn [fst].
      destruct (find_matching_items_partition cat (allItems inv)
                  (NoDup_allItems inv)) as (_ & _ & _ & _ & _ & Hlen).
      destruct w; simpl; lia.
    + unfold processSession. rewrite Hdata, Hinv. done.
  - unfold processSession. rewrite Hdata. done.
Qed.

Lemma process_sessions_counts w cat dirs disk :
  let out :=
    process_sessions JSON_parse_inventories JSON_stringify w cat dirs disk in
  length out.1 = length dirs ∧
  Forall (λ r, itemsFound_of r ≤ totalItems_of r) out.1.
Proof.
  induction dirs as [|s dirs IH] using rev_ind; intros out; subst out.
  - split; [done | constructor].
  - rewrite process_sessions_snoc. cbn zeta. cbn [fst snd].
    destruct IH as [Hlen Hall]. split.
    + rewrite !length_app, Hlen. done.
    + apply Forall_app. split; [done |].
      constructor; [apply processSession_counts | constructor].
Qed.

(** X21. The summary of a run.  [main] gives one result for each listed
    directory whose name does not start with a dot; every result is
    counted once, as successful, failed or without inventories; and the
    number of cached items the summary prints is at most the number of
    requested ones. *)
Theorem main_summary (w : string → WriteBehaviour) (listing : list string)
    (disk disk' : Disk) (results : list SessionResult) :
  main JSON_parse_record JSON_parse_inventories JSON_stringify
    w listing disk = (finished results, disk') →
  length results
    = length (filter (λ name, String.prefix "." name = false) listing) ∧
  successful (summary results) + failed (summary results)
    + noInventories (summary results) = length results ∧
  cached (summary results) ≤ requested (summary results).
Proof.
  unfold main. destruct (sessions disk) as [dirs|]; [|done].
  destruct (loadAllItemData JSON_parse_record disk) as [cat|e]; [|done].
  set (sessionDirs := filter _ listing).
  destruct (process_sessions_counts w cat sessionDirs disk) as [Hlen Hall].
  destruct (process_sessions JSON_parse_inventories JSON_stringify
              w cat sessionDirs disk) as [results' disk''].
  cbn [fst snd] in *. intros [= <- <-]. split_and!; [done | |].
  - clear. unfold summary. simpl.
    induction results' as [|r rs IH]; [done |].
    rewrite !filter_cons. destruct r; simpl; lia.
  - unfold summary. simpl. clear Hlen.
    assert (Hsum : ∀ a b, a ≤ b →
      foldl (λ sum r, sum + itemsFound_of r) a
        (filter (λ r, is_success r = true) results')
      ≤ foldl (λ sum r, sum + totalItems_of r) b
          (filter (λ r, is_success r = true) results')).
    { induction Hall as [|r rs Hr Hrs IH]; intros a b Hab; [done |].
      rewrite filter_cons. destruct (decide (is_success r = true)); [|auto].
      simpl. apply IH. lia. }
    by apply Hsum.
Qed.

End ServiceFacts.

(** The records of an object without repeated keys, read by key. *)
Lemma obj_get_records (o : Obj Value) (n : string) :
  NoDup (keys o) →
  obj_get (records o) n =
  match obj_get o n with
  | Some (VRecord r) => Some r
  | _ => None
  end.
Proof.
  assert (Habsent : ∀ o', n ∉ keys o' → obj_get (records o') n = None).
  { induction o' as [|[k v] o' IH]; [done |]. intros Hn.
    assert (Hk : k ≠ n) by (intros ->; apply Hn; apply list_elem_of_here).
    assert (Hrest : n ∉ keys o')
      by (intros ?; apply Hn; by apply list_elem_of_further).
    unfold records. cbn [omap list_omap]. cbn [fst snd].
    destruct v; cbn [obj_get]; rewrite ?decide_False by done;
      by apply IH. }
  induction o as [|[k v] o IH]; [done |]. intros [Hk Hnd]%NoDup_cons.
  unfold records. cbn [omap list_omap obj_get]. cbn [fst snd].
  destruct (decide (k = n)) as [->|Hne].
  - destruct v; cbn [obj_get]; rewrite ?decide_True by done;
      try done; by apply Habsent.
  - destruct v; cbn [obj_get]; rewrite ?decide_False by done;
      by apply IH.
Qed.

(** Under a name other than [__proto__] a catalog reads as a record
    exactly when it holds one. *)
Lemma catalog_get_record (cat : gmap string Item) (n : string) (r : Item) :
  n ≠ "__proto__" →
  catalog_get cat n = VRecord r ↔ cat !! n = Some r.
Proof.
  intros Hn. unfold catalog_get.
  destruct (cat !! n) as [r'|]; [split; congruence |].
  split; [|done]. unfold inherited, Object_prototype.
  destruct (String.eqb_spec n "__proto__") as [?|_]; [done |].
  destruct (cat !! "__proto__");
    repeat match goal with
           | |- context [if ?c then _ else _] => destruct c
           end; done.
Qed.

Section ServingFacts.

Variable JSON_parse_inventories : string → option Inv.t.
Variable JSON_parse_items : string → option (Obj Item).
Variable JSON_stringify : Obj Value → string.

Local Set Default Proof Using "Type".

(** X22. From the build to the page.  After [processSession] built the
    artifact of a session, its write succeeding, and provided the artifact
    parses back to the records of the object that was serialised, the
    serving route answers [200] with them; the page that seeds its cache
    with the answer holds exactly the catalog records of the referenced
    names other than [__proto__], and [fetchItem] then resolves every such
    name the catalog has without a request and without a state update. *)
Theorem built_artifact_serves_page (id : string) (cat : gmap string Item)
    (disk : Disk) (data : string) (inv : Inv.t)
    (service : string → Lookup) (σ : Page) :
  session_file disk id inventories_file = Some data →
  JSON_parse_inventories data = Some inv →
  let artifact := (find_matching_items cat (allItems inv)).1 in
  let disk' :=
    (processSession JSON_parse_inventories JSON_stringify
       Succeeds id cat disk).2 in
  JSON_parse_items (JSON_stringify artifact) = Some (records artifact) →
  let σ' :=
    process_precomputed
      (precomputed_response (GET JSON_parse_items id disk')) σ in
  GET JSON_parse_items id disk' = get_200 (records artifact) ∧
  requests σ' = requests σ ∧
  (∀ n, itemCache_state σ' !! n =
        if decide (n ∈ allItems inv ∧ n ≠ "__proto__") then cat !! n
        else None) ∧
  ∀ n r, n ∈ allItems inv → n ≠ "__proto__" → cat !! n = Some r →
         fetchItem service (itemCache_state σ') n σ' = (Normal (Some r), σ').
Proof.
  intros Hdata Hinv artifact disk' Hround σ'.
  pose proof Hdata as (dirs & dir & Hdirs & Hdir & Hfile)%session_file_Some.
  assert (Hget :
    GET JSON_parse_items id disk' = get_200 (records artifact)).
  { subst disk'.
    rewrite (processSession_write JSON_parse_inventories JSON_stringify
               Succeeds id cat disk dirs dir data inv) by done.
    cbn [snd writeFileSync]. unfold GET.
    rewrite session_file_with_session_dir by (by rewrite Hdirs).
    rewrite decide_True by done. rewrite lookup_insert_eq.
    fold artifact. rewrite Hround.
    unfold with_session_dir. simpl. by rewrite Hdirs. }
  assert (Hstate : ∀ n, itemCache_state σ' !! n =
            if decide (n ∈ allItems inv ∧ n ≠ "__proto__") then cat !! n
            else None).
  { intros n. subst σ'. rewrite Hget. simpl.
    rewrite list_to_map_obj_get.
    destruct (find_matching_items_partition cat (allItems inv)
                (NoDup_allItems inv)) as (_ & _ & Hnd & _).
    rewrite obj_get_records by done.
    destruct (find_matching_items_spec cat (allItems inv)) as (Hobj & _).
    subst artifact. rewrite Hobj.
    destruct (decide (n ∈ allItems inv ∧ n ≠ "__proto__"))
      as [[Hn Hp]|Hnot].
    - destruct (cat !! n) as [r|] eqn:Hr.
      + apply (catalog_get_record cat n r Hp) in Hr. rewrite Hr.
        by rewrite decide_True.
      + destruct (decide _) as [_|_]; [|done].
        destruct (catalog_get cat n) as [r| | | | | |] eqn:Hread; try done.
        apply (catalog_get_record cat n r Hp) in Hread. congruence.
    - rewrite decide_False; [done |]. intros (? & ? & _). by apply Hnot. }
  split_and!; [done | by subst σ'; rewrite Hget | done |].
  intros n r Hn Hp Hr. unfold fetchItem.
  by rewrite Hstate, decide_True, Hr by done.
Qed.

End ServingFacts.

(** ** The theorems above at the example data *)


Lemma catalog_spec_witness :
  (∀ n r, Examples.catalog !! n = Some r → name r = n) ∧
  size Examples.catalog ≤
    length (record_files (items_store Examples.disk)) +
    length (record_files (spells_store Examples.disk)).
Proof.
  destruct (catalog_spec Examples.parse_record Examples.disk
              Examples.catalog) as (Hname & _ & _ & Hsize).
  - vm_compute. reflexivity.
  - split; [|exact Hsize]. intros n r Hr. exact (proj1 (Hname n r Hr)).
Defined.


Lemma route_persists_referenced_spells_witness :
  NoDup
    (keys [("Fiery Blast", VRecord (record_of Examples.fiery_blast))]) ∧
  "Fiery Blast" ∈ allItems Examples.inventories ∧
  missing_from
    {| own := [("Fiery Blast", VRecord (record_of Examples.fiery_blast))];
       proto := None |}
    (allItems Examples.inventories)
  = filter
      (λ n, (n ∉ keys [("Fiery Blast",
                        VRecord (record_of Examples.fiery_blast))]) ∧
            n ≠ "__proto__" ∧ (n ∉ Object_prototype_functions))
      (allItems Examples.inventories).
Proof.
  destruct (route_persists_referenced_spells Examples.parse_record
              Examples.disk (allItems Examples.inventories)
              {| own := [("Fiery Blast",
                          VRecord (record_of Examples.fiery_blast))];
                 proto := None |})
    as (Hnodup & Hkeys & _ & _ & _ & Hmissing).
  - vm_compute. reflexivity.
  - split; [exact Hnodup |]. split; [|exact (Hmissing eq_refl)].
    apply (proj1 (Hkeys "Fiery Blast")). apply list_elem_of_here.
Defined.

Lemma POST_success_response_witness :
  ∃ data inv itemData,
    session_file Examples.disk "game1" inventories_file = Some data ∧
    Examples.parse_inventories data = Some inv ∧
    route_search Examples.parse_record Examples.disk (allItems inv)
      = Normal itemData ∧
    1 = length (keys (own itemData)) ∧ 4 = length (allItems inv) ∧
    1 + length ["Short Sword"; "Battle Armor"; "Unknown Relic"] ≤ 4.
Proof.
  destruct (POST_success_response Examples.parse_record
              Examples.parse_inventories Examples.stringify Succeeds
              "game1" Examples.disk
              (POST Examples.parse_record Examples.parse_inventories
                 Examples.stringify Succeeds "game1" Examples.disk).2
              1 4 ["Short Sword"; "Battle Armor"; "Unknown Relic"])
    as (data & inv & itemData & Hdata & Hinv & Hsearch & _ & _ &
        Hfound & Htotal & _ & _ & _ & Hle & _).
  - vm_compute. reflexivity.
  - exists data, inv, itemData.
    split; [exact Hdata |]. split; [exact Hinv |]. split; [exact Hsearch |].
    split; [exact Hfound |]. split; [exact Htotal | exact Hle].
Defined.

Lemma main_sessions_independent_witness :
  ∃ disk',
    main Examples.parse_record Examples.parse_inventories Examples.stringify
      (λ _, Succeeds) ["game1"; ".git"; "game2"] Examples.disk
    = (finished
         ((λ s, (processSession Examples.parse_inventories Examples.stringify
                   Succeeds s Examples.catalog Examples.disk).1)
            <$> filter (λ name, String.prefix "." name = false)
                  ["game1"; ".git"; "game2"]),
       disk') ∧
    items_store disk' = items_store Examples.disk ∧
    spells_store disk' = spells_store Examples.disk.
Proof.
  destruct (main_sessions_independent Examples.parse_record
              Examples.parse_inventories Examples.stringify
              (λ _, Succeeds) ["game1"; ".git"; "game2"] Examples.disk
              Examples.catalog)
    as (disk' & Hmain & Hitems & Hspells & _).
  - eexists. reflexivity.
  - vm_compute. reflexivity.
  - apply (bool_decide_unpack _). vm_compute. exact I.
  - exists disk'. split; [exact Hmain |]. split; [exact Hitems | exact Hspells].
Defined.

Lemma main_summary_witness :
  cached (summary [success "game1" 3 4 1; no_inventories "game2"])
  ≤ requested (summary [success "game1" 3 4 1; no_inventories "game2"]).
Proof.
  apply (main_summary Examples.parse_record Examples.parse_inventories
           Examples.stringify (λ _, Succeeds) ["game1"; ".git"; "game2"]
           Examples.disk
           (main Examples.parse_record Examples.parse_inventories
              Examples.stringify (λ _, Succeeds) ["game1"; ".git"; "game2"]
              Examples.disk).2
           [success "game1" 3 4 1; no_inventories "game2"]).
  vm_compute. reflexivity.
Defined.

Lemma built_artifact_serves_page_witness :
  GET example_parse_items "game1"
    (processSession Examples.parse_inventories Examples.stringify
       Succeeds "game1" Examples.catalog Examples.disk).2
  = get_200 (records example_artifact).
Proof.
  apply (built_artifact_serves_page Examples.parse_inventories
           example_parse_items Examples.stringify "game1" Examples.catalog
           Examples.disk "inventories" Examples.inventories
           example_service example_page).
  - reflexivity.
  - reflexivity.
  - vm_compute. reflexivity.
Defined.
